(** * newsite core: tickets, transfers, shifts and the schedule grid

    A shallow embedding of [core/models.py] and [core/views.py].

    The entity store is a record of tables, a table being the list of its
    rows in the order a queryset yields them.  A queryset
    [Model.objects.filter(P)] is [filter P table], [.count()] is [length],
    [.first()] is [head], [.exists()] is a test for the empty list and
    [get_object_or_404] is [head] with 404 for [None].  Events, ticket
    types, roles and shifts are never written by the views and are listed in
    their [Meta.ordering]; new orders and transfers go to the front of their
    tables (ordering [-created_at]); assignments are read by count, by
    existence and by [(shift, user)], so the place of a new row is immaterial.

    A view reads the store, may call the payment gateway, and then issues a
    sequence of writes.  Every [save()], [create()], [delete()] and
    [update()] is a statement of its own ([views.py] opens no transaction),
    so a view is modelled as a function from the store it reads to an
    [outcome]: the response, the gateway calls made, and the list of writes
    in program order.  Running the writes one after the other gives the
    successive contents of the store. *)

From Stdlib Require Import ZArith String Ascii.
From stdpp Require Import base decidable option list gmap strings.

Local Open Scope Z_scope.
Local Open Scope nat_scope.

(** ** Data model ([core/models.py]) *)

Module Model.

Inductive order_status := OrderPending | OrderCompleted | OrderCancelled.
Inductive transfer_status := TransferPending | TransferAccepted | TransferRejected.

#[export] Instance order_status_eq_dec : EqDecision order_status.
Proof. solve_decision. Defined.
#[export] Instance transfer_status_eq_dec : EqDecision transfer_status.
Proof. solve_decision. Defined.

Record User := {
  user_id : nat;
  user_email : string }.

Record Event := {
  event_id : nat;
  event_is_active : bool;
  max_shifts_per_user : nat }.

Record TicketType := {
  tt_id : nat;
  tt_event : nat;
  tt_label : string;
  stripe_price_id : string;
  max_per_user : nat }.

Record Order := {
  order_id : nat;
  order_ticket_type : nat;
  purchasing_user : nat;
  owning_user : nat;
  stripe_checkout_session_id : string;
  stripe_payment_intent_id : option string;
  order_state : order_status }.

Record Transfer := {
  transfer_id : nat;
  transfer_order : nat;
  from_user : nat;
  to_email : string;
  to_user : option nat;
  transfer_state : transfer_status }.

Record Role := {
  role_id : nat;
  role_event : nat }.

(** A datetime is an instant counted in microseconds; see [Grid]. *)
Record Shift := {
  shift_id : nat;
  shift_role : nat;
  start_time : Z;
  end_time : Z;
  capacity : nat }.

Record ShiftAssignment := {
  assignment_id : nat;
  assignment_shift : nat;
  assignment_user : nat }.

#[export] Instance Shift_eq_dec : EqDecision Shift.
Proof. solve_decision. Defined.

Record Store := {
  users : list User;
  events : list Event;
  ticket_types : list TicketType;
  orders : list Order;
  transfers : list Transfer;
  roles : list Role;
  shifts : list Shift;
  assignments : list ShiftAssignment;
  next_order_id : nat;
  next_transfer_id : nat;
  next_assignment_id : nat }.

Definition with_orders (db : Store) (os : list Order) (next : nat) : Store :=
  {| users := users db; events := events db; ticket_types := ticket_types db;
     orders := os; transfers := transfers db; roles := roles db;
     shifts := shifts db; assignments := assignments db;
     next_order_id := next; next_transfer_id := next_transfer_id db;
     next_assignment_id := next_assignment_id db |}.

Definition with_transfers (db : Store) (ts : list Transfer) (next : nat) : Store :=
  {| users := users db; events := events db; ticket_types := ticket_types db;
     orders := orders db; transfers := ts; roles := roles db;
     shifts := shifts db; assignments := assignments db;
     next_order_id := next_order_id db; next_transfer_id := next;
     next_assignment_id := next_assignment_id db |}.

Definition with_assignments (db : Store) (asg : list ShiftAssignment) (next : nat) : Store :=
  {| users := users db; events := events db; ticket_types := ticket_types db;
     orders := orders db; transfers := transfers db; roles := roles db;
     shifts := shifts db; assignments := asg;
     next_order_id := next_order_id db; next_transfer_id := next_transfer_id db;
     next_assignment_id := next |}.

(** [status__in=['completed', 'pending']] *)
Definition counts_towards_limit (o : Order) : Prop :=
  order_state o = OrderCompleted ∨ order_state o = OrderPending.

#[export] Instance counts_towards_limit_dec o : Decision (counts_towards_limit o).
Proof. unfold counts_towards_limit. apply _. Defined.

(** [Event.get_active]: [cls.objects.filter(is_active=True).first()] *)
Definition get_active (db : Store) : option Event :=
  head (filter (λ e, event_is_active e = true) (events db)).

(** Foreign keys followed by the querysets. *)
Definition ticket_type_of (db : Store) (o : Order) : option TicketType :=
  head (filter (λ t, tt_id t = order_ticket_type o) (ticket_types db)).

Definition order_of (db : Store) (t : Transfer) : option Order :=
  head (filter (λ o, order_id o = transfer_order t) (orders db)).

Definition role_of (db : Store) (s : Shift) : option Role :=
  head (filter (λ r, role_id r = shift_role s) (roles db)).

Definition shift_of (db : Store) (a : ShiftAssignment) : option Shift :=
  head (filter (λ s, shift_id s = assignment_shift a) (shifts db)).

(** [ticket_type__event=event] on an Order *)
Definition ticket_type__event (db : Store) (ev : Event) (o : Order) : Prop :=
  tt_event <$> ticket_type_of db o = Some (event_id ev).

(** [role__event=event] on a Shift *)
Definition role__event (db : Store) (ev : Event) (s : Shift) : Prop :=
  role_event <$> role_of db s = Some (event_id ev).

(** [shift__role__event=event] on a ShiftAssignment *)
Definition shift__role__event (db : Store) (ev : Event) (a : ShiftAssignment) : Prop :=
  role_event <$> (shift_of db a ≫= role_of db) = Some (event_id ev).

End Model.

Import Model.

#[local] Instance ticket_type__event_dec db ev o : Decision (ticket_type__event db ev o).
Proof. unfold ticket_type__event. apply _. Defined.
#[local] Instance role__event_dec db ev s : Decision (role__event db ev s).
Proof. unfold role__event. apply _. Defined.
#[local] Instance shift__role__event_dec db ev a : Decision (shift__role__event db ev a).
Proof. unfold shift__role__event. apply _. Defined.

(** ** Writes, the payment gateway and responses *)

Module Http.

(** The statements the views send to the store.  [OrderCreate],
    [TransferCreate] and [AssignmentCreate] are [Model.objects.create(...)]
    with the fields the views pass (the others take the model's defaults);
    [OrdersComplete] is the [filter(...).update(...)] of [checkout_success];
    [OrderSave] and [TransferSave] are [instance.save()], an UPDATE of the row
    with the instance's primary key; the deletes are [instance.delete()]. *)
Inductive write :=
  | OrderCreate (ticket_type purchasing owning : nat) (session : string)
  | OrdersComplete (session : string) (intent : option string)
  | OrderSave (o : Order)
  | TransferCreate (order sender : nat) (email : string) (recipient : nat)
  | TransferSave (t : Transfer)
  | TransferDelete (id : nat)
  | AssignmentCreate (shift user : nat)
  | AssignmentDelete (id : nat).

(** The row [update(status='completed', stripe_payment_intent_id=...)] leaves. *)
Definition completed (intent : option string) (o : Order) : Order :=
  {| order_id := order_id o; order_ticket_type := order_ticket_type o;
     purchasing_user := purchasing_user o; owning_user := owning_user o;
     stripe_checkout_session_id := stripe_checkout_session_id o;
     stripe_payment_intent_id := intent; order_state := OrderCompleted |}.

Definition complete_order (session : string) (intent : option string) (o : Order) : Order :=
  if decide (stripe_checkout_session_id o = session ∧ order_state o = OrderPending)
  then completed intent o
  else o.

(** [instance.save()] of a row read from the table: an UPDATE of the row that
    has the instance's primary key. *)
Definition saved {A K : Type} `{!EqDecision K} (key : A → K) (new : A) (x : A) : A :=
  if decide (key x = key new) then new else x.

Definition apply_write (db : Store) (w : write) : Store :=
  match w with
  | OrderCreate ty buyer owner session =>
      with_orders db
        ({| order_id := next_order_id db; order_ticket_type := ty;
            purchasing_user := buyer; owning_user := owner;
            stripe_checkout_session_id := session;
            stripe_payment_intent_id := None;
            order_state := OrderPending |} :: orders db)
        (S (next_order_id db))
  | OrdersComplete session intent =>
      with_orders db (complete_order session intent <$> orders db) (next_order_id db)
  | OrderSave o =>
      with_orders db
        (saved order_id o <$> orders db)
        (next_order_id db)
  | TransferCreate order sender email recipient =>
      with_transfers db
        ({| transfer_id := next_transfer_id db; transfer_order := order;
            from_user := sender; to_email := email; to_user := Some recipient;
            transfer_state := TransferPending |} :: transfers db)
        (S (next_transfer_id db))
  | TransferSave t =>
      with_transfers db
        (saved transfer_id t <$> transfers db)
        (next_transfer_id db)
  | TransferDelete id =>
      with_transfers db (filter (λ x, transfer_id x ≠ id) (transfers db))
        (next_transfer_id db)
  | AssignmentCreate shift user =>
      with_assignments db
        (assignments db ++
         [{| assignment_id := next_assignment_id db; assignment_shift := shift;
             assignment_user := user |}])
        (S (next_assignment_id db))
  | AssignmentDelete id =>
      with_assignments db (filter (λ x, assignment_id x ≠ id) (assignments db))
        (next_assignment_id db)
  end.

(** The store after a sequence of writes, and every content of the store
    from the first write on, in order. *)
Definition run (db : Store) (ws : list write) : Store := foldl apply_write db ws.

Fixpoint states (db : Store) (ws : list write) : list Store :=
  match ws with
  | [] => []
  | w :: ws' => apply_write db w :: states (apply_write db w) ws'
  end.

(** The payment gateway: [stripe.checkout.Session.create] and
    [stripe.checkout.Session.retrieve].  A call that raises gives [None]. *)
Record line_item := { price : string; quantity : Z }.
Record checkout_session := { session_id : string; session_url : string }.
Record retrieved_session := { payment_status : string; payment_intent : option string }.

Record Gateway := {
  session_create : list line_item → option checkout_session;
  session_retrieve : string → option retrieved_session }.

Inductive gateway_call :=
  | SessionCreate (items : list line_item) (customer_email : string) (user : nat)
  | SessionRetrieve (id : string).

Inductive page := Home | TicketsPage | MyTickets | ShiftsPage | CheckoutSuccess.

(** [messages.error] / [messages.success] texts, with the values they interpolate. *)
Inductive message :=
  | SalesClosed                 (* 'No active event. Ticket sales are currently closed.' *)
  | NoActiveEvent               (* 'No active event.' *)
  | SelectAtLeastOne            (* 'Please select at least one ticket.' *)
  | CanOnlyHave (max : nat) (label : string) (existing : nat) (remaining : Z)
  | AlreadyPendingTransfer      (* 'This ticket already has a pending transfer.' *)
  | EnterEmail                  (* 'Please enter an email address.' *)
  | NotToYourself               (* 'You cannot transfer a ticket to yourself.' *)
  | NoSuchUser                  (* 'No user found with that email address.' *)
  | RecipientAtLimit            (* 'The recipient has reached their limit for this ticket type.' *)
  | TransferInitiated (email : string)
  | YouAtLimit                  (* 'You have reached your limit for this ticket type.' *)
  | TransferAccepted_           (* 'Transfer accepted. The ticket is now yours.' *)
  | TransferRejected_           (* 'Transfer rejected.' *)
  | TransferRescinded           (* 'Transfer rescinded.' *)
  | TicketRequired              (* 'You must have a ticket to sign up for shifts.' *)
  | MaxShiftsReached (max : nat)
  | AlreadySignedUp             (* 'You are already signed up for this shift.' *)
  | ShiftFull                   (* 'This shift is full.' *)
  | SignedUp (shift : nat)
  | NotSignedUp                 (* 'You are not signed up for this shift.' *)
  | SignupCancelled (shift : nat).

Inductive exception := ValueError | GatewayError | DoesNotExist.

Inductive response :=
  | Redirect (to : page) (msg : message)
  | RedirectUrl (url : string)
  | Render (p : page)
  | Http404
  | Raise (e : exception).

Record outcome := {
  response_of : response;
  gateway_calls : list gateway_call;
  writes : list write }.

Definition reply (r : response) : outcome :=
  {| response_of := r; gateway_calls := []; writes := [] |}.

(** [str.lower()] and [str.strip()].  A [string] holds the bytes of a text;
    on ASCII text (every byte below 128, one byte per character) Python's
    methods act as below: [lower] changes the letters A-Z and nothing else,
    [strip] removes the white space of ASCII (tab to carriage return, the
    four separators 28-31 and the space) from both ends.  Outside ASCII,
    Python also maps cased letters and strips white space that these
    functions leave alone, so what is proved of the characters of a
    normalised text is proved for [ascii_text]. *)
Definition ascii_text (s : string) : Prop :=
  Forall (λ c, nat_of_ascii c < 128) (list_ascii_of_string s).

Definition lower_char (c : ascii) : ascii :=
  let n := nat_of_ascii c in
  if (65 <=? n) && (n <=? 90) then ascii_of_nat (n + 32) else c.

Fixpoint lower (s : string) : string :=
  match s with
  | EmptyString => EmptyString
  | String c r => String (lower_char c) (lower r)
  end.

Definition is_space (c : ascii) : bool :=
  let n := nat_of_ascii c in
  (9 <=? n) && (n <=? 13) || (28 <=? n) && (n <=? 32).

Fixpoint lstrip (s : string) : string :=
  match s with
  | EmptyString => EmptyString
  | String c r => if is_space c then lstrip r else s
  end.

Fixpoint rstrip (s : string) : string :=
  match s with
  | EmptyString => EmptyString
  | String c r =>
      match rstrip r with
      | EmptyString => if is_space c then EmptyString else String c EmptyString
      | r' => String c r'
      end
  end.

Definition strip (s : string) : string := rstrip (lstrip s).

End Http.

Import Http.

(** ** Ticket purchase ([tickets], [create_checkout_session], [checkout_success]) *)

Module Tickets.

(** The value of one [quantity_<id>] form field as [int(...)] sees it. *)
Inductive field := Absent | Int (q : Z) | NotInt.

(** [int(request.POST.get(key, 0))]; [None] when [int] raises. *)
Definition int_of_field (f : field) : option Z :=
  match f with
  | Absent => Some 0%Z
  | Int q => Some q
  | NotInt => None
  end.

(** A field that is missing or holds an integer that is not positive. *)
Definition nothing_requested (f : field) : Prop :=
  f = Absent ∨ ∃ q, f = Int q ∧ (q ≤ 0)%Z.

(** [event.ticket_types.all()] *)
Definition event_ticket_types (db : Store) (ev : Event) : list TicketType :=
  filter (λ t, tt_event t = event_id ev) (ticket_types db).

(** Lines 84-92: the loop that fills [line_items] and [tickets_to_create]. *)
Fixpoint selection (tts : list TicketType) (post : nat → field)
    : option (list line_item * list TicketType) :=
  match tts with
  | [] => Some ([], [])
  | t :: rest =>
      match int_of_field (post (tt_id t)) with
      | None => None
      | Some q =>
          match selection rest post with
          | None => None
          | Some (items, tickets) =>
              if decide (0 < q)%Z
              then Some ({| price := stripe_price_id t; quantity := q |} :: items,
                         replicate (Z.to_nat q) t ++ tickets)
              else Some (items, tickets)
          end
      end
  end.

(** The queryset behind [existing_counts], and [existing_counts.get(id, 0)]. *)
Definition existing_orders (db : Store) (ev : Event) (u : User) : list Order :=
  filter (λ o, ticket_type__event db ev o ∧ owning_user o = user_id u
               ∧ counts_towards_limit o) (orders db).

Definition existing_counts (db : Store) (ev : Event) (u : User) (id : nat) : nat :=
  length (filter (λ o, order_ticket_type o = id) (existing_orders db ev u)).

(** [requested_counts.get(id, 0)] *)
Definition requested_counts (tickets : list TicketType) (id : nat) : nat :=
  length (filter (λ t, tt_id t = id) tickets).

(** [max(0, ticket_type.max_per_user - existing)] *)
Definition remaining (t : TicketType) (existing : nat) : Z :=
  Z.max 0 (Z.of_nat (max_per_user t) - Z.of_nat existing).

(** [tickets]: the rows of [ticket_data]. *)
Definition ticket_data (db : Store) (ev : Event) (u : User) : list (TicketType * Z) :=
  (λ t, (t, remaining t (existing_counts db ev u (tt_id t)))) <$> event_ticket_types db ev.

(** Lines 111-121: the first ticket type over its limit, if any. *)
Definition over_limit (db : Store) (ev : Event) (u : User) (tickets : list TicketType)
    : option TicketType :=
  head (filter (λ t, max_per_user t
                     < existing_counts db ev u (tt_id t) + requested_counts tickets (tt_id t))
               (event_ticket_types db ev)).

Definition create_checkout_session (gw : Gateway) (db : Store) (u : User)
    (post : nat → field) : outcome :=
  match get_active db with
  | None => reply (Redirect Home SalesClosed)
  | Some ev =>
      match selection (event_ticket_types db ev) post with
      | None => reply (Raise ValueError)
      | Some ([], _) => reply (Redirect TicketsPage SelectAtLeastOne)
      | Some (line_items, tickets_to_create) =>
          match over_limit db ev u tickets_to_create with
          | Some t =>
              let existing := existing_counts db ev u (tt_id t) in
              reply (Redirect TicketsPage
                       (CanOnlyHave (max_per_user t) (lower (tt_label t)) existing
                                    (remaining t existing)))
          | None =>
              let call := SessionCreate line_items (user_email u) (user_id u) in
              match session_create gw line_items with
              | None =>
                  {| response_of := Raise GatewayError; gateway_calls := [call];
                     writes := [] |}
              | Some checkout_session =>
                  {| response_of := RedirectUrl (session_url checkout_session);
                     gateway_calls := [call];
                     writes := (λ t, OrderCreate (tt_id t) (user_id u) (user_id u)
                                                 (session_id checkout_session))
                               <$> tickets_to_create |}
              end
          end
      end
  end.

(** [checkout_success]; [session_id] is [request.GET.get('session_id')].
    Whatever the [try] block raises is swallowed. *)
Definition checkout_success (gw : Gateway) (db : Store) (session_id : option string)
    : outcome :=
  match session_id with
  | None | Some EmptyString => reply (Render CheckoutSuccess)
  | Some id =>
      match session_retrieve gw id with
      | None =>
          {| response_of := Render CheckoutSuccess;
             gateway_calls := [SessionRetrieve id]; writes := [] |}
      | Some session =>
          {| response_of := Render CheckoutSuccess;
             gateway_calls := [SessionRetrieve id];
             writes := if decide (payment_status session = "paid"%string)
                       then [OrdersComplete id (payment_intent session)]
                       else [] |}
      end
  end.

End Tickets.

(** ** Transfers ([transfer_ticket], [accept_transfer], [reject_transfer],
       [rescind_transfer]) *)

Module Transfers.

(** Orders of one ticket type a user holds towards the limit. *)
Definition held (db : Store) (ticket_type user : nat) : list Order :=
  filter (λ o, order_ticket_type o = ticket_type ∧ owning_user o = user
               ∧ counts_towards_limit o) (orders db).

(** [Transfer.objects.filter(to_email=..., order__ticket_type=..., status='pending')] *)
Definition incoming (db : Store) (email : string) (ticket_type : nat) : list Transfer :=
  filter (λ t, to_email t = email
               ∧ order_ticket_type <$> order_of db t = Some ticket_type
               ∧ transfer_state t = TransferPending) (transfers db).

Definition transfer_ticket (db : Store) (u : User) (order_id_ : nat)
    (posted_email : option string) : outcome :=
  match head (filter (λ o, order_id o = order_id_ ∧ owning_user o = user_id u
                           ∧ order_state o = OrderCompleted) (orders db)) with
  | None => reply Http404
  | Some order =>
      if decide (filter (λ t, transfer_order t = order_id order
                              ∧ transfer_state t = TransferPending) (transfers db) ≠ [])
      then reply (Redirect MyTickets AlreadyPendingTransfer)
      else
        let email := lower (strip (default EmptyString posted_email)) in
        if decide (email = EmptyString) then reply (Redirect MyTickets EnterEmail)
        else if decide (email = user_email u) then reply (Redirect MyTickets NotToYourself)
        else
          match head (filter (λ x, user_email x = email) (users db)) with
          | None => reply (Redirect MyTickets NoSuchUser)
          | Some recipient =>
              match ticket_type_of db order with
              | None => reply (Raise DoesNotExist)
              | Some ticket_type =>
                  let existing_count :=
                    length (held db (order_ticket_type order) (user_id recipient)) in
                  let pending_transfers :=
                    length (incoming db email (order_ticket_type order)) in
                  if decide (max_per_user ticket_type ≤ existing_count + pending_transfers)
                  then reply (Redirect MyTickets RecipientAtLimit)
                  else
                    {| response_of := Redirect MyTickets (TransferInitiated email);
                       gateway_calls := [];
                       writes := [TransferCreate (order_id order) (user_id u) email
                                                 (user_id recipient)] |}
              end
          end
  end.

(** [get_object_or_404(Transfer, id=..., to_email=request.user.email, status='pending')] *)
Definition incoming_transfer (db : Store) (u : User) (id : nat) : option Transfer :=
  head (filter (λ t, transfer_id t = id ∧ to_email t = user_email u
                     ∧ transfer_state t = TransferPending) (transfers db)).

(** [get_object_or_404(Transfer, id=..., from_user=request.user, status='pending')] *)
Definition outgoing_transfer (db : Store) (u : User) (id : nat) : option Transfer :=
  head (filter (λ t, transfer_id t = id ∧ from_user t = user_id u
                     ∧ transfer_state t = TransferPending) (transfers db)).

Definition reassigned (o : Order) (u : User) : Order :=
  {| order_id := order_id o; order_ticket_type := order_ticket_type o;
     purchasing_user := purchasing_user o; owning_user := user_id u;
     stripe_checkout_session_id := stripe_checkout_session_id o;
     stripe_payment_intent_id := stripe_payment_intent_id o;
     order_state := order_state o |}.

Definition accepted (t : Transfer) (u : User) : Transfer :=
  {| transfer_id := transfer_id t; transfer_order := transfer_order t;
     from_user := from_user t; to_email := to_email t;
     to_user := Some (user_id u); transfer_state := TransferAccepted |}.

Definition rejected (t : Transfer) : Transfer :=
  {| transfer_id := transfer_id t; transfer_order := transfer_order t;
     from_user := from_user t; to_email := to_email t;
     to_user := to_user t; transfer_state := TransferRejected |}.

Definition accept_transfer (db : Store) (u : User) (id : nat) : outcome :=
  match incoming_transfer db u id with
  | None => reply Http404
  | Some transfer =>
      match order_of db transfer with
      | None => reply (Raise DoesNotExist)
      | Some order =>
          match ticket_type_of db order with
          | None => reply (Raise DoesNotExist)
          | Some ticket_type =>
              let existing_count :=
                length (held db (order_ticket_type order) (user_id u)) in
              if decide (max_per_user ticket_type ≤ existing_count)
              then reply (Redirect MyTickets YouAtLimit)
              else
                {| response_of := Redirect MyTickets TransferAccepted_;
                   gateway_calls := [];
                   writes := [OrderSave (reassigned order u);
                              TransferSave (accepted transfer u)] |}
          end
      end
  end.

Definition reject_transfer (db : Store) (u : User) (id : nat) : outcome :=
  match incoming_transfer db u id with
  | None => reply Http404
  | Some transfer =>
      {| response_of := Redirect MyTickets TransferRejected_; gateway_calls := [];
         writes := [TransferSave (rejected transfer)] |}
  end.

Definition rescind_transfer (db : Store) (u : User) (id : nat) : outcome :=
  match outgoing_transfer db u id with
  | None => reply Http404
  | Some transfer =>
      {| response_of := Redirect MyTickets TransferRescinded; gateway_calls := [];
         writes := [TransferDelete (transfer_id transfer)] |}
  end.

End Transfers.

(** ** Shift signup ([Shift.spots_remaining], [shift_signup], [shift_cancel]) *)

Module Shifts.

(** [shift.assignments] *)
Definition shift_assignments (db : Store) (s : Shift) : list ShiftAssignment :=
  filter (λ a, assignment_shift a = shift_id s) (assignments db).

(** [Shift.spots_remaining]: [self.capacity - self.assignments.count()] *)
Definition spots_remaining (db : Store) (s : Shift) : Z :=
  (Z.of_nat (capacity s) - Z.of_nat (length (shift_assignments db s)))%Z.

(** [Order.objects.filter(ticket_type__event=event, owning_user=request.user,
    status='completed').exists()] *)
Definition has_ticket (db : Store) (ev : Event) (u : User) : Prop :=
  filter (λ o, ticket_type__event db ev o ∧ owning_user o = user_id u
               ∧ order_state o = OrderCompleted) (orders db) ≠ [].

(** [ShiftAssignment.objects.filter(user=request.user, shift__role__event=event).count()] *)
Definition user_shift_count (db : Store) (ev : Event) (u : User) : nat :=
  length (filter (λ a, assignment_user a = user_id u ∧ shift__role__event db ev a)
                 (assignments db)).

(** [get_object_or_404(Shift, id=shift_id, role__event=event)] *)
Definition event_shift (db : Store) (ev : Event) (id : nat) : option Shift :=
  head (filter (λ s, shift_id s = id ∧ role__event db ev s) (shifts db)).

(** [ShiftAssignment.objects.filter(shift=shift, user=request.user)] *)
Definition signup_of (db : Store) (s : Shift) (u : User) : list ShiftAssignment :=
  filter (λ a, assignment_shift a = shift_id s ∧ assignment_user a = user_id u)
         (assignments db).

Definition shift_signup (db : Store) (u : User) (id : nat) : outcome :=
  match get_active db with
  | None => reply (Redirect Home NoActiveEvent)
  | Some ev =>
      if decide (has_ticket db ev u) then
        if decide (0 < max_shifts_per_user ev
                   ∧ max_shifts_per_user ev ≤ user_shift_count db ev u)
        then reply (Redirect ShiftsPage (MaxShiftsReached (max_shifts_per_user ev)))
        else
          match event_shift db ev id with
          | None => reply Http404
          | Some shift =>
              if decide (signup_of db shift u ≠ [])
              then reply (Redirect ShiftsPage AlreadySignedUp)
              else if decide (spots_remaining db shift ≤ 0)%Z
              then reply (Redirect ShiftsPage ShiftFull)
              else
                {| response_of := Redirect ShiftsPage (SignedUp (shift_id shift));
                   gateway_calls := [];
                   writes := [AssignmentCreate (shift_id shift) (user_id u)] |}
          end
      else reply (Redirect ShiftsPage TicketRequired)
  end.

Definition shift_cancel (db : Store) (u : User) (id : nat) : outcome :=
  match get_active db with
  | None => reply (Redirect Home NoActiveEvent)
  | Some ev =>
      match event_shift db ev id with
      | None => reply Http404
      | Some shift =>
          match head (signup_of db shift u) with
          | None => reply (Redirect ShiftsPage NotSignedUp)
          | Some assignment =>
              {| response_of := Redirect ShiftsPage (SignupCancelled (shift_id shift));
                 gateway_calls := [];
                 writes := [AssignmentDelete (assignment_id assignment)] |}
          end
      end
  end.

(** The order of checks section 4.5 of the specification gives for signup:
    active event, shift of the event, ticket, per-user cap, no duplicate,
    free spot.  Used only to compare with [shift_signup]. *)
Definition signup_as_specified (db : Store) (u : User) (id : nat) : outcome :=
  match get_active db with
  | None => reply (Redirect Home NoActiveEvent)
  | Some ev =>
      match event_shift db ev id with
      | None => reply Http404
      | Some shift =>
          if decide (has_ticket db ev u) then
            if decide (0 < max_shifts_per_user ev
                       ∧ max_shifts_per_user ev ≤ user_shift_count db ev u)
            then reply (Redirect ShiftsPage (MaxShiftsReached (max_shifts_per_user ev)))
            else if decide (signup_of db shift u ≠ [])
            then reply (Redirect ShiftsPage AlreadySignedUp)
            else if decide (spots_remaining db shift ≤ 0)%Z
            then reply (Redirect ShiftsPage ShiftFull)
            else
              {| response_of := Redirect ShiftsPage (SignedUp (shift_id shift));
                 gateway_calls := [];
                 writes := [AssignmentCreate (shift_id shift) (user_id u)] |}
          else reply (Redirect ShiftsPage TicketRequired)
      end
  end.

End Shifts.

(** ** The schedule grid ([shifts]) *)

Module Grid.

Local Open Scope Z_scope.

(** A datetime is the instant it denotes, in microseconds (the resolution of
    [datetime]) on the clock of its time zone; [timedelta(hours=1)] is
    [HOUR]. *)
Definition HOUR : Z := 3600000000.

(** [t.replace(minute=0, second=0, microsecond=0)] *)
Definition on_the_hour (t : Z) : Z := t - t mod HOUR.

(** Lines 385-387, 401-403, 435-437: the hour after [t], or [t] itself when
    it is on the hour. *)
Definition rounded_up (t : Z) : Z :=
  let end_hour := on_the_hour t in
  if decide (end_hour < t) then end_hour + HOUR else end_hour.

(** [while current < stop: ...; current += timedelta(hours=1)], the values
    [current] takes in the body.  [fuel] bounds the number of iterations. *)
Fixpoint hours_from (fuel : nat) (current stop : Z) : list Z :=
  match fuel with
  | O => []
  | S fuel' =>
      if decide (current < stop)
      then current :: hours_from fuel' (current + HOUR) stop
      else []
  end.

(** The number of iterations the loop makes from [start]. *)
Definition iterations (start stop : Z) : nat :=
  Z.to_nat ((stop - start + (HOUR - 1)) / HOUR).

Definition hour_range (start stop : Z) : list Z :=
  hours_from (iterations start stop) start stop.

(** [min(s.start_time for s in all_shifts)], [max(s.end_time for s in all_shifts)]
    on a queryset with a first row. *)
Definition min_time (first : Shift) (others : list Shift) : Z :=
  foldl Z.min (start_time first) (start_time <$> others).

Definition max_time (first : Shift) (others : list Shift) : Z :=
  foldl Z.max (end_time first) (end_time <$> others).

(** The hours a shift covers (lines 400-408). *)
Definition shift_hours (shift : Shift) : list Z :=
  hour_range (on_the_hour (start_time shift)) (rounded_up (end_time shift)).

(** [role_hour_shift], a dict keyed by [(role_id, hour)]. *)
Definition cover (m : gmap (nat * Z) Shift) (shift : Shift) : gmap (nat * Z) Shift :=
  foldl (λ m current, <[(shift_role shift, current) := shift]> m) m (shift_hours shift).

Definition role_hour_shift (all_shifts : list Shift) : gmap (nat * Z) Shift :=
  foldl cover ∅ all_shifts.

Inductive cell :=
  | Empty
  | ShiftStart (shift : Shift) (rowspan : Z) (is_signed_up : bool)
  | ShiftContinue.

Record row := { hour : Z; cells : list cell }.

(** [int((shift_end_hour - shift_start_hour).total_seconds() // 3600)]; both
    ends are on the hour, so the division is exact. *)
Definition rowspan_of (shift : Shift) : Z :=
  (rounded_up (end_time shift) - on_the_hour (start_time shift)) / HOUR.

(** The body of the inner loop of lines 424-448. *)
Definition cell_at (m : gmap (nat * Z) Shift) (user_assignments : gset nat)
    (hour : Z) (role : Role) : cell :=
  match m !! (role_id role, hour) with
  | None => Empty
  | Some shift =>
      if decide (hour = on_the_hour (start_time shift))
      then ShiftStart shift (rowspan_of shift)
                      (bool_decide (shift_id shift ∈ user_assignments))
      else ShiftContinue
  end.

Definition build_grid (roles : list Role) (all_shifts : list Shift)
    (user_assignments : gset nat) (hours : list Z) : list row :=
  (λ hour, {| hour := hour;
              cells := cell_at (role_hour_shift all_shifts) user_assignments hour
                       <$> roles |}) <$> hours.

(** The template context of [shifts]. *)
Record context := {
  ctx_roles : list Role;
  ctx_grid : list row;
  ctx_hours : list Z;
  ctx_has_ticket : bool;
  ctx_user_shift_count : nat;
  ctx_can_signup_more : bool }.

Definition shifts (db : Store) (u : User) : response + context :=
  match get_active db with
  | None => inl (Redirect Home NoActiveEvent)
  | Some event =>
      let roles := filter (λ r, role_event r = event_id event) (roles db) in
      let has_ticket := bool_decide (Shifts.has_ticket db event u) in
      let user_shift_count := Shifts.user_shift_count db event u in
      let can_signup_more :=
        bool_decide (max_shifts_per_user event = 0%nat
                     ∨ (user_shift_count < max_shifts_per_user event)%nat) in
      match roles with
      | [] =>
          inr {| ctx_roles := []; ctx_grid := []; ctx_hours := [];
                 ctx_has_ticket := has_ticket;
                 ctx_user_shift_count := user_shift_count;
                 ctx_can_signup_more := can_signup_more |}
      | _ =>
          match filter (λ s, role__event db event s) (Model.shifts db) with
          | [] =>
              inr {| ctx_roles := roles; ctx_grid := []; ctx_hours := [];
                     ctx_has_ticket := has_ticket;
                     ctx_user_shift_count := user_shift_count;
                     ctx_can_signup_more := can_signup_more |}
          | first :: others =>
              let all_shifts := first :: others in
              let min_hour := on_the_hour (min_time first others) in
              let max_hour := rounded_up (max_time first others) in
              let hours := hour_range min_hour max_hour in
              let user_assignments : gset nat :=
                list_to_set
                  (assignment_shift <$>
                   filter (λ a, assignment_user a = user_id u
                                ∧ shift__role__event db event a) (assignments db)) in
              inr {| ctx_roles := roles;
                     ctx_grid := build_grid roles all_shifts user_assignments hours;
                     ctx_hours := hours;
                     ctx_has_ticket := has_ticket;
                     ctx_user_shift_count := user_shift_count;
                     ctx_can_signup_more := can_signup_more |}
          end
      end
  end.

End Grid.

(** ** Requests served one after the other *)

Module Site.

Inductive request :=
  | CreateCheckoutSession (gw : Gateway) (u : User) (post : nat → Tickets.field)
  | CheckoutSuccessVisit (gw : Gateway) (session_id : option string)
  | TransferTicket (u : User) (order : nat) (posted_email : option string)
  | AcceptTransfer (u : User) (transfer : nat)
  | RejectTransfer (u : User) (transfer : nat)
  | RescindTransfer (u : User) (transfer : nat)
  | ShiftSignup (u : User) (shift : nat)
  | ShiftCancel (u : User) (shift : nat).

Definition handle (db : Store) (r : request) : outcome :=
  match r with
  | CreateCheckoutSession gw u post => Tickets.create_checkout_session gw db u post
  | CheckoutSuccessVisit gw session_id => Tickets.checkout_success gw db session_id
  | TransferTicket u order posted_email => Transfers.transfer_ticket db u order posted_email
  | AcceptTransfer u transfer => Transfers.accept_transfer db u transfer
  | RejectTransfer u transfer => Transfers.reject_transfer db u transfer
  | RescindTransfer u transfer => Transfers.rescind_transfer db u transfer
  | ShiftSignup u shift => Shifts.shift_signup db u shift
  | ShiftCancel u shift => Shifts.shift_cancel db u shift
  end.

(** The store after a request has run to its end, and after a sequence of
    requests each run to its end before the next starts. *)
Definition serve (db : Store) (r : request) : Store := run db (writes (handle db r)).

Definition serve_all (db : Store) (rs : list request) : Store := foldl serve db rs.

(** Primary keys: ids are unique in a table and below the table's sequence. *)
Definition well_keyed (db : Store) : Prop :=
  NoDup (tt_id <$> ticket_types db)
  ∧ NoDup (order_id <$> orders db)
  ∧ (∀ o, o ∈ orders db → order_id o < next_order_id db)
  ∧ NoDup (shift_id <$> Model.shifts db).

(** The per-user ticket quota, for one user and one ticket type. *)
Definition within_quota (db : Store) (u : nat) (t : TicketType) : Prop :=
  length (Transfers.held db (tt_id t) u) ≤ max_per_user t.

(** A shift is not over its capacity. *)
Definition within_capacity (db : Store) (s : Shift) : Prop :=
  (0 ≤ Shifts.spots_remaining db s)%Z.

(** Writes to the ShiftAssignment table. *)
Definition writes_assignments (w : write) : bool :=
  match w with
  | AssignmentCreate _ _ | AssignmentDelete _ => true
  | _ => false
  end.

End Site.

(** ** A small site to run the views on *)

Module Example.

Definition festival : Event :=
  {| event_id := 1; event_is_active := true; max_shifts_per_user := 1 |}.

Definition general : TicketType :=
  {| tt_id := 1; tt_event := 1; tt_label := "General"; stripe_price_id := "price_ga";
     max_per_user := 2 |}.

Definition parking : TicketType :=
  {| tt_id := 2; tt_event := 1; tt_label := "Parking"; stripe_price_id := "price_pk";
     max_per_user := 1 |}.

Definition alice : User := {| user_id := 1; user_email := "alice@example.org" |}.
Definition bob : User := {| user_id := 2; user_email := "bob@example.org" |}.
Definition carol : User := {| user_id := 3; user_email := "carol@example.org" |}.

Definition order1 : Order :=
  {| order_id := 1; order_ticket_type := 1; purchasing_user := 1; owning_user := 1;
     stripe_checkout_session_id := "cs_1"; stripe_payment_intent_id := Some "pi_1"%string;
     order_state := OrderCompleted |}.

Definition order2 : Order :=
  {| order_id := 2; order_ticket_type := 1; purchasing_user := 1; owning_user := 1;
     stripe_checkout_session_id := "cs_2"; stripe_payment_intent_id := None;
     order_state := OrderPending |}.

Definition transfer1 : Transfer :=
  {| transfer_id := 1; transfer_order := 1; from_user := 1;
     to_email := "bob@example.org"; to_user := Some 2;
     transfer_state := TransferPending |}.

Definition kitchen : Role := {| role_id := 7; role_event := 1 |}.

(** 10:00-12:00 and 12:30-13:00 on the first day of the clock. *)
Definition morning : Shift :=
  {| shift_id := 1; shift_role := 7; start_time := 10 * Grid.HOUR;
     end_time := 12 * Grid.HOUR; capacity := 1 |}.

Definition noon : Shift :=
  {| shift_id := 2; shift_role := 7; start_time := 12 * Grid.HOUR + Grid.HOUR / 2;
     end_time := 13 * Grid.HOUR; capacity := 1 |}.

Definition site : Store :=
  {| users := [alice; bob; carol]; events := [festival];
     ticket_types := [general; parking]; orders := [order2; order1];
     transfers := [transfer1]; roles := [kitchen]; Model.shifts := [morning; noon];
     assignments := [];
     next_order_id := 3; next_transfer_id := 2; next_assignment_id := 1 |}.

(** Two shifts that start and end at the same instant: 14:00-14:00 and
    13:30-13:30. *)
Definition marker : Shift :=
  {| shift_id := 3; shift_role := 7; start_time := 14 * Grid.HOUR;
     end_time := 14 * Grid.HOUR; capacity := 1 |}.

Definition instant : Shift :=
  {| shift_id := 4; shift_role := 7; start_time := 13 * Grid.HOUR + Grid.HOUR / 2;
     end_time := 13 * Grid.HOUR + Grid.HOUR / 2; capacity := 1 |}.

Definition with_shifts (l : list Shift) : Store :=
  {| users := users site; events := events site; ticket_types := ticket_types site;
     orders := orders site; transfers := transfers site; roles := roles site;
     Model.shifts := l; assignments := assignments site;
     next_order_id := next_order_id site; next_transfer_id := next_transfer_id site;
     next_assignment_id := next_assignment_id site |}.

(** A form that asks for two General tickets, and one that asks for none. *)
Definition two_general (id : nat) : Tickets.field :=
  if decide (id = 1) then Tickets.Int 2 else Tickets.Absent.

Definition nothing (id : nat) : Tickets.field :=
  if decide (id = 1) then Tickets.Int 0 else Tickets.Absent.

Definition stripe : Gateway :=
  {| session_create := λ _, Some {| session_id := "cs_3"; session_url := "https://pay/cs_3" |};
     session_retrieve := λ _, Some {| payment_status := "paid";
                                      payment_intent := Some "pi_2"%string |} |}.

End Example.

(** ** Activating an event ([Event.save]) *)

Module Events.

Definition deactivated (e : Event) : Event :=
  {| event_id := event_id e; event_is_active := false;
     max_shifts_per_user := max_shifts_per_user e |}.

(** [Event.objects.filter(is_active=True).exclude(pk=self.pk).update(is_active=False)] *)
Definition deactivate_others (self : Event) (events : list Event) : list Event :=
  (λ e, if decide (event_is_active e = true ∧ event_id e ≠ event_id self)
        then deactivated e else e) <$> events.

(** [super().save()]: an UPDATE of the row that has the instance's primary
    key, an INSERT when there is none.  For an instance not yet saved,
    [event_id self] is the key the database gives it, which no row has;
    [place] is where [Meta.ordering] puts the new row. *)
Definition store_row (place : nat) (self : Event) (events : list Event) : list Event :=
  if decide (event_id self ∈ event_id <$> events)
  then saved event_id self <$> events
  else take place events ++ self :: drop place events.

(** [Event.save]: the successive contents of the Event table, one per statement. *)
Definition save_steps (place : nat) (self : Event) (events : list Event)
    : list (list Event) :=
  if event_is_active self
  then [deactivate_others self events;
        store_row place self (deactivate_others self events)]
  else [store_row place self events].

Definition save (place : nat) (self : Event) (events : list Event) : list Event :=
  if event_is_active self
  then store_row place self (deactivate_others self events)
  else store_row place self events.

Definition active (events : list Event) : list Event :=
  filter (λ e, event_is_active e = true) events.

Definition with_events (db : Store) (evs : list Event) : Store :=
  {| users := users db; events := evs; ticket_types := ticket_types db;
     orders := orders db; transfers := transfers db; roles := roles db;
     Model.shifts := Model.shifts db; assignments := assignments db;
     next_order_id := next_order_id db; next_transfer_id := next_transfer_id db;
     next_assignment_id := next_assignment_id db |}.

End Events.

(** ** The pages that list tickets ([tickets], [my_tickets]) *)

Module Pages.

(** [tickets]: a redirect without an active event, else the event and the
    rows of [ticket_data]. *)
Definition tickets (db : Store) (u : User) : response + Event * list (TicketType * Z) :=
  match get_active db with
  | None => inl (Redirect Home SalesClosed)
  | Some event => inr (event, Tickets.ticket_data db event u)
  end.

(** [order__ticket_type__event=event] on a Transfer *)
Definition order__ticket_type__event (db : Store) (ev : Event) (t : Transfer) : Prop :=
  tt_event <$> (order_of db t ≫= ticket_type_of db) = Some (event_id ev).

#[export] Instance order__ticket_type__event_dec db ev t :
  Decision (order__ticket_type__event db ev t).
Proof. unfold order__ticket_type__event. apply _. Defined.

Record my_tickets_context := {
  mt_event : option Event;
  owned_tickets : list Order;
  outgoing_transfers : list Transfer;
  incoming_transfers : list Transfer }.

Definition my_tickets (db : Store) (u : User) : my_tickets_context :=
  match get_active db with
  | None =>
      {| mt_event := None; owned_tickets := []; outgoing_transfers := [];
         incoming_transfers := [] |}
  | Some event =>
      {| mt_event := Some event;
         owned_tickets :=
           filter (λ o, ticket_type__event db event o ∧ owning_user o = user_id u
                        ∧ order_state o = OrderCompleted) (orders db);
         outgoing_transfers :=
           filter (λ t, order__ticket_type__event db event t ∧ from_user t = user_id u
                        ∧ transfer_state t = TransferPending) (transfers db);
         incoming_transfers :=
           filter (λ t, order__ticket_type__event db event t
                        ∧ to_email t = user_email u
                        ∧ transfer_state t = TransferPending) (transfers db) |}
  end.

End Pages.

(** ** The admin of shifts and assignments ([core/admin.py]) *)

Module Admin.

(** [request.user] with the flag the admin classes read. *)
Record Staff := { account : User; is_superuser : bool }.

(** The rows of [Role.leads], as pairs of a role id and a user id. *)
Definition Leads := list (nat * nat).

(** [request.user.led_roles.exists()] *)
Definition leads_some_role (leads : Leads) (who : Staff) : bool :=
  bool_decide (filter (λ l, l.2 = user_id (account who)) leads ≠ []).

(** [role.leads.filter(pk=request.user.pk).exists()] for the role with this id *)
Definition leads_role (leads : Leads) (who : Staff) (role : nat) : bool :=
  bool_decide (filter (λ l, l.1 = role ∧ l.2 = user_id (account who)) leads ≠ []).

(** [ShiftAdmin.get_queryset] *)
Definition shift_queryset (leads : Leads) (db : Store) (who : Staff) : list Shift :=
  if is_superuser who then Model.shifts db
  else filter (λ s, leads_role leads who (shift_role s) = true) (Model.shifts db).

(** [ShiftAdmin.has_change_permission], [has_delete_permission] and
    [has_view_permission], which have the same body. *)
Definition shift_object_permission (leads : Leads) (who : Staff) (obj : option Shift)
    : bool :=
  if is_superuser who then true
  else match obj with
       | Some shift => leads_role leads who (shift_role shift)
       | None => leads_some_role leads who
       end.

(** [has_add_permission] and [has_module_permission] of both classes *)
Definition module_permission (leads : Leads) (who : Staff) : bool :=
  if is_superuser who then true else leads_some_role leads who.

(** [ShiftAdmin.formfield_for_foreignkey]: the roles offered for the field
    [role]. *)
Definition role_choices (leads : Leads) (db : Store) (who : Staff) : list Role :=
  if is_superuser who then roles db
  else filter (λ r, leads_role leads who (role_id r) = true) (roles db).

(** [ShiftAssignmentAdmin.get_queryset] *)
Definition assignment_queryset (leads : Leads) (db : Store) (who : Staff)
    : list ShiftAssignment :=
  if is_superuser who then assignments db
  else filter (λ a, (λ shift, leads_role leads who (shift_role shift)) <$> shift_of db a
                    = Some true) (assignments db).

(** [ShiftAssignmentAdmin.has_change_permission], [has_delete_permission]
    and [has_view_permission]; [obj.shift] follows the foreign key. *)
Definition assignment_object_permission (leads : Leads) (db : Store) (who : Staff)
    (obj : option ShiftAssignment) : option bool :=
  if is_superuser who then Some true
  else match obj with
       | Some a => (λ shift, leads_role leads who (shift_role shift)) <$> shift_of db a
       | None => Some (leads_some_role leads who)
       end.

(** [ShiftAssignmentAdmin.formfield_for_foreignkey]: the shifts offered for
    the field [shift]. *)
Definition shift_choices (leads : Leads) (db : Store) (who : Staff) : list Shift :=
  if is_superuser who then Model.shifts db
  else filter (λ s, leads_role leads who (shift_role s) = true) (Model.shifts db).

End Admin.

(** ** What a row may become *)

Module Lifecycle.

(** Writes to the Transfer table, and to the Order table. *)
Definition writes_transfers (w : write) : bool :=
  match w with
  | TransferCreate _ _ _ _ | TransferSave _ | TransferDelete _ => true
  | _ => false
  end.

Definition writes_orders (w : write) : bool :=
  match w with
  | OrderCreate _ _ _ _ | OrdersComplete _ _ | OrderSave _ => true
  | _ => false
  end.

(** [o'] is the row [o] at a later time: the same ticket, bought by the same
    user in the same checkout session, in the same status or completed from
    pending. *)
Definition later (o o' : Order) : Prop :=
  order_id o' = order_id o
  ∧ order_ticket_type o' = order_ticket_type o
  ∧ purchasing_user o' = purchasing_user o
  ∧ stripe_checkout_session_id o' = stripe_checkout_session_id o
  ∧ (order_state o' = order_state o
     ∨ (order_state o = OrderPending ∧ order_state o' = OrderCompleted)).

(** From [db] to [db'] the Order table has only moved on: the sequence has
    not gone back, every row of [db] is still there at a later time, and
    every row of [db'] is a row of [db] at a later time or has a key given
    out since and is not cancelled. *)
Definition moved_on (db db' : Store) : Prop :=
  next_order_id db ≤ next_order_id db'
  ∧ (∀ o, o ∈ orders db → ∃ o', o' ∈ orders db' ∧ later o o')
  ∧ (∀ x, x ∈ orders db' →
          (∃ o, o ∈ orders db ∧ later o x)
          ∨ (next_order_id db ≤ order_id x ∧ order_state x ≠ OrderCancelled)).

(** The pending transfers of an order. *)
Definition pending_for (db : Store) (order : nat) : list Transfer :=
  filter (λ t, transfer_order t = order ∧ transfer_state t = TransferPending)
         (transfers db).

(** No row of the Transfer table with this id is pending, and the id has
    been given out. *)
Definition settled (db : Store) (id : nat) : Prop :=
  id < next_transfer_id db
  ∧ ∀ t, t ∈ transfers db → transfer_id t = id → transfer_state t ≠ TransferPending.

(** The rows of a user for a shift. *)
Definition signups (db : Store) (shift user : nat) : list ShiftAssignment :=
  filter (λ a, assignment_shift a = shift ∧ assignment_user a = user) (assignments db).

End Lifecycle.

(** ** More of the small site *)

Module Fixtures.

Import Example.

(** A second event, about to be activated. *)
Definition social : Event :=
  {| event_id := 2; event_is_active := true; max_shifts_per_user := 0 |}.

(** Bob leads the kitchen and is no superuser. *)
Definition kitchen_leads : Admin.Leads := [(7, 2)].

Definition bob_staff : Admin.Staff := {| Admin.account := bob; Admin.is_superuser := false |}.

(** The site after alice has taken her offer to bob back. *)
Definition site_after_rescind : Store := Site.serve site (Site.RescindTransfer alice 1).

(** The site with a General ticket of bob's and one of carol's: bob now holds
    one ticket and is offered another (transfer 1). *)
Definition order3 : Order :=
  {| order_id := 3; order_ticket_type := 1; purchasing_user := 2; owning_user := 2;
     stripe_checkout_session_id := "cs_3"; stripe_payment_intent_id := Some "pi_3"%string;
     order_state := OrderCompleted |}.

Definition order4 : Order :=
  {| order_id := 4; order_ticket_type := 1; purchasing_user := 3; owning_user := 3;
     stripe_checkout_session_id := "cs_4"; stripe_payment_intent_id := Some "pi_4"%string;
     order_state := OrderCompleted |}.

Definition busy_site : Store :=
  {| users := users site; events := events site; ticket_types := ticket_types site;
     orders := [order4; order3; order2; order1];
     transfers := transfers site; roles := roles site; Model.shifts := Model.shifts site;
     assignments := assignments site;
     next_order_id := 5; next_transfer_id := next_transfer_id site;
     next_assignment_id := next_assignment_id site |}.

(** Forms that ask for one General ticket, and for one Parking ticket, with
    the quantities they hold for each ticket type. *)
Definition one_general (id : nat) : Tickets.field :=
  if decide (id = 1) then Tickets.Int 1 else Tickets.Absent.

Definition one_parking (id : nat) : Tickets.field :=
  if decide (id = 2) then Tickets.Int 1 else Tickets.Absent.

Definition general_only (t : TicketType) : Z := if decide (tt_id t = 1) then 1%Z else 0%Z.

Definition parking_only (t : TicketType) : Z := if decide (tt_id t = 2) then 1%Z else 0%Z.

(** A gateway whose calls raise. *)
Definition unreachable : Gateway :=
  {| session_create := λ _, None; session_retrieve := λ _, None |}.

(** Shifts of the kitchen that share an hour without overlapping in time:
    10:00-10:30 and 10:30-11:00; and 13:45-14:00, in the hour of [instant]. *)
Definition early : Shift :=
  {| shift_id := 5; shift_role := 7; start_time := 10 * Grid.HOUR;
     end_time := 10 * Grid.HOUR + Grid.HOUR / 2; capacity := 1 |}.

Definition late : Shift :=
  {| shift_id := 6; shift_role := 7; start_time := 10 * Grid.HOUR + Grid.HOUR / 2;
     end_time := 11 * Grid.HOUR; capacity := 1 |}.

Definition brief : Shift :=
  {| shift_id := 7; shift_role := 7; start_time := 13 * Grid.HOUR + 3 * (Grid.HOUR / 4);
     end_time := 14 * Grid.HOUR; capacity := 1 |}.

End Fixtures.

(** * Properties *)

(** ** Querysets *)

Section Queries.
Context {A : Type}.
Implicit Types (l : list A) (x : A).

Lemma first_Some (P : A → Prop) `{!∀ x, Decision (P x)} l x :
  head (filter P l) = Some x → x ∈ l ∧ P x.
Proof.
  intros Hq. apply head_Some_elem_of in Hq. apply list_elem_of_filter in Hq. tauto.
Qed.

Lemma first_None (P : A → Prop) `{!∀ x, Decision (P x)} l x :
  head (filter P l) = None → x ∈ l → ¬ P x.
Proof.
  intros Hq Hx HP. apply head_None in Hq.
  assert (x ∈ filter P l) as Hin by (apply list_elem_of_filter; done).
  rewrite Hq in Hin. by apply not_elem_of_nil in Hin.
Qed.

(** A lookup by primary key finds the row that has the key. *)
Lemma first_by_key {K} `{!EqDecision K} (key : A → K) l x :
  NoDup (key <$> l) → x ∈ l → head (filter (λ y, key y = key x) l) = Some x.
Proof.
  induction l as [|y l IH]; intros Hnd Hx; [by apply not_elem_of_nil in Hx|].
  rewrite fmap_cons in Hnd. apply NoDup_cons in Hnd as [Hy Hnd].
  rewrite filter_cons. case_decide as Hk.
  - apply elem_of_cons in Hx as [->|Hx]; [done|].
    exfalso. apply Hy. rewrite Hk. apply list_elem_of_fmap. eauto.
  - apply elem_of_cons in Hx as [->|Hx]; [done|]. by apply IH.
Qed.
End Queries.

(** ** Checkout finalization *)

Section Finalization.
Import Tickets.

Lemma complete_order_again session i1 i2 o :
  complete_order session i2 (complete_order session i1 o) = complete_order session i1 o.
Proof.
  unfold complete_order.
  destruct (decide (stripe_checkout_session_id o = session ∧ order_state o = OrderPending))
    as [H1|H1]; simpl.
  - rewrite decide_False; [done|]. by intros [_ ?].
  - by rewrite decide_False.
Qed.

(** C4.  For a session the gateway reports as paid, [checkout_success] turns
    the orders of that session that are pending, and no others, into
    completed orders carrying the session's payment intent, every other
    field as it was; afterwards no order of the session is pending.
    Running it again on the resulting store, whatever the gateway answers
    the second time, renders the same page and leaves the store as it is. *)
Theorem checkout_success_is_idempotent gw gw' db id session :
  id ≠ EmptyString →
  session_retrieve gw id = Some session →
  payment_status session = "paid"%string →
  let once := run db (writes (checkout_success gw db (Some id))) in
  response_of (checkout_success gw db (Some id)) = Render CheckoutSuccess
  ∧ Forall2 (λ o o',
       (stripe_checkout_session_id o = id ∧ order_state o = OrderPending →
        order_state o' = OrderCompleted
        ∧ stripe_payment_intent_id o' = payment_intent session
        ∧ order_id o' = order_id o
        ∧ order_ticket_type o' = order_ticket_type o
        ∧ purchasing_user o' = purchasing_user o
        ∧ owning_user o' = owning_user o
        ∧ stripe_checkout_session_id o' = id)
       ∧ (¬ (stripe_checkout_session_id o = id ∧ order_state o = OrderPending) →
          o' = o)) (orders db) (orders once)
  ∧ (∀ o', o' ∈ orders once → stripe_checkout_session_id o' = id →
           order_state o' ≠ OrderPending)
  ∧ response_of (checkout_success gw' once (Some id)) = Render CheckoutSuccess
  ∧ run once (writes (checkout_success gw' once (Some id))) = once.
Proof.
  intros Hid Hget Hpaid once.
  assert (Hw : writes (checkout_success gw db (Some id))
               = [OrdersComplete id (payment_intent session)]).
  { unfold checkout_success. destruct id; [done|]. rewrite Hget. simpl.
    by rewrite decide_True. }
  assert (Hr : ∀ g d, response_of (checkout_success g d (Some id)) = Render CheckoutSuccess).
  { intros g d. unfold checkout_success. destruct id as [|c r]; [done|].
    by destruct (session_retrieve g (String c r)). }
  subst once. rewrite Hw. split_and!; [apply Hr| | |apply Hr|]; simpl.
  - apply Forall2_fmap_r, Forall_Forall2_diag, Forall_forall. intros o _.
    simpl. unfold complete_order.
    destruct (decide (stripe_checkout_session_id o = id ∧ order_state o = OrderPending))
      as [[Hsession Hpending]|Hno].
    + split; [intros _; simpl; by rewrite Hsession|].
      intros Hnot. exfalso. by apply Hnot.
    + split; [|done]. intros Hyes. exfalso. by apply Hno.
  - intros o' (o & -> & _)%list_elem_of_fmap. unfold complete_order.
    destruct (decide (stripe_checkout_session_id o = id ∧ order_state o = OrderPending))
      as [|Hno]; [done|]. intros Hsession Hpending. by apply Hno.
  - unfold checkout_success. destruct id as [|c id]; [done|].
    destruct (session_retrieve gw' (String c id)) as [s'|]; [|done]. simpl.
    case_decide; [|done]. simpl. unfold with_orders at 1. simpl.
    rewrite <- list_fmap_compose.
    unfold with_orders. f_equal. apply list_fmap_ext. intros ? o _. simpl.
    apply complete_order_again.
Qed.
End Finalization.

(** ** Counting rows *)

Section Counting.
Context {A : Type}.
Implicit Types (l : list A) (x : A).

Lemma filter_ext_in (P Q : A → Prop) `{!∀ x, Decision (P x)} `{!∀ x, Decision (Q x)} l :
  (∀ x, x ∈ l → P x ↔ Q x) → filter P l = filter Q l.
Proof.
  induction l as [|y l IH]; intros Hext; [done|].
  rewrite !filter_cons. rewrite IH by (intros; apply Hext; by right).
  destruct (decide (P y)) as [HP|HP], (decide (Q y)) as [HQ|HQ]; try done;
    exfalso; apply (Hext y) in HP || apply (Hext y) in HQ; done || by left.
Qed.

Context {K : Type} `{!EqDecision K} (key : A → K).
Context (P : A → Prop) `{!∀ x, Decision (P x)}.

Lemma saved_key new x : key (saved key new x) = key x.
Proof. unfold saved. by case_decide. Qed.

Lemma saved_absent new l : (∀ x, x ∈ l → key x ≠ key new) → saved key new <$> l = l.
Proof.
  intros Hl. rewrite <- (list_fmap_id l) at 2. apply list_fmap_ext. intros i x Hx.
  unfold saved. rewrite decide_False; [done|]. apply Hl. by eapply list_elem_of_lookup_2.
Qed.

Lemma count_saved_le new l :
  NoDup (key <$> l) → length (filter P (saved key new <$> l)) ≤ S (length (filter P l)).
Proof.
  induction l as [|y l IH]; intros Hnd; [simpl; lia|].
  rewrite fmap_cons in Hnd. apply NoDup_cons in Hnd as [Hy Hnd].
  rewrite fmap_cons. destruct (decide (key y = key new)) as [Hk|Hk].
  - rewrite saved_absent.
    + rewrite !filter_cons. repeat case_decide; simpl; lia.
    + intros x Hx Hkx. apply Hy. rewrite Hk, <- Hkx. apply list_elem_of_fmap; eauto.
  - unfold saved at 1. rewrite decide_False by done.
    specialize (IH Hnd). rewrite !filter_cons. case_decide; simpl; lia.
Qed.

Lemma count_saved_out new l :
  ¬ P new → length (filter P (saved key new <$> l)) ≤ length (filter P l).
Proof.
  intros Hnew. induction l as [|y l IH]; [done|].
  rewrite fmap_cons. unfold saved at 1. case_decide.
  - rewrite filter_cons_False by done. rewrite filter_cons. case_decide; simpl; lia.
  - rewrite !filter_cons. case_decide; simpl; lia.
Qed.
End Counting.

(** ** The per-user quota across requests *)

Section Quota.
Import Tickets Transfers Site.

Lemma apply_write_ticket_types db w : ticket_types (apply_write db w) = ticket_types db.
Proof. by destruct w. Qed.

Lemma apply_write_shifts db w : Model.shifts (apply_write db w) = Model.shifts db.
Proof. by destruct w. Qed.

Lemma run_cons db w ws : run db (w :: ws) = run (apply_write db w) ws.
Proof. done. Qed.

Lemma run_ticket_types db ws : ticket_types (run db ws) = ticket_types db.
Proof.
  revert db. induction ws as [|w ws IH]; intros db; [done|].
  simpl. unfold run in IH. by rewrite IH, apply_write_ticket_types.
Qed.

Lemma well_keyed_apply_write db w : well_keyed db → well_keyed (apply_write db w).
Proof.
  intros (Htt & Hos & Hnext & Hsh).
  unfold well_keyed. rewrite apply_write_ticket_types, apply_write_shifts.
  split_and!; try done; destruct w; simpl; try done.
  - apply NoDup_cons. split; [|done].
    intros (o & Hid & Ho)%list_elem_of_fmap. apply Hnext in Ho. lia.
  - rewrite <- list_fmap_compose. erewrite list_fmap_ext; [exact Hos|].
    intros i o _. simpl. unfold complete_order. by case_decide.
  - rewrite <- list_fmap_compose. erewrite list_fmap_ext; [exact Hos|].
    intros i x _. simpl. apply saved_key.
  - intros x [->|Hx]%elem_of_cons; simpl; [lia|]. apply Hnext in Hx. lia.
  - intros x (y & -> & Hy)%list_elem_of_fmap. apply Hnext in Hy.
    unfold complete_order. by case_decide.
  - intros x (y & -> & Hy)%list_elem_of_fmap. apply Hnext in Hy.
    by rewrite saved_key.
Qed.

Lemma well_keyed_run db ws : well_keyed db → well_keyed (run db ws).
Proof.
  revert db. induction ws as [|w ws IH]; intros db Hk; [done|].
  apply IH. by apply well_keyed_apply_write.
Qed.

(** Writes that leave the Order table alone leave every count alone. *)
Lemma held_same_orders db db' ty u :
  orders db' = orders db → held db' ty u = held db ty u.
Proof. unfold held. by intros ->. Qed.

Lemma held_create db ty buyer owner session ty' u' :
  length (held (apply_write db (OrderCreate ty buyer owner session)) ty' u')
  = (if decide (ty = ty' ∧ owner = u') then 1 else 0) + length (held db ty' u').
Proof.
  unfold held. simpl. rewrite filter_cons. simpl.
  destruct (decide (ty = ty' ∧ owner = u')) as [[-> ->]|Hne].
  - rewrite decide_True; [done|]. unfold counts_towards_limit. simpl. tauto.
  - rewrite decide_False; [done|]. tauto.
Qed.

Lemma held_create_all (tickets : list TicketType) db u session ty' u' :
  length (held (run db ((λ t, OrderCreate (tt_id t) (user_id u) (user_id u) session)
                        <$> tickets)) ty' u')
  = (if decide (user_id u = u') then requested_counts tickets ty' else 0)
    + length (held db ty' u').
Proof.
  revert db. induction tickets as [|t tickets IH]; intros db.
  - simpl. by case_decide.
  - rewrite fmap_cons, run_cons, IH, held_create.
    unfold requested_counts. rewrite filter_cons.
    repeat case_decide; simpl; try lia; naive_solver.
Qed.

Lemma held_complete db session intent ty u :
  held (apply_write db (OrdersComplete session intent)) ty u
  = complete_order session intent <$> held db ty u.
Proof.
  unfold held. simpl. induction (orders db) as [|o os IH]; [done|].
  rewrite fmap_cons, !filter_cons, IH.
  assert (Hiff : order_ticket_type (complete_order session intent o) = ty
                 ∧ owning_user (complete_order session intent o) = u
                 ∧ counts_towards_limit (complete_order session intent o)
                 ↔ order_ticket_type o = ty ∧ owning_user o = u ∧ counts_towards_limit o).
  { unfold complete_order, counts_towards_limit. case_decide as Hc; [|done].
    simpl. destruct Hc as [_ ->]. tauto. }
  destruct (decide (order_ticket_type o = ty ∧ owning_user o = u ∧ counts_towards_limit o)).
  - rewrite decide_True by tauto. done.
  - rewrite decide_False by tauto. done.
Qed.
End Quota.
Section QuotaViews.
Import Tickets Transfers Site.

Lemma key_inj {A K} `{!EqDecision K} (key : A → K) (l : list A) x y :
  NoDup (key <$> l) → x ∈ l → y ∈ l → key x = key y → x = y.
Proof.
  intros Hnd Hx Hy Hk.
  pose proof (first_by_key key l x Hnd Hx) as H1.
  pose proof (first_by_key key l y Hnd Hy) as H2.
  rewrite <- Hk in H2. congruence.
Qed.

Lemma selection_tickets tts post items tickets :
  selection tts post = Some (items, tickets) → ∀ t, t ∈ tickets → t ∈ tts.
Proof.
  revert items tickets. induction tts as [|x tts IH]; intros items tickets Hsel t Ht.
  - simpl in Hsel. injection Hsel as <- <-. by apply not_elem_of_nil in Ht.
  - simpl in Hsel. destruct (int_of_field (post (tt_id x))) as [q|]; [|done].
    destruct (selection tts post) as [[items' tickets']|]; [|done].
    case_decide; injection Hsel as <- <-.
    + apply elem_of_app in Ht as [Ht|Ht].
      * apply elem_of_replicate in Ht as [-> _]. by left.
      * right. by eapply IH.
    + right. by eapply IH.
Qed.

Lemma existing_counts_held db ev u t :
  NoDup (tt_id <$> ticket_types db) → t ∈ ticket_types db → tt_event t = event_id ev →
  existing_counts db ev u (tt_id t) = length (held db (tt_id t) (user_id u)).
Proof.
  intros Hnd Ht Hev. unfold existing_counts, existing_orders, held.
  rewrite list_filter_filter. f_equal. apply filter_ext_in. intros o _.
  split; [tauto|]. intros (Hty & ? & ?). split_and!; try done.
  unfold ticket_type__event, ticket_type_of. rewrite Hty.
  rewrite (first_by_key tt_id _ t) by done. simpl. by f_equal.
Qed.

Lemma quota_create gw db u post u' t :
  well_keyed db → t ∈ ticket_types db → within_quota db u' t →
  within_quota (serve db (CreateCheckoutSession gw u post)) u' t.
Proof.
  intros (Hnd & _) Ht Hq. unfold serve. simpl. unfold create_checkout_session.
  destruct (get_active db) as [ev|]; [|done].
  destruct (selection (event_ticket_types db ev) post) as [[items tickets]|] eqn:Hsel; [|done].
  destruct items as [|item items]; [done|].
  destruct (over_limit db ev u tickets) as [over|] eqn:Hover; [done|].
  destruct (session_create gw (item :: items)) as [session|]; [|done].
  simpl. unfold within_quota in *. rewrite held_create_all.
  case_decide as Hu; [subst u'|done].
  destruct (decide (tt_event t = event_id ev)) as [Hev|Hev].
  - rewrite <- existing_counts_held with (ev := ev) by done.
    assert (t ∈ event_ticket_types db ev) as Hin by (by apply list_elem_of_filter).
    eapply first_None in Hover; [|exact Hin]. simpl in Hover. lia.
  - assert (requested_counts tickets (tt_id t) = 0) as ->; [|done].
    unfold requested_counts. apply length_zero_iff_nil.
    apply elem_of_nil_inv. intros x [Hid Hx]%list_elem_of_filter.
    eapply selection_tickets in Hx; [|exact Hsel].
    apply list_elem_of_filter in Hx as [Hxe Hx].
    apply Hev. rewrite <- Hxe. f_equal. symmetry.
    by apply (key_inj tt_id (ticket_types db)).
Qed.

Lemma quota_accept db u id u' t :
  well_keyed db → t ∈ ticket_types db → within_quota db u' t →
  within_quota (serve db (AcceptTransfer u id)) u' t.
Proof.
  intros (Hnd & Hos & _) Ht Hq. unfold serve. simpl. unfold accept_transfer.
  destruct (incoming_transfer db u id) as [transfer|]; [|done].
  destruct (order_of db transfer) as [order|]; [|done].
  destruct (ticket_type_of db order) as [ticket_type|] eqn:Htt; [|done].
  case_decide as Hlim; [done|]. simpl. unfold within_quota in *.
  unfold held in *. simpl.
  set (P := λ o : Order, order_ticket_type o = tt_id t ∧ owning_user o = u'
                         ∧ counts_towards_limit o).
  destruct (decide (P (reassigned order u))) as [HP|HP].
  - destruct HP as (Hty & Hu' & _). simpl in Hty, Hu'. subst u'.
    apply first_Some in Htt as [Hin Hid].
    assert (ticket_type = t) as ->
      by (apply (key_inj tt_id (ticket_types db)); [done..|congruence]).
    etrans; [apply (count_saved_le order_id P); done|].
    rewrite Hty in Hlim. fold P in Hlim. lia.
  - etrans; [apply (count_saved_out order_id P); done|]. done.
Qed.

Lemma quota_serve db r u' t :
  well_keyed db → t ∈ ticket_types db → within_quota db u' t →
  within_quota (serve db r) u' t.
Proof.
  intros Hk Ht Hq. destruct r as [gw u post|gw sid|u o e|u i|u i|u i|u i|u i].
  - by apply quota_create.
  - unfold serve. simpl. unfold checkout_success.
    destruct sid as [[|c sid]|]; try done.
    destruct (session_retrieve gw _); [|done]. cbn [writes]. case_decide; [|done].
    unfold within_quota. change (run db [?w]) with (apply_write db w).
    by rewrite held_complete, length_fmap.
  - unfold serve. simpl. unfold transfer_ticket.
    repeat (case_match; try done).
  - by apply quota_accept.
  - unfold serve. simpl. unfold reject_transfer. by case_match.
  - unfold serve. simpl. unfold rescind_transfer. by case_match.
  - unfold serve. simpl. unfold Shifts.shift_signup.
    repeat (case_match; try done).
  - unfold serve. simpl. unfold Shifts.shift_cancel.
    repeat (case_match; try done).
Qed.

Lemma well_keyed_serve db r : well_keyed db → well_keyed (serve db r).
Proof. apply well_keyed_run. Qed.
Lemma serve_ticket_types db r : ticket_types (serve db r) = ticket_types db.
Proof. apply run_ticket_types. Qed.

(** C1.  For every user and every ticket type of the store: from a store
    with unique primary keys in which the user's pending and completed
    orders of that type number at most [max_per_user], any sequence of
    requests (checkout-session creation, checkout finalization, transfer
    initiate, accept, reject, rescind, and the shift views), each run to its
    end before the next, leaves that number at most [max_per_user]. *)
Theorem quota_kept_by_every_sequence db rs u t :
  well_keyed db → t ∈ ticket_types db → within_quota db u t →
  within_quota (serve_all db rs) u t.
Proof.
  revert db. induction rs as [|r rs IH]; intros db Hk Ht Hq; [done|].
  apply IH.
  - by apply well_keyed_serve.
  - by rewrite serve_ticket_types.
  - by apply quota_serve.
Qed.
End QuotaViews.

(** ** Accepting a transfer *)

Section Accept.
Import Transfers.

Lemma first_saved {A K} `{!EqDecision K} (key : A → K) (new : A) (k : K) l x :
  key new = k →
  head (filter (λ y, key y = k) l) = Some x →
  head (filter (λ y, key y = k) (saved key new <$> l)) = Some new.
Proof.
  intros Hk. induction l as [|y l IH]; [done|].
  subst k. rewrite fmap_cons. destruct (decide (key y = key new)) as [Hy|Hy].
  - assert (saved key new y = new) as -> by (unfold saved; by rewrite decide_True).
    intros _. by rewrite filter_cons_True.
  - assert (saved key new y = y) as -> by (unfold saved; by rewrite decide_False).
    by rewrite !filter_cons_False.
Qed.

(** C2, as the code has it.  For a pending transfer addressed to the acting
    user: when the user already holds [max_per_user] or more pending and
    completed orders of the ticket type, counted in the store the request
    reads, nothing is written; otherwise the order row is saved with the
    user as owner and then the transfer row is saved as accepted with the
    user as [to_user], as two writes.  The store after the first write has
    the order reassigned and the transfer still pending; the store after
    the second has both.  A transfer is accepted only on that path. *)
Theorem accept_transfer_checks_then_writes_twice db u id transfer order ticket_type :
  incoming_transfer db u id = Some transfer →
  order_of db transfer = Some order →
  ticket_type_of db order = Some ticket_type →
  let out := accept_transfer db u id in
  let existing := length (held db (order_ticket_type order) (user_id u)) in
  (max_per_user ticket_type ≤ existing →
     response_of out = Redirect MyTickets YouAtLimit ∧ writes out = [])
  ∧ (existing < max_per_user ticket_type →
     response_of out = Redirect MyTickets TransferAccepted_
     ∧ writes out = [OrderSave (reassigned order u); TransferSave (accepted transfer u)]
     ∧ ∃ between after,
         states db (writes out) = [between; after]
         ∧ after = run db (writes out)
         ∧ order_of between transfer = Some (reassigned order u)
         ∧ incoming_transfer between u id = Some transfer
         ∧ order_of after (accepted transfer u) = Some (reassigned order u)
         ∧ head (filter (λ t, transfer_id t = id) (transfers after))
           = Some (accepted transfer u)
         ∧ owning_user (reassigned order u) = user_id u
         ∧ to_user (accepted transfer u) = Some (user_id u)
         ∧ transfer_state (accepted transfer u) = TransferAccepted)
  ∧ (response_of out = Redirect MyTickets TransferAccepted_ →
     existing < max_per_user ticket_type).
Proof.
  intros Htr Hor Htt out existing. subst out existing.
  unfold accept_transfer. rewrite Htr, Hor, Htt.
  destruct (decide (max_per_user ticket_type
                    ≤ length (held db (order_ticket_type order) (user_id u)))) as [Hle|Hlt].
  - split_and!; [by intros|intros; lia|simpl; by intros [=]].
  - split_and!; [intros; lia| |intros; lia].
    intros _. split_and!; [done..|]. eexists _, _. split_and!; try done.
    + unfold order_of. simpl. apply first_Some in Hor as Hoid. destruct Hoid as [_ Hoid].
      by eapply (first_saved order_id).
    + unfold order_of. simpl. apply first_Some in Hor as Hoid. destruct Hoid as [_ Hoid].
      by eapply (first_saved order_id).
    + simpl. apply first_Some in Htr as Hid. destruct Hid as (Hin & Hid & _).
      destruct (head (filter (λ t, transfer_id t = id) (transfers db))) as [y|] eqn:Hf.
      * by eapply (first_saved transfer_id).
      * exfalso. by eapply first_None in Hf.
Qed.
End Accept.

(** ** Creating a checkout session *)

Section Checkout.
Import Tickets Transfers.

(** What [selection] returns, ticket type by ticket type. *)
Lemma selection_requested tts post items tickets t q :
  NoDup (tt_id <$> tts) →
  selection tts post = Some (items, tickets) →
  t ∈ tts → int_of_field (post (tt_id t)) = Some q →
  requested_counts tickets (tt_id t) = Z.to_nat q.
Proof.
  revert items tickets. induction tts as [|x tts IH]; intros items tickets Hnd Hsel Ht Hq.
  { by apply not_elem_of_nil in Ht. }
  rewrite fmap_cons in Hnd. apply NoDup_cons in Hnd as [Hx Hnd].
  simpl in Hsel. destruct (int_of_field (post (tt_id x))) as [qx|] eqn:Hqx; [|done].
  destruct (selection tts post) as [[items' tickets']|] eqn:Hrest; [|done].
  assert (Hfresh : tt_id t = tt_id x →
                   requested_counts tickets' (tt_id t) = 0%nat).
  { intros Hid. unfold requested_counts. apply length_zero_iff_nil, elem_of_nil_inv.
    intros y [Hy Hin]%list_elem_of_filter. apply Hx.
    eapply selection_tickets in Hin; [|exact Hrest].
    rewrite <- Hid, <- Hy. apply list_elem_of_fmap. eauto. }
  assert (Hrep : ∀ n, length (filter (λ y, tt_id y = tt_id t) (replicate n x))
                      = if decide (tt_id x = tt_id t) then n else 0%nat).
  { intros n. destruct (decide (tt_id x = tt_id t)) as [Heq|Hne].
    - induction n as [|n IHn]; [done|].
      change (replicate (S n) x) with (x :: replicate n x).
      rewrite filter_cons_True by done. simpl. by rewrite IHn.
    - induction n as [|n IHn]; [done|].
      change (replicate (S n) x) with (x :: replicate n x).
      by rewrite filter_cons_False. }
  apply elem_of_cons in Ht as [->|Ht].
  - assert (q = qx) as -> by congruence.
    destruct (decide (0 < qx)%Z) as [Hpos|Hpos]; injection Hsel as <- <-.
    + unfold requested_counts. rewrite filter_app, length_app, Hrep.
      rewrite decide_True by done. fold (requested_counts tickets' (tt_id x)).
      rewrite Hfresh by done. lia.
    + rewrite Hfresh by done. lia.
  - assert (tt_id x ≠ tt_id t) as Hne.
    { intros Hid. apply Hx. rewrite Hid. apply list_elem_of_fmap. eauto. }
    destruct (decide (0 < qx)%Z) as [Hpos|Hpos]; injection Hsel as <- <-.
    + unfold requested_counts. rewrite filter_app, length_app, Hrep.
      rewrite decide_False by done. simpl. by eapply IH.
    + by eapply IH.
Qed.

(** The rows a run of [Order.objects.create] adds. *)
Lemma run_creates (tickets : list TicketType) db u session :
  ∃ created,
    orders (run db ((λ t, OrderCreate (tt_id t) (user_id u) (user_id u) session)
                    <$> tickets)) = created ++ orders db
    ∧ Forall (λ o, order_state o = OrderPending
                   ∧ stripe_checkout_session_id o = session
                   ∧ purchasing_user o = user_id u ∧ owning_user o = user_id u) created
    ∧ ∀ ty, length (filter (λ o, order_ticket_type o = ty) created)
            = requested_counts tickets ty.
Proof.
  revert db. induction tickets as [|t tickets IH]; intros db.
  - exists []. by split_and!.
  - rewrite fmap_cons, run_cons.
    destruct (IH (apply_write db (OrderCreate (tt_id t) (user_id u) (user_id u) session)))
      as (created & Hos & Hall & Hcount).
    eexists (created ++ [_]). split_and!.
    + rewrite Hos. simpl. by rewrite <- app_assoc.
    + apply Forall_app. split; [done|]. by apply Forall_singleton.
    + intros ty. rewrite filter_app, length_app, Hcount.
      unfold requested_counts. rewrite filter_cons, filter_cons. simpl.
      repeat case_decide; simpl; try lia; congruence.
Qed.

(** [selection] returns when every field it reads parses, and returns no
    line item exactly when no field holds a positive quantity. *)
Lemma selection_returns tts post :
  (∀ t, t ∈ tts → ∃ q, int_of_field (post (tt_id t)) = Some q) →
  ∃ items tickets, selection tts post = Some (items, tickets).
Proof.
  induction tts as [|x tts IH]; intros Hparse; [by eexists _, _|].
  destruct IH as (items & tickets & Hrest); [intros t Ht; apply Hparse; by right|].
  destruct (Hparse x) as [q Hq]; [by left|].
  simpl. rewrite Hq, Hrest. case_decide; by eexists _, _.
Qed.

Lemma selection_no_items tts post tickets :
  selection tts post = Some ([], tickets) →
  ∀ t q, t ∈ tts → int_of_field (post (tt_id t)) = Some q → (q ≤ 0)%Z.
Proof.
  revert tickets. induction tts as [|x tts IH]; intros tickets Hsel t q Ht Hq.
  { by apply elem_of_nil in Ht. }
  simpl in Hsel. destruct (int_of_field (post (tt_id x))) as [qx|] eqn:Hqx; [|done].
  destruct (selection tts post) as [[items' tickets']|] eqn:Hrest; [|done].
  destruct (decide (0 < qx)%Z) as [Hpos|Hpos]; [done|]. injection Hsel as -> <-.
  apply elem_of_cons in Ht as [->|Ht]; [|by eapply IH].
  assert (q = qx) as -> by congruence. lia.
Qed.

(** C3.  With an active event, form fields that parse, and at least one
    positive quantity.  The user's orders of a ticket type that are pending
    or completed are counted in the Order table.  If for some ticket type of
    the event that count plus the quantity asked for is above
    [max_per_user], the gateway is not called, nothing is written, and the
    message carries the count and [max(0, max_per_user - count)] for such a
    type.  Otherwise the gateway is called once; when the call raises,
    nothing is written; when it returns a session, the Order table gains, for
    each ticket type of the event, as many rows as were asked for, all
    pending, owned and bought by the user, with that session's id, and no
    other row. *)
Theorem create_checkout_session_all_or_nothing gw db u post ev quantity :
  NoDup (tt_id <$> ticket_types db) →
  get_active db = Some ev →
  (∀ t, t ∈ ticket_types db → tt_event t = event_id ev →
        int_of_field (post (tt_id t)) = Some (quantity t)) →
  (∃ t, t ∈ ticket_types db ∧ tt_event t = event_id ev ∧ (0 < quantity t)%Z) →
  let out := create_checkout_session gw db u post in
  let of_event t := t ∈ ticket_types db ∧ tt_event t = event_id ev in
  let existing t :=
    length (filter (λ o, order_ticket_type o = tt_id t ∧ owning_user o = user_id u
                         ∧ (order_state o = OrderCompleted ∨ order_state o = OrderPending))
                   (orders db)) in
  let requested t := Z.to_nat (quantity t) in
  ((∃ t, of_event t ∧ max_per_user t < existing t + requested t) →
     gateway_calls out = [] ∧ writes out = []
     ∧ ∃ t, of_event t
            ∧ max_per_user t < existing t + requested t
            ∧ response_of out
              = Redirect TicketsPage
                  (CanOnlyHave (max_per_user t) (lower (tt_label t)) (existing t)
                     (Z.max 0 (Z.of_nat (max_per_user t) - Z.of_nat (existing t)))))
  ∧ ((∀ t, of_event t → existing t + requested t ≤ max_per_user t) →
     ∃ items,
       gateway_calls out = [SessionCreate items (user_email u) (user_id u)]
       ∧ (session_create gw items = None → writes out = [])
       ∧ ∀ session, session_create gw items = Some session →
           response_of out = RedirectUrl (session_url session)
           ∧ ∃ created,
               orders (run db (writes out)) = created ++ orders db
               ∧ Forall (λ o, order_state o = OrderPending
                              ∧ stripe_checkout_session_id o = session_id session
                              ∧ purchasing_user o = user_id u
                              ∧ owning_user o = user_id u
                              ∧ ∃ t, of_event t ∧ order_ticket_type o = tt_id t) created
               ∧ ∀ t, of_event t →
                   length (filter (λ o, order_ticket_type o = tt_id t) created)
                   = requested t).
Proof.
  intros Hnd Hev Hparse (asked & Hasked & Haskedev & Hpos) out of_event existing requested.
  assert (Hin : ∀ t, t ∈ event_ticket_types db ev ↔ of_event t).
  { intros t. unfold event_ticket_types, of_event. rewrite list_elem_of_filter. tauto. }
  assert (Hnd' : NoDup (tt_id <$> event_ticket_types db ev)).
  { unfold event_ticket_types. clear -Hnd.
    induction (ticket_types db) as [|x l IH]; [constructor|].
    rewrite fmap_cons in Hnd. apply NoDup_cons in Hnd as [Hx Hnd].
    rewrite filter_cons. case_decide; [|by apply IH].
    rewrite fmap_cons. apply NoDup_cons. split; [|by apply IH].
    intros (y & Hy & [_ Hin]%list_elem_of_filter)%list_elem_of_fmap.
    apply Hx. rewrite Hy. apply list_elem_of_fmap. eauto. }
  destruct (selection_returns (event_ticket_types db ev) post) as (items & tickets & Hsel).
  { intros t [Ht Hte]%Hin. eauto. }
  assert (Hexisting : ∀ t, of_event t → existing_counts db ev u (tt_id t) = existing t).
  { intros t [Ht Hte]. by rewrite existing_counts_held. }
  assert (Hrequested : ∀ t, of_event t → requested_counts tickets (tt_id t) = requested t).
  { intros t Ht. eapply selection_requested; [done|exact Hsel|by apply Hin|].
    destruct Ht. by apply Hparse. }
  subst out. unfold create_checkout_session. rewrite Hev, Hsel.
  destruct items as [|item items].
  { exfalso.
    assert (quantity asked ≤ 0)%Z; [|lia].
    eapply (selection_no_items _ _ _ Hsel asked); [by apply Hin|by apply Hparse]. }
  split.
  - intros (t & Ht & Hover).
    destruct (over_limit db ev u tickets) as [t'|] eqn:Hlim.
    + apply first_Some in Hlim as [Hin'%Hin Hov]. simpl in Hov.
      rewrite Hexisting, Hrequested in Hov by done.
      split_and!; [done..|]. exists t'. split_and!; [done..|].
      simpl. unfold remaining. by rewrite Hexisting.
    + eapply (first_None _ _ t) in Hlim; [|by apply Hin]. simpl in Hlim.
      rewrite Hexisting, Hrequested in Hlim by done. lia.
  - intros Hfit.
    destruct (over_limit db ev u tickets) as [t'|] eqn:Hlim.
    { apply first_Some in Hlim as [Hin'%Hin Hov]. simpl in Hov.
      rewrite Hexisting, Hrequested in Hov by done. apply Hfit in Hin'. lia. }
    exists (item :: items). split_and!.
    + by destruct (session_create gw (item :: items)).
    + by intros ->.
    + intros session ->. simpl. split; [done|].
      destruct (run_creates tickets db u (session_id session))
        as (created & Hos & Hall & Hcount).
      exists created. split_and!; [done| |].
      * apply Forall_forall. intros o Ho.
        rewrite Forall_forall in Hall. destruct (Hall o Ho) as (? & ? & ? & ?).
        split_and!; [done..|].
        assert (filter (λ t, tt_id t = order_ticket_type o) tickets ≠ []) as Hsome.
        { intros Hnone. specialize (Hcount (order_ticket_type o)).
          unfold requested_counts in Hcount. rewrite Hnone in Hcount.
          apply length_zero_iff_nil in Hcount.
          assert (o ∈ filter (λ o', order_ticket_type o' = order_ticket_type o) created)
            as Hmem by (by apply list_elem_of_filter).
          rewrite Hcount in Hmem. by apply elem_of_nil in Hmem. }
        destruct (filter (λ t, tt_id t = order_ticket_type o) tickets) as [|t l] eqn:Hf;
          [done|].
        assert (t ∈ filter (λ t, tt_id t = order_ticket_type o) tickets) as Ht
          by (rewrite Hf; left).
        apply list_elem_of_filter in Ht as [Hid Ht].
        exists t. split; [|done]. apply Hin. by eapply selection_tickets.
      * intros t Ht. by rewrite Hcount, Hrequested.
Qed.
End Checkout.

Section Quantities.
Import Tickets.

Lemma selection_same tts post post' :
  (∀ t, t ∈ tts → post (tt_id t) = post' (tt_id t)
                  ∨ (nothing_requested (post (tt_id t))
                     ∧ nothing_requested (post' (tt_id t)))) →
  selection tts post = selection tts post'.
Proof.
  induction tts as [|x tts IH]; intros Hsame; [done|].
  simpl. rewrite IH by (intros; apply Hsame; by right).
  destruct (Hsame x) as [->|[Hn Hn']]; [by left|done|].
  destruct Hn as [->|(q & -> & Hq)], Hn' as [->|(q' & -> & Hq')]; simpl;
    destruct (selection tts post') as [[items tickets]|]; try done;
    repeat case_decide; try done; lia.
Qed.

Lemma selection_nothing tts post :
  (∀ t, t ∈ tts → nothing_requested (post (tt_id t))) →
  selection tts post = Some ([], []).
Proof.
  induction tts as [|x tts IH]; intros Hnone; [done|].
  simpl. rewrite IH by (intros; apply Hnone; by right).
  destruct (Hnone x) as [->|(q & -> & Hq)]; [by left|done|].
  simpl. by rewrite decide_False by lia.
Qed.

(** C10.  Only the [quantity_<id>] fields of the active event's ticket types
    are read, and a field that is missing or not positive counts as zero:
    two forms that, on each ticket type of the active event, either agree
    or both request nothing get the same outcome, whatever their other
    fields hold.  When every such field requests nothing, the request is
    answered with 'Please select at least one ticket.', the gateway is not
    called and nothing is written. *)
Theorem create_checkout_session_reads_event_quantities gw db u post :
  (∀ post',
     (∀ ev t, get_active db = Some ev → t ∈ event_ticket_types db ev →
              post (tt_id t) = post' (tt_id t)
              ∨ (nothing_requested (post (tt_id t))
                 ∧ nothing_requested (post' (tt_id t)))) →
     create_checkout_session gw db u post = create_checkout_session gw db u post')
  ∧ (∀ ev, get_active db = Some ev →
       (∀ t, t ∈ event_ticket_types db ev → nothing_requested (post (tt_id t))) →
       response_of (create_checkout_session gw db u post)
       = Redirect TicketsPage SelectAtLeastOne
       ∧ gateway_calls (create_checkout_session gw db u post) = []
       ∧ writes (create_checkout_session gw db u post) = []).
Proof.
  split.
  - intros post' Hsame. unfold create_checkout_session.
    destruct (get_active db) as [ev|]; [|done].
    by rewrite (selection_same _ post post') by (intros; by apply (Hsame ev)).
  - intros ev Hev Hnone. unfold create_checkout_session.
    by rewrite Hev, selection_nothing.
Qed.
End Quantities.

(** ** Initiating a transfer *)

Section Initiate.
Import Transfers.

(** With unique order ids, [order__ticket_type=...] on a transfer holds
    exactly when the Order table has a row with the transfer's order id and
    that ticket type. *)
Lemma order__ticket_type_row db t ticket_type :
  NoDup (order_id <$> orders db) →
  order_ticket_type <$> order_of db t = Some ticket_type
  ↔ Exists (λ o, order_id o = transfer_order t ∧ order_ticket_type o = ticket_type)
           (orders db).
Proof.
  intros Hnd. rewrite Exists_exists. unfold order_of. split.
  - destruct (head (filter _ (orders db))) as [o|] eqn:Ho; [|done].
    intros [= Hty]. apply first_Some in Ho as [Hin Hid]. by exists o.
  - intros (o & Hin & Hid & Hty). rewrite <- Hid.
    rewrite (first_by_key order_id _ o) by done. simpl. by rewrite Hty.
Qed.

(** C8.  A transfer row is written only after the recipient check.  The
    recipient's pending and completed orders of the order's ticket type are
    counted in the Order table, the pending transfers addressed to the email
    for an order of that ticket type in the Transfer table (order ids being
    unique).  Every write of [transfer_ticket] is the creation of a pending
    transfer to the resolved recipient, and is made only when the two counts
    together are below [max_per_user].  When the view reaches the check (the
    order is the user's and completed, has no pending transfer, the email is
    not empty, is not the user's own and belongs to an account), a sum at or
    above [max_per_user] is answered with the limit message, no write is
    made and the Transfer table stays as it is; otherwise one pending
    transfer recording the recipient is created. *)
Theorem transfer_ticket_checks_recipient_first db u id posted_email :
  NoDup (order_id <$> orders db) →
  let out := transfer_ticket db u id posted_email in
  let email := lower (strip (default EmptyString posted_email)) in
  let existing (ticket_type recipient : nat) :=
    length (filter (λ o, order_ticket_type o = ticket_type ∧ owning_user o = recipient
                         ∧ (order_state o = OrderCompleted ∨ order_state o = OrderPending))
                   (orders db)) in
  let pending (ticket_type : nat) :=
    length (filter (λ t, to_email t = email ∧ transfer_state t = TransferPending
                         ∧ Exists (λ o, order_id o = transfer_order t
                                        ∧ order_ticket_type o = ticket_type) (orders db))
                   (transfers db)) in
  (∀ w, w ∈ writes out →
     ∃ order recipient ticket_type,
       head (filter (λ x, user_email x = email) (users db)) = Some recipient
       ∧ order ∈ orders db ∧ order_id order = id
       ∧ ticket_type_of db order = Some ticket_type
       ∧ existing (order_ticket_type order) (user_id recipient)
         + pending (order_ticket_type order) < max_per_user ticket_type
       ∧ w = TransferCreate id (user_id u) email (user_id recipient))
  ∧ (∀ order recipient ticket_type,
       head (filter (λ o, order_id o = id ∧ owning_user o = user_id u
                          ∧ order_state o = OrderCompleted) (orders db)) = Some order →
       filter (λ t, transfer_order t = order_id order
                    ∧ transfer_state t = TransferPending) (transfers db) = [] →
       email ≠ EmptyString → email ≠ user_email u →
       head (filter (λ x, user_email x = email) (users db)) = Some recipient →
       ticket_type_of db order = Some ticket_type →
       (max_per_user ticket_type
        ≤ existing (order_ticket_type order) (user_id recipient)
          + pending (order_ticket_type order) →
          response_of out = Redirect MyTickets RecipientAtLimit ∧ writes out = []
          ∧ transfers (run db (writes out)) = transfers db)
       ∧ (existing (order_ticket_type order) (user_id recipient)
          + pending (order_ticket_type order) < max_per_user ticket_type →
          response_of out = Redirect MyTickets (TransferInitiated email)
          ∧ writes out = [TransferCreate id (user_id u) email (user_id recipient)]
          ∧ transfers (run db (writes out))
            = {| transfer_id := next_transfer_id db; transfer_order := id;
                 from_user := user_id u; to_email := email;
                 to_user := Some (user_id recipient);
                 transfer_state := TransferPending |} :: transfers db)).
Proof.
  intros Hnd out email existing pending.
  assert (Hexisting : ∀ ty r, length (held db ty r) = existing ty r) by done.
  assert (Hpending : ∀ ty, length (incoming db email ty) = pending ty).
  { intros ty. unfold incoming, pending. f_equal. apply filter_ext_in. intros t _.
    rewrite order__ticket_type_row by done. tauto. }
  subst out. unfold transfer_ticket. fold email. split.
  - intros w.
    destruct (head (filter _ (orders db))) as [order|] eqn:Hor; [|by (simpl; intros ?%elem_of_nil)].
    case_decide; [by (simpl; intros ?%elem_of_nil)|].
    case_decide; [by (simpl; intros ?%elem_of_nil)|].
    case_decide; [by (simpl; intros ?%elem_of_nil)|].
    destruct (head (filter _ (users db))) as [recipient|] eqn:Hre; [|by (simpl; intros ?%elem_of_nil)].
    destruct (ticket_type_of db order) as [ticket_type|] eqn:Htt; [|by (simpl; intros ?%elem_of_nil)].
    rewrite Hexisting, Hpending.
    case_decide; [by (simpl; intros ?%elem_of_nil)|].
    intros ->%list_elem_of_singleton. apply first_Some in Hor as (Hin & Hid & _).
    exists order, recipient, ticket_type. split_and!; try done; [lia|by rewrite Hid].
  - intros order recipient ticket_type Hor Hnone Hne Hself Hre Htt.
    apply first_Some in Hor as Hid. destruct Hid as (_ & Hid & _).
    rewrite Hor. rewrite decide_False by (rewrite Hnone; intros Hx; by apply Hx).
    rewrite decide_False by done. rewrite decide_False by done.
    rewrite Hre, Htt, Hexisting, Hpending. split.
    + intros Hle. by rewrite decide_True.
    + intros Hlt. rewrite decide_False by lia. simpl. by rewrite Hid.
Qed.
End Initiate.

(** ** Shift signup *)

Section Signup.
Import Shifts Site.

(** C5, as the code has it.  [shift_signup] checks, in this order: an active
    event exists; the user holds a completed order of the event; the
    per-user shift cap, when it is not zero; the shift id resolves to a
    shift of the event (else 404); the user is not yet signed up for the
    shift; the shift has a spot left.  The response is that of the first
    check in this order that fails, and a failed check writes nothing. *)
Theorem shift_signup_reports_first_failed_check db u id :
  let out := shift_signup db u id in
  (get_active db = None →
     response_of out = Redirect Home NoActiveEvent ∧ writes out = [])
  ∧ ∀ ev, get_active db = Some ev →
      let capped := 0 < max_shifts_per_user ev
                    ∧ max_shifts_per_user ev ≤ user_shift_count db ev u in
      (¬ has_ticket db ev u →
         response_of out = Redirect ShiftsPage TicketRequired ∧ writes out = [])
      ∧ (has_ticket db ev u → capped →
         response_of out = Redirect ShiftsPage (MaxShiftsReached (max_shifts_per_user ev))
         ∧ writes out = [])
      ∧ (has_ticket db ev u → ¬ capped → event_shift db ev id = None →
         response_of out = Http404 ∧ writes out = [])
      ∧ ∀ shift, has_ticket db ev u → ¬ capped → event_shift db ev id = Some shift →
          (signup_of db shift u ≠ [] →
             response_of out = Redirect ShiftsPage AlreadySignedUp ∧ writes out = [])
          ∧ (signup_of db shift u = [] → (spots_remaining db shift ≤ 0)%Z →
             response_of out = Redirect ShiftsPage ShiftFull ∧ writes out = [])
          ∧ (signup_of db shift u = [] → (0 < spots_remaining db shift)%Z →
             response_of out = Redirect ShiftsPage (SignedUp (shift_id shift))
             ∧ writes out = [AssignmentCreate (shift_id shift) (user_id u)]).
Proof.
  intros out. subst out. unfold shift_signup. split.
  - by intros ->.
  - intros ev ->. split_and!.
    + intros Hno. by rewrite decide_False.
    + intros Hticket Hcap. by rewrite decide_True, decide_True.
    + intros Hticket Hcap ->. by rewrite decide_True, decide_False.
    + intros shift Hticket Hcap ->. rewrite decide_True, decide_False by done.
      split_and!.
      * intros Hdup. by rewrite decide_True.
      * intros Hdup Hfull. rewrite decide_False by (rewrite Hdup; intros Hx; by apply Hx).
        by rewrite decide_True.
      * intros Hdup Hfree. rewrite decide_False by (rewrite Hdup; intros Hx; by apply Hx).
        by rewrite decide_False by lia.
Qed.
End Signup.

(** ** Capacity *)

Section Capacity.
Import Shifts Site.

Lemma run_shifts db ws : Model.shifts (run db ws) = Model.shifts db.
Proof.
  revert db. induction ws as [|w ws IH]; intros db; [done|].
  by rewrite run_cons, IH, apply_write_shifts.
Qed.

Lemma run_assignments db ws :
  Forall (λ w, writes_assignments w = false) ws →
  assignments (run db ws) = assignments db.
Proof.
  revert db. induction ws as [|w ws IH]; intros db Hws; [done|].
  apply Forall_cons in Hws as [Hw Hws]. rewrite run_cons, IH by done.
  by destruct w.
Qed.

Lemma spots_same_assignments db db' s :
  assignments db' = assignments db → spots_remaining db' s = spots_remaining db s.
Proof. unfold spots_remaining, shift_assignments. by intros ->. Qed.

Lemma spots_after_create db shift user s :
  spots_remaining (apply_write db (AssignmentCreate shift user)) s
  = (spots_remaining db s - if decide (shift = shift_id s) then 1 else 0)%Z.
Proof.
  unfold spots_remaining, shift_assignments. simpl.
  rewrite filter_app, length_app, filter_cons, filter_nil. simpl.
  case_decide; simpl; lia.
Qed.

Lemma spots_after_delete db id s :
  (spots_remaining db s ≤ spots_remaining (apply_write db (AssignmentDelete id)) s)%Z.
Proof.
  unfold spots_remaining, shift_assignments. simpl.
  rewrite list_filter_filter.
  assert (length (filter (λ a, assignment_shift a = shift_id s ∧ assignment_id a ≠ id)
                         (assignments db))
          ≤ length (filter (λ a, assignment_shift a = shift_id s) (assignments db)))%nat;
    [|lia].
  induction (assignments db) as [|a l IH]; [done|].
  rewrite !filter_cons. repeat case_decide; simpl; try lia; tauto.
Qed.

Lemma capacity_serve db r s :
  well_keyed db → s ∈ Model.shifts db → within_capacity db s →
  within_capacity (serve db r) s.
Proof.
  intros (_ & _ & _ & Hnd) Hs Hcap. unfold within_capacity, serve in *.
  destruct r as [gw u post|gw sid|u o e|u i|u i|u i|u i|u i]; cbn [handle].
  - rewrite (spots_same_assignments db); [done|]. apply run_assignments.
    unfold Tickets.create_checkout_session. repeat (case_match; try done).
    simpl. apply Forall_fmap, Forall_forall. done.
  - rewrite (spots_same_assignments db); [done|]. apply run_assignments.
    unfold Tickets.checkout_success. repeat (case_match; try done).
    simpl. by repeat constructor.
  - rewrite (spots_same_assignments db); [done|]. apply run_assignments.
    unfold Transfers.transfer_ticket. repeat (case_match; try done).
    simpl. by repeat constructor.
  - rewrite (spots_same_assignments db); [done|]. apply run_assignments.
    unfold Transfers.accept_transfer. repeat (case_match; try done).
    simpl. by repeat constructor.
  - rewrite (spots_same_assignments db); [done|]. apply run_assignments.
    unfold Transfers.reject_transfer. repeat (case_match; try done).
    simpl. by repeat constructor.
  - rewrite (spots_same_assignments db); [done|]. apply run_assignments.
    unfold Transfers.rescind_transfer. repeat (case_match; try done).
    simpl. by repeat constructor.
  - unfold shift_signup.
    destruct (get_active db) as [ev|]; [|done].
    case_decide; [|done]. case_decide; [done|].
    destruct (event_shift db ev i) as [shift|] eqn:Hshift; [|done].
    case_decide; [done|]. case_decide as Hfull; [done|]. cbn [writes].
    change (run db [?w]) with (apply_write db w). rewrite spots_after_create.
    case_decide as Hid; [|lia].
    apply first_Some in Hshift as [Hin _].
    assert (shift = s) as -> by (by apply (key_inj shift_id (Model.shifts db))).
    lia.
  - unfold shift_cancel.
    destruct (get_active db) as [ev|]; [|done].
    destruct (event_shift db ev i) as [shift|]; [|done].
    destruct (head (signup_of db shift u)) as [a|]; [|done]. cbn [writes].
    change (run db [?w]) with (apply_write db w).
    pose proof (spots_after_delete db (assignment_id a) s). lia.
Qed.

Lemma serve_shifts db r : Model.shifts (serve db r) = Model.shifts db.
Proof. apply run_shifts. Qed.

(** C7.  [spots_remaining] is the shift's capacity minus the number of
    ShiftAssignment rows that point to it, computed from the store at each
    call.  From a store with unique primary keys, a shift that is not over
    capacity stays so through any sequence of requests, each run to its end
    before the next.  A signup for a shift of the active event that has no
    spot left writes nothing and is not answered as a signup. *)
Theorem spots_remaining_never_negative db :
  (∀ s, spots_remaining db s
        = (Z.of_nat (capacity s)
           - Z.of_nat (length (filter (λ a, assignment_shift a = shift_id s)
                                      (assignments db))))%Z)
  ∧ (∀ rs s, well_keyed db → s ∈ Model.shifts db →
             (0 ≤ spots_remaining db s)%Z →
             (0 ≤ spots_remaining (serve_all db rs) s)%Z)
  ∧ (∀ u id ev shift,
       get_active db = Some ev → event_shift db ev id = Some shift →
       (spots_remaining db shift ≤ 0)%Z →
       writes (shift_signup db u id) = []
       ∧ response_of (shift_signup db u id)
         ≠ Redirect ShiftsPage (SignedUp (shift_id shift))).
Proof.
  split_and!.
  - done.
  - intros rs. revert db. induction rs as [|r rs IH]; intros db s Hk Hs Hcap; [done|].
    apply IH.
    + by apply well_keyed_serve.
    + by rewrite serve_shifts.
    + by apply capacity_serve.
  - intros u id ev shift Hev Hshift Hfull. unfold shift_signup. rewrite Hev, Hshift.
    repeat case_decide; simpl; done || lia.
Qed.
End Capacity.

(** ** Hours *)

Section Hours.
Import Grid.
Local Open Scope Z_scope.

Lemma HOUR_pos : 0 < HOUR.
Proof. done. Qed.

Lemma on_the_hour_div t : on_the_hour t = HOUR * (t / HOUR).
Proof. unfold on_the_hour. pose proof (Z.div_mod t HOUR). pose proof HOUR_pos. lia. Qed.

Lemma on_the_hour_bounds t : on_the_hour t ≤ t < on_the_hour t + HOUR.
Proof. unfold on_the_hour. pose proof (Z.mod_pos_bound t HOUR HOUR_pos). lia. Qed.

Lemma on_the_hour_aligned t : on_the_hour t mod HOUR = 0.
Proof. rewrite on_the_hour_div, Z.mul_comm. apply Z_mod_mult. Qed.

Lemma on_the_hour_mono a b : a ≤ b → on_the_hour a ≤ on_the_hour b.
Proof.
  intros Hab. rewrite !on_the_hour_div.
  pose proof (Z.div_le_mono a b HOUR HOUR_pos Hab). pose proof HOUR_pos. nia.
Qed.

Lemma rounded_up_aligned t : rounded_up t mod HOUR = 0.
Proof.
  unfold rounded_up. case_decide; [|apply on_the_hour_aligned].
  rewrite <- (Z.mul_1_l HOUR) at 1. rewrite Z_mod_plus_full. apply on_the_hour_aligned.
Qed.

Lemma rounded_up_bounds t : t ≤ rounded_up t < t + HOUR.
Proof. unfold rounded_up. pose proof (on_the_hour_bounds t). case_decide; lia. Qed.

Lemma rounded_up_mono a b : a ≤ b → rounded_up a ≤ rounded_up b.
Proof.
  intros Hab. unfold rounded_up.
  pose proof (on_the_hour_bounds a). pose proof (on_the_hour_bounds b).
  pose proof (Z.div_le_mono a b HOUR HOUR_pos Hab). pose proof HOUR_pos.
  rewrite !on_the_hour_div in *.
  assert (a / HOUR < b / HOUR → HOUR * (a / HOUR) + HOUR ≤ HOUR * (b / HOUR)) by nia.
  assert (a / HOUR = b / HOUR → HOUR * (a / HOUR) = HOUR * (b / HOUR)) by (by intros ->).
  repeat case_decide; lia.
Qed.

Lemma iterations_step a b : a < b → iterations a b = S (iterations (a + HOUR) b).
Proof.
  intros Hab. unfold iterations.
  replace (b - a + (HOUR - 1)) with (b - (a + HOUR) + (HOUR - 1) + 1 * HOUR) by lia.
  rewrite Z.div_add by done.
  pose proof (Z.div_pos (b - (a + HOUR) + (HOUR - 1)) HOUR). pose proof HOUR_pos. lia.
Qed.

Lemma iterations_done a b : ¬ a < b → iterations a b = 0%nat.
Proof.
  intros Hab. unfold iterations.
  pose proof (Z.div_lt_upper_bound (b - a + (HOUR - 1)) HOUR 1 HOUR_pos). lia.
Qed.

Lemma hour_range_cons a b : a < b → hour_range a b = a :: hour_range (a + HOUR) b.
Proof.
  intros Hab. unfold hour_range. rewrite iterations_step by done. simpl.
  by rewrite decide_True.
Qed.

Lemma hour_range_nil a b : ¬ a < b → hour_range a b = [].
Proof. intros Hab. unfold hour_range. by rewrite iterations_done. Qed.

(** The loop stops on its condition: more iterations allowed, same hours. *)
Lemma hours_from_enough fuel a b :
  (iterations a b ≤ fuel)%nat → hours_from fuel a b = hour_range a b.
Proof.
  revert a. induction fuel as [|fuel IH]; intros a Hfuel.
  - unfold hour_range. by replace (iterations a b) with 0%nat by lia.
  - simpl. case_decide as Hab.
    + rewrite hour_range_cons by done. f_equal. apply IH.
      rewrite iterations_step in Hfuel by done. lia.
    + by rewrite hour_range_nil.
Qed.

Lemma hour_range_seq a b :
  hour_range a b = (λ k : nat, a + Z.of_nat k * HOUR) <$> seq 0 (iterations a b).
Proof.
  remember (iterations a b) as n eqn:Hn. revert a Hn.
  induction n as [|n IH]; intros a Hn.
  - unfold hour_range. by rewrite <- Hn.
  - destruct (decide (a < b)) as [Hab|Hab]; [|by rewrite iterations_done in Hn].
    rewrite iterations_step in Hn by done. injection Hn as Hn.
    rewrite hour_range_cons by done. rewrite (IH (a + HOUR)) by done.
    simpl. f_equal; [lia|]. rewrite <- fmap_S_seq, <- list_fmap_compose.
    apply list_fmap_ext. intros ? k _. simpl. lia.
Qed.

Lemma elem_of_hour_range a b h :
  h ∈ hour_range a b ↔ a ≤ h < b ∧ (h - a) mod HOUR = 0.
Proof.
  remember (iterations a b) as n eqn:Hn. revert a Hn.
  induction n as [|n IH]; intros a Hn.
  - unfold hour_range. rewrite <- Hn. simpl. split; [by intros ?%elem_of_nil|].
    intros [Hab _]. destruct (decide (a < b)) as [Hlt|Hlt]; [|lia].
    by rewrite iterations_step in Hn.
  - destruct (decide (a < b)) as [Hab|Hab]; [|by rewrite iterations_done in Hn].
    rewrite iterations_step in Hn by done. injection Hn as Hn.
    rewrite hour_range_cons by done. rewrite elem_of_cons, (IH (a + HOUR)) by done.
    pose proof HOUR_pos. split.
    + intros [->|[Hh Hmod]].
      * split; [lia|]. by rewrite Z.sub_diag.
      * split; [lia|]. replace (h - a) with (h - (a + HOUR) + 1 * HOUR) by lia.
        by rewrite Z_mod_plus_full.
    + intros [Hh Hmod]. destruct (decide (h = a)) as [->|Hne]; [by left|right].
      assert (HOUR ≤ h - a).
      { pose proof (Z.div_mod (h - a) HOUR). rewrite Hmod in *.
        assert (0 < (h - a) / HOUR) by nia. nia. }
      split; [lia|]. replace (h - (a + HOUR)) with (h - a + (-1) * HOUR) by lia.
      by rewrite Z_mod_plus_full.
Qed.

(** Between two instants on the hour the loop makes [(b - a) / HOUR] turns. *)
Lemma iterations_aligned a b :
  a mod HOUR = 0 → b mod HOUR = 0 → a ≤ b →
  Z.of_nat (iterations a b) = (b - a) / HOUR.
Proof.
  intros Ha Hb Hab. unfold iterations.
  pose proof (Z.div_mod a HOUR). pose proof (Z.div_mod b HOUR). pose proof HOUR_pos.
  rewrite Ha, Hb in *.
  replace (b - a) with ((b / HOUR - a / HOUR) * HOUR) by lia.
  rewrite Z.div_mul by lia.
  replace ((b / HOUR - a / HOUR) * HOUR + (HOUR - 1))
    with ((HOUR - 1) + (b / HOUR - a / HOUR) * HOUR) by lia.
  rewrite Z.div_add by lia. rewrite (Z.div_small (HOUR - 1)) by lia.
  assert (a / HOUR ≤ b / HOUR) by nia. lia.
Qed.
End Hours.

(** ** The cell map *)

Section CellMap.
Import Grid.
Local Open Scope Z_scope.

Lemma cover_lookup (m : gmap (nat * Z) Shift) shift role h :
  cover m shift !! (role, h)
  = if decide (role = shift_role shift ∧ h ∈ shift_hours shift)
    then Some shift else m !! (role, h).
Proof.
  unfold cover. induction (shift_hours shift) as [|x l IH] using rev_ind.
  - simpl. rewrite decide_False; [done|]. by intros [_ ?%elem_of_nil].
  - rewrite foldl_snoc, lookup_insert, IH.
    destruct (decide ((shift_role shift, x) = (role, h))) as [[= <- <-]|Hne].
    + rewrite (decide_True (P := _ ∧ _ ∈ l ++ _)); [done|].
      split; [done|]. apply elem_of_app. right. by left.
    + destruct (decide (role = shift_role shift ∧ h ∈ l)) as [[-> Hin]|Hout].
      * rewrite decide_True; [done|]. split; [done|]. apply elem_of_app. by left.
      * rewrite decide_False; [done|]. intros [-> [Hin|Hin%list_elem_of_singleton]%elem_of_app].
        -- by apply Hout.
        -- by subst.
Qed.

(** Whatever the map holds at a key was written by a shift of that role
    that covers that hour. *)
Lemma role_hour_shift_Some all_shifts role h shift :
  role_hour_shift all_shifts !! (role, h) = Some shift →
  shift ∈ all_shifts ∧ role = shift_role shift ∧ h ∈ shift_hours shift.
Proof.
  unfold role_hour_shift. induction all_shifts as [|x l IH] using rev_ind.
  - simpl. by rewrite lookup_empty.
  - rewrite foldl_snoc, cover_lookup. case_decide as Hx.
    + intros [= <-]. split; [|done]. apply elem_of_app. right. by left.
    + intros (Hin & ? & ?)%IH. split; [|done]. apply elem_of_app. by left.
Qed.

Lemma min_time_least first others :
  (∀ s, s ∈ first :: others → min_time first others ≤ start_time s)
  ∧ ∃ s, s ∈ first :: others ∧ start_time s = min_time first others.
Proof.
  unfold min_time. induction others as [|x l IH] using rev_ind.
  - simpl. split; [|exists first; split; [left|done]].
    by intros s [->|?%elem_of_nil]%elem_of_cons.
  - rewrite fmap_app. simpl. rewrite foldl_snoc. destruct IH as [Hle (s & Hs & Hmin)]. split.
    + intros t [->|[Ht|Ht%list_elem_of_singleton]%elem_of_app]%elem_of_cons.
      * specialize (Hle first (ltac:(left))). lia.
      * specialize (Hle t (ltac:(by right))). lia.
      * subst t. lia.
    + destruct (decide (foldl Z.min (start_time first) (start_time <$> l) ≤ start_time x)).
      * exists s. split; [|lia]. apply elem_of_cons in Hs as [->|Hs]; [left|right].
        apply elem_of_app. by left.
      * exists x. split; [|lia]. right. apply elem_of_app. right. by left.
Qed.

Lemma max_time_greatest first others :
  (∀ s, s ∈ first :: others → end_time s ≤ max_time first others)
  ∧ ∃ s, s ∈ first :: others ∧ end_time s = max_time first others.
Proof.
  unfold max_time. induction others as [|x l IH] using rev_ind.
  - simpl. split; [|exists first; split; [left|done]].
    by intros s [->|?%elem_of_nil]%elem_of_cons.
  - rewrite fmap_app. simpl. rewrite foldl_snoc. destruct IH as [Hle (s & Hs & Hmax)]. split.
    + intros t [->|[Ht|Ht%list_elem_of_singleton]%elem_of_app]%elem_of_cons.
      * specialize (Hle first (ltac:(left))). lia.
      * specialize (Hle t (ltac:(by right))). lia.
      * subst t. lia.
    + destruct (decide (end_time x ≤ foldl Z.max (end_time first) (end_time <$> l))).
      * exists s. split; [|lia]. apply elem_of_cons in Hs as [->|Hs]; [left|right].
        apply elem_of_app. by left.
      * exists x. split; [|lia]. right. apply elem_of_app. right. by left.
Qed.

(** The rows of the grid reach every hour a shift covers. *)
Lemma shift_hours_in_range first others s h :
  s ∈ first :: others → h ∈ shift_hours s →
  h ∈ hour_range (on_the_hour (min_time first others))
                 (rounded_up (max_time first others)).
Proof.
  intros Hs [Hh Hmod]%elem_of_hour_range. apply elem_of_hour_range.
  destruct (min_time_least first others) as [Hmin _].
  destruct (max_time_greatest first others) as [Hmax _].
  pose proof (on_the_hour_mono _ _ (Hmin s Hs)).
  pose proof (rounded_up_mono _ _ (Hmax s Hs)).
  split; [lia|].
  pose proof (on_the_hour_aligned (start_time s)) as Ha.
  pose proof (on_the_hour_aligned (min_time first others)) as Hb.
  rewrite Zminus_mod in Hmod |- *. rewrite Ha in Hmod. rewrite Hb.
  by rewrite Z.sub_0_r in *.
Qed.

Lemma rowspan_of_slots s :
  shift_hours s ≠ [] → rowspan_of s = Z.of_nat (length (shift_hours s)).
Proof.
  intros Hne. unfold shift_hours in *. rewrite hour_range_seq, length_fmap, length_seq.
  unfold rowspan_of. symmetry.
  apply iterations_aligned; [apply on_the_hour_aligned|apply rounded_up_aligned|].
  destruct (decide (on_the_hour (start_time s) < rounded_up (end_time s))); [lia|].
  by rewrite hour_range_nil in Hne.
Qed.
(** The last shift of a role to cover an hour is the one found there. *)
Lemma role_hour_shift_last before s after h :
  h ∈ shift_hours s →
  (∀ other, other ∈ after → other ≠ s → shift_role other = shift_role s →
            h ∉ shift_hours other) →
  role_hour_shift (before ++ s :: after) !! (shift_role s, h) = Some s.
Proof.
  intros Hh Hfree. unfold role_hour_shift. rewrite foldl_app. simpl.
  assert (cover (foldl cover ∅ before) s !! (shift_role s, h) = Some s) as Hs
    by (by rewrite cover_lookup, decide_True).
  revert Hs. generalize (cover (foldl cover ∅ before) s). clear before.
  induction after as [|x after IH]; intros m Hm; [done|].
  simpl. apply IH; [intros other Ho; apply Hfree; by right|].
  rewrite cover_lookup. case_decide as Hx; [|done].
  destruct Hx as [Hrole Hcovers]. destruct (decide (x = s)) as [->|Hne]; [done|].
  exfalso. by apply (Hfree x); [left|..].
Qed.

(** A shift of the event has a column: its role is among the event's roles. *)
Lemma role_column db event s :
  role__event db event s →
  ∃ (j : nat) role, filter (λ r, role_event r = event_id event) (roles db) !! j = Some role
                    ∧ role_id role = shift_role s.
Proof.
  unfold role__event, role_of.
  destruct (head (filter _ (roles db))) as [r|] eqn:Hr; [|done].
  intros [= Hevent]. apply first_Some in Hr as [Hin Hid].
  assert (r ∈ filter (λ r, role_event r = event_id event) (roles db)) as Hmem
    by (by apply list_elem_of_filter).
  apply list_elem_of_lookup in Hmem as [j Hj]. by exists j, r.
Qed.

End CellMap.

(** ** The schedule grid *)

Section Schedule.
Import Grid.
Local Open Scope Z_scope.

Lemma iterations_on_the_hour a b :
  a mod HOUR = 0 → b mod HOUR = 0 → iterations a b = Z.to_nat ((b - a) / HOUR).
Proof.
  intros Ha Hb. destruct (decide (a ≤ b)) as [Hab|Hab].
  - rewrite <- iterations_aligned by done. lia.
  - rewrite iterations_done by lia.
    pose proof (Z.div_lt_upper_bound (b - a) HOUR 0 HOUR_pos). lia.
Qed.

Lemma elem_of_hour_range_aligned a b h :
  a mod HOUR = 0 → h ∈ hour_range a b ↔ a ≤ h < b ∧ h mod HOUR = 0.
Proof.
  intros Ha. rewrite elem_of_hour_range, Zminus_mod, Ha, Z.sub_0_r, Z.mod_mod; [done|].
  pose proof HOUR_pos. lia.
Qed.

Lemma rounded_up_cases t :
  rounded_up t = if decide (t mod HOUR = 0) then t else on_the_hour t + HOUR.
Proof.
  unfold rounded_up, on_the_hour. pose proof (Z.mod_pos_bound t HOUR HOUR_pos).
  repeat case_decide; lia.
Qed.

Lemma elem_of_build_grid roles all_shifts ua hours row :
  row ∈ build_grid roles all_shifts ua hours →
  hour row ∈ hours
  ∧ cells row = cell_at (role_hour_shift all_shifts) ua (hour row) <$> roles.
Proof. unfold build_grid. by intros (h & -> & Hh)%list_elem_of_fmap. Qed.

Lemma build_grid_row roles all_shifts ua hours h :
  h ∈ hours → ∃ row, row ∈ build_grid roles all_shifts ua hours ∧ hour row = h.
Proof.
  intros Hh.
  exists {| hour := h; cells := cell_at (role_hour_shift all_shifts) ua h <$> roles |}.
  split; [|done]. unfold build_grid. apply list_elem_of_fmap. by exists h.
Qed.

(** The cell of a shift at an hour it is the last of its role to cover. *)
Lemma build_grid_cell roles before s after ua hours row (j : nat) role :
  row ∈ build_grid roles (before ++ s :: after) ua hours →
  hour row ∈ shift_hours s →
  (∀ other, other ∈ after → other ≠ s → shift_role other = shift_role s →
            hour row ∉ shift_hours other) →
  roles !! j = Some role → role_id role = shift_role s →
  cells row !! j
  = Some (if decide (hour row = on_the_hour (start_time s))
          then ShiftStart s (Z.of_nat (length (shift_hours s)))
                          (bool_decide (shift_id s ∈ ua))
          else ShiftContinue).
Proof.
  intros [Hrow Hcells]%elem_of_build_grid Hh Hfree Hj Hrole.
  rewrite Hcells, list_lookup_fmap, Hj. simpl. unfold cell_at.
  rewrite Hrole, role_hour_shift_last by done.
  rewrite rowspan_of_slots; [done|].
  intros Hnil. rewrite Hnil in Hh. by apply elem_of_nil in Hh.
Qed.
(** C6.  With an active event that has roles and shifts, [shifts] renders a
    context in which: the hours are [min_hour], [min_hour] + 1h, ... up to
    but not including [max_hour], where [min_hour] is the earliest start
    with minutes and below cleared and [max_hour] is the latest end, moved
    to the next hour when it is not on the hour; the grid has one row per
    hour, in that order.  Every shift has a column, that of its role, and a
    row for each hour it covers; in the row of an hour it covers that no
    shift of its role coming later in the queryset covers, its cell is a
    [shift_start] with the number of hours it covers as rowspan when the
    hour is its start hour, and a [shift_continue] otherwise.  For the
    shifts 10:00-12:00 and 12:30-13:00 of one role the hours are 10, 11, 12
    and the cells are a start of rowspan 2, a continuation, and a start of
    rowspan 1. *)
Theorem shifts_grid_hours_and_rowspans :
  (∀ db u event first others,
     get_active db = Some event →
     filter (λ r, role_event r = event_id event) (roles db) ≠ [] →
     filter (λ s, role__event db event s) (Model.shifts db) = first :: others →
     ∃ ctx, Grid.shifts db u = inr ctx ∧
       let roles := filter (λ r, role_event r = event_id event) (roles db) in
       let all_shifts := first :: others in
       let earliest := min_time first others in
       let latest := max_time first others in
       let min_hour := on_the_hour earliest in
       let max_hour := if decide (latest mod HOUR = 0) then latest
                       else on_the_hour latest + HOUR in
       (∀ s, s ∈ all_shifts → earliest ≤ start_time s ∧ end_time s ≤ latest)
       ∧ (∃ s, s ∈ all_shifts ∧ start_time s = earliest)
       ∧ (∃ s, s ∈ all_shifts ∧ end_time s = latest)
       ∧ ctx_hours ctx
         = (λ k : nat, min_hour + Z.of_nat k * HOUR)
           <$> seq 0 (Z.to_nat ((max_hour - min_hour) / HOUR))
       ∧ (∀ h, h ∈ ctx_hours ctx ↔ min_hour ≤ h < max_hour ∧ h mod HOUR = 0)
       ∧ hour <$> ctx_grid ctx = ctx_hours ctx
       ∧ ∀ before s after, all_shifts = before ++ s :: after →
           let start_hour := on_the_hour (start_time s) in
           let slots := length (shift_hours s) in
           shift_hours s = (λ k : nat, start_hour + Z.of_nat k * HOUR) <$> seq 0 slots
           ∧ (∃ (j : nat) role, roles !! j = Some role ∧ role_id role = shift_role s)
           ∧ (∀ h, h ∈ shift_hours s →
                   h ∈ ctx_hours ctx ∧ ∃ row, row ∈ ctx_grid ctx ∧ hour row = h)
           ∧ ∀ row (j : nat) role,
               row ∈ ctx_grid ctx → hour row ∈ shift_hours s →
               (∀ other, other ∈ after → other ≠ s →
                         shift_role other = shift_role s →
                         hour row ∉ shift_hours other) →
               roles !! j = Some role → role_id role = shift_role s →
               (hour row = start_hour →
                  ∃ signed,
                    cells row !! j = Some (ShiftStart s (Z.of_nat slots) signed)
                    ∧ (signed = true ↔
                       ∃ a, a ∈ assignments db ∧ assignment_user a = user_id u
                            ∧ shift__role__event db event a
                            ∧ assignment_shift a = shift_id s))
               ∧ (hour row ≠ start_hour → cells row !! j = Some ShiftContinue))
  ∧ Grid.shifts Example.site Example.alice
    = inr {| ctx_roles := [Example.kitchen];
             ctx_grid :=
               [ {| hour := 10 * HOUR;
                    cells := [ShiftStart Example.morning 2 false] |};
                 {| hour := 11 * HOUR; cells := [ShiftContinue] |};
                 {| hour := 12 * HOUR;
                    cells := [ShiftStart Example.noon 1 false] |} ];
             ctx_hours := [10 * HOUR; 11 * HOUR; 12 * HOUR];
             ctx_has_ticket := true;
             ctx_user_shift_count := 0;
             ctx_can_signup_more := true |}.
Proof.
  split; [|by vm_compute].
  intros db u event first others Hev Hroles Hall. unfold Grid.shifts.
  rewrite Hev, Hall.
  destruct (filter (λ r, role_event r = event_id event) (roles db)) as [|r rs] eqn:Hrs;
    [done|].
  eexists. split; [done|]. cbn [ctx_hours ctx_grid]. rewrite <- rounded_up_cases.
  destruct (min_time_least first others) as [Hmin Hmin'].
  destruct (max_time_greatest first others) as [Hmax Hmax'].
  pose proof (on_the_hour_aligned (min_time first others)) as Hamin.
  pose proof (rounded_up_aligned (max_time first others)) as Hamax.
  split_and!; try done.
  - intros s Hs. split; [by apply Hmin|by apply Hmax].
  - by rewrite hour_range_seq, iterations_on_the_hour.
  - intros h. by apply elem_of_hour_range_aligned.
  - unfold build_grid. rewrite <- list_fmap_compose. apply list_fmap_id.
  - intros before s after Hsplit. cbv zeta.
    assert (s ∈ first :: others) as Hs
      by (rewrite Hsplit; apply elem_of_app; right; left).
    split_and!.
    + unfold shift_hours at 1. rewrite hour_range_seq. f_equal.
      unfold shift_hours. by rewrite hour_range_seq, length_fmap, length_seq.
    + rewrite <- Hrs. apply role_column.
      rewrite <- Hall in Hs. by apply list_elem_of_filter in Hs as [? _].
    + intros h Hh.
      assert (h ∈ hour_range (on_the_hour (min_time first others))
                             (rounded_up (max_time first others))) as Hin
        by (by eapply shift_hours_in_range).
      split; [done|]. by apply build_grid_row.
    + intros row j role Hrow Hh Hfree Hj Hrole. rewrite Hsplit in Hrow.
      rewrite (build_grid_cell _ _ _ _ _ _ _ _ _ Hrow Hh Hfree Hj Hrole). split.
      * intros Hstart. rewrite decide_True by done. eexists. split; [done|].
        rewrite bool_decide_eq_true, elem_of_list_to_set, list_elem_of_fmap.
        split.
        -- intros (a & -> & [[? ?] ?]%list_elem_of_filter). by exists a.
        -- intros (a & ? & ? & ? & <-). exists a. split; [done|].
           by apply list_elem_of_filter.
      * intros Hlater. by rewrite decide_False.
Qed.
End Schedule.

Section EmptyShifts.
Import Grid.
Local Open Scope Z_scope.

(** C9.  A shift whose end, moved up to the hour, is not after its start,
    moved down to the hour, covers no hour: it is at no key of the cell
    map, so no [shift_start] cell carries it, and every cell of the grid
    that is not empty comes from a shift that covers the row's hour, which
    it does not.  Its start and end still count in the earliest start and
    the latest end that bound the rows: a shift 14:00-14:00 next to one
    10:00-12:00 gives the rows 10 to 13 and no cell of its own.  A shift
    that starts and ends at the same instant off the hour covers one hour,
    and when no shift of its role coming later in the queryset covers that
    hour, the row of that hour holds, in the column of its role, its
    [shift_start] cell with rowspan 1. *)
Theorem shift_without_hours_has_no_cell :
  (∀ db u event first others s,
     get_active db = Some event →
     filter (λ r, role_event r = event_id event) (roles db) ≠ [] →
     filter (λ s, role__event db event s) (Model.shifts db) = first :: others →
     s ∈ first :: others →
     rounded_up (end_time s) ≤ on_the_hour (start_time s) →
     ∃ ctx, Grid.shifts db u = inr ctx
       ∧ shift_hours s = []
       ∧ (∀ role h, role_hour_shift (first :: others) !! (role, h) ≠ Some s)
       ∧ (∀ row c, row ∈ ctx_grid ctx → c ∈ cells row →
                   ∀ rowspan signed, c ≠ ShiftStart s rowspan signed)
       ∧ (∀ row j role c,
            row ∈ ctx_grid ctx → ctx_roles ctx !! j = Some role →
            cells row !! j = Some c → c ≠ Empty →
            ∃ other, other ∈ first :: others ∧ other ≠ s
                     ∧ shift_role other = role_id role
                     ∧ hour row ∈ shift_hours other
                     ∧ (c = ShiftContinue ∨ ∃ rowspan signed,
                                              c = ShiftStart other rowspan signed))
       ∧ min_time first others ≤ start_time s
       ∧ end_time s ≤ max_time first others)
  ∧ (∀ s, start_time s = end_time s → start_time s mod HOUR ≠ 0 →
          shift_hours s = [on_the_hour (start_time s)] ∧ rowspan_of s = 1)
  ∧ (∀ db u event first others before s after,
       get_active db = Some event →
       filter (λ r, role_event r = event_id event) (roles db) ≠ [] →
       filter (λ s, role__event db event s) (Model.shifts db) = first :: others →
       first :: others = before ++ s :: after →
       start_time s = end_time s → start_time s mod HOUR ≠ 0 →
       (∀ other, other ∈ after → other ≠ s → shift_role other = shift_role s →
                 on_the_hour (start_time s) ∉ shift_hours other) →
       ∃ ctx, Grid.shifts db u = inr ctx
         ∧ (∃ (j : nat) role, ctx_roles ctx !! j = Some role
                              ∧ role_id role = shift_role s)
         ∧ (∃ row, row ∈ ctx_grid ctx ∧ hour row = on_the_hour (start_time s))
         ∧ ∀ row (j : nat) role,
             row ∈ ctx_grid ctx → hour row = on_the_hour (start_time s) →
             ctx_roles ctx !! j = Some role → role_id role = shift_role s →
             ∃ signed, cells row !! j = Some (ShiftStart s 1 signed))
  ∧ Grid.shifts (Example.with_shifts [Example.morning; Example.marker]) Example.alice
    = inr {| ctx_roles := [Example.kitchen];
             ctx_grid :=
               [ {| hour := 10 * HOUR;
                    cells := [ShiftStart Example.morning 2 false] |};
                 {| hour := 11 * HOUR; cells := [ShiftContinue] |};
                 {| hour := 12 * HOUR; cells := [Empty] |};
                 {| hour := 13 * HOUR; cells := [Empty] |} ];
             ctx_hours := [10 * HOUR; 11 * HOUR; 12 * HOUR; 13 * HOUR];
             ctx_has_ticket := true;
             ctx_user_shift_count := 0;
             ctx_can_signup_more := true |}
  ∧ Grid.shifts (Example.with_shifts [Example.morning; Example.instant]) Example.alice
    = inr {| ctx_roles := [Example.kitchen];
             ctx_grid :=
               [ {| hour := 10 * HOUR;
                    cells := [ShiftStart Example.morning 2 false] |};
                 {| hour := 11 * HOUR; cells := [ShiftContinue] |};
                 {| hour := 12 * HOUR; cells := [Empty] |};
                 {| hour := 13 * HOUR;
                    cells := [ShiftStart Example.instant 1 false] |} ];
             ctx_hours := [10 * HOUR; 11 * HOUR; 12 * HOUR; 13 * HOUR];
             ctx_has_ticket := true;
             ctx_user_shift_count := 0;
             ctx_can_signup_more := true |}.
Proof.
  assert (Hone : ∀ s, start_time s = end_time s → start_time s mod HOUR ≠ 0 →
                      shift_hours s = [on_the_hour (start_time s)] ∧ rowspan_of s = 1).
  { intros s Heq Hoff. unfold rowspan_of, shift_hours. rewrite <- Heq.
    pose proof (on_the_hour_bounds (start_time s)) as Hb.
    assert (rounded_up (start_time s) = on_the_hour (start_time s) + HOUR) as ->.
    { rewrite rounded_up_cases. by rewrite decide_False. }
    pose proof HOUR_pos. split.
    + rewrite hour_range_cons by lia. by rewrite hour_range_nil by lia.
    + replace (on_the_hour (start_time s) + HOUR - on_the_hour (start_time s))
        with (1 * HOUR) by lia.
      by rewrite Z.div_mul by lia. }
  split_and!; [|done| |by vm_compute..].
  - intros db u event first others s Hev Hroles Hall Hs Hempty. unfold Grid.shifts.
    rewrite Hev, Hall.
    destruct (filter (λ r, role_event r = event_id event) (roles db)) as [|r rs] eqn:Hrs;
      [done|].
    assert (Hnone : shift_hours s = []) by (apply hour_range_nil; lia).
    assert (Hkey : ∀ role h, role_hour_shift (first :: others) !! (role, h) ≠ Some s).
    { intros role h (_ & _ & Hh)%role_hour_shift_Some.
      rewrite Hnone in Hh. by apply elem_of_nil in Hh. }
    eexists. split; [done|]. cbn [ctx_grid ctx_roles]. split_and!; try done.
    + intros row c [_ Hcells]%elem_of_build_grid Hc rowspan signed ->.
      rewrite Hcells in Hc. apply list_elem_of_fmap in Hc as (role & Hc & _).
      unfold cell_at in Hc.
      destruct (role_hour_shift (first :: others) !! (role_id role, hour row))
        as [x|] eqn:Hx; [|done].
      case_decide; [|done]. injection Hc as <- _ _. by apply Hkey in Hx.
    + intros row j role c [_ Hcells]%elem_of_build_grid Hj Hc Hne.
      rewrite Hcells, list_lookup_fmap, Hj in Hc. injection Hc as <-.
      unfold cell_at in *.
      destruct (role_hour_shift (first :: others) !! (role_id role, hour row))
        as [x|] eqn:Hx; [|done].
      pose proof Hx as (Hin & Hrole & Hh)%role_hour_shift_Some.
      exists x. split_and!; try done.
      * intros ->. by apply Hkey in Hx.
      * case_decide; [right; eauto|by left].
    + by apply min_time_least.
    + by apply max_time_greatest.
  - intros db u event first others before s after Hev Hroles Hall Hsplit Heq Hoff Hfree.
    destruct (Hone s Heq Hoff) as [Hhours Hspan].
    assert (s ∈ first :: others) as Hs
      by (rewrite Hsplit; apply elem_of_app; right; left).
    unfold Grid.shifts. rewrite Hev, Hall.
    destruct (filter (λ r, role_event r = event_id event) (roles db)) as [|r rs] eqn:Hrs;
      [done|].
    eexists. split; [done|]. cbn [ctx_grid ctx_roles]. split_and!.
    + rewrite <- Hrs. apply role_column.
      rewrite <- Hall in Hs. by apply list_elem_of_filter in Hs as [? _].
    + apply build_grid_row. apply (shift_hours_in_range first others s); [done|].
      rewrite Hhours. left.
    + intros row j role Hrow Hh Hj Hrole. rewrite Hsplit in Hrow.
      assert (hour row ∈ shift_hours s) as Hin by (rewrite Hhours, Hh; left).
      rewrite <- Hh in Hfree.
      rewrite (build_grid_cell _ _ _ _ _ _ _ _ _ Hrow Hin Hfree Hj Hrole).
      rewrite decide_True by done. rewrite Hhours. simpl. by eexists.
Qed.
End EmptyShifts.

(** ** The properties on the example site *)

Section OnTheExampleSite.
Import Example Fixtures Tickets Transfers Shifts Site.

Lemma site_well_keyed : well_keyed site.
Proof.
  unfold well_keyed. split_and!; try (apply (bool_decide_unpack _); by vm_compute).
  intros o Ho. repeat (apply elem_of_cons in Ho as [->|Ho]); simpl; try lia.
  by apply elem_of_nil in Ho.
Defined.

Lemma quota_kept_on_site :
  well_keyed site ∧ general ∈ ticket_types site ∧ within_quota site 2 general
  ∧ within_quota
      (serve_all site [AcceptTransfer bob 1; CreateCheckoutSession stripe bob two_general])
      2 general.
Proof.
  assert (general ∈ ticket_types site) as Hin by left.
  assert (within_quota site 2 general) as Hq by (unfold within_quota; vm_compute; lia).
  split_and!; [apply site_well_keyed|done..|].
  apply quota_kept_by_every_sequence; [apply site_well_keyed|done..].
Defined.

Lemma bob_accepts_transfer1 :
  incoming_transfer site bob 1 = Some transfer1
  ∧ writes (accept_transfer site bob 1)
    = [OrderSave (reassigned order1 bob); TransferSave (accepted transfer1 bob)].
Proof.
  split; [reflexivity|].
  destruct (accept_transfer_checks_then_writes_twice site bob 1 transfer1 order1 general
              eq_refl eq_refl eq_refl) as (_ & Hok & _).
  apply Hok. vm_compute. lia.
Defined.

(** C2 as stated fails: while bob accepts transfer 1 the store passes
    through a content in which order 1 is already his and transfer 1 is
    still pending. *)
Lemma accept_transfer_passes_through_half_done_store :
  ∃ between, between ∈ states site (writes (accept_transfer site bob 1))
    ∧ owning_user <$> order_of between transfer1 = Some (user_id bob)
    ∧ owning_user <$> order_of site transfer1 = Some (user_id alice)
    ∧ head (filter (λ t, transfer_id t = 1) (transfers between)) = Some transfer1
    ∧ transfer_state transfer1 = TransferPending.
Proof. eexists. split; [by left|]. by vm_compute. Qed.

Lemma alice_is_refused_general_and_sold_parking :
  get_active site = Some festival
  ∧ length (filter (λ o, order_ticket_type o = tt_id general ∧ owning_user o = user_id alice
                         ∧ (order_state o = OrderCompleted ∨ order_state o = OrderPending))
                   (orders site)) = 2
  ∧ (gateway_calls (create_checkout_session stripe site alice one_general) = []
     ∧ writes (create_checkout_session stripe site alice one_general) = [])
  ∧ response_of (create_checkout_session stripe site alice one_general)
    = Redirect TicketsPage (CanOnlyHave 2 "general" 2 0)
  ∧ (∃ items, gateway_calls (create_checkout_session stripe site alice one_parking)
              = [SessionCreate items "alice@example.org" 1])
  ∧ orders (run site (writes (create_checkout_session stripe site alice one_parking)))
    = {| order_id := 3; order_ticket_type := 2; purchasing_user := 1; owning_user := 1;
         stripe_checkout_session_id := "cs_3"; stripe_payment_intent_id := None;
         order_state := OrderPending |} :: orders site.
Proof.
  assert (NoDup (tt_id <$> ticket_types site)) as Hnd by apply site_well_keyed.
  assert (∀ form quantity,
            int_of_field (form 1) = Some (quantity general) →
            int_of_field (form 2) = Some (quantity parking) →
            ∀ t, t ∈ ticket_types site → tt_event t = event_id festival →
                 int_of_field (form (tt_id t)) = Some (quantity t)) as Hparse.
  { intros form quantity Hg Hp t Ht _.
    repeat (apply elem_of_cons in Ht as [->|Ht]); [done..|]. by apply elem_of_nil in Ht. }
  split_and!; [reflexivity..| |reflexivity| |reflexivity].
  - destruct (create_checkout_session_all_or_nothing stripe site alice one_general festival
                general_only Hnd eq_refl (Hparse one_general general_only eq_refl eq_refl)) as [Hover _].
    { exists general. split_and!; [left|reflexivity|by vm_compute]. }
    destruct Hover as (Hcalls & Hwrites & _); [|done].
    exists general. split; [split; [left|reflexivity]|]. vm_compute. lia.
  - destruct (create_checkout_session_all_or_nothing stripe site alice one_parking festival
                parking_only Hnd eq_refl (Hparse one_parking parking_only eq_refl eq_refl)) as [_ Hfit].
    { exists parking. split_and!; [right; left|reflexivity|by vm_compute]. }
    destruct Hfit as (items & Hcalls & _); [|by exists items].
    intros t [Ht _]. repeat (apply elem_of_cons in Ht as [->|Ht]); [vm_compute; lia..|].
    by apply elem_of_nil in Ht.
Defined.

(** C3 as stated fails: bob, who holds no ticket, asks for no ticket, so no
    ticket type is over its limit, and yet the gateway is not called; and
    when he asks for two General tickets while the gateway cannot be
    reached, the gateway is called once and no order is created. *)
Lemma create_checkout_session_without_gateway_or_orders :
  Forall (λ t, int_of_field (nothing (tt_id t)) = Some 0%Z
               ∧ length (filter (λ o, order_ticket_type o = tt_id t
                                      ∧ owning_user o = user_id bob
                                      ∧ (order_state o = OrderCompleted
                                         ∨ order_state o = OrderPending))
                                (orders site)) + 0 ≤ max_per_user t)
         (ticket_types site)
  ∧ gateway_calls (create_checkout_session stripe site bob nothing) = []
  ∧ length (filter (λ o, order_ticket_type o = tt_id general ∧ owning_user o = user_id bob
                         ∧ (order_state o = OrderCompleted ∨ order_state o = OrderPending))
                   (orders site)) + 2 ≤ max_per_user general
  ∧ gateway_calls (create_checkout_session unreachable site bob two_general)
    = [SessionCreate [{| price := "price_ga"; quantity := 2 |}] "bob@example.org" 2]
  ∧ writes (create_checkout_session unreachable site bob two_general) = []
  ∧ response_of (create_checkout_session unreachable site bob two_general)
    = Raise GatewayError.
Proof.
  split_and!; [|reflexivity|vm_compute; lia|reflexivity..].
  repeat constructor; vm_compute; lia.
Qed.

Lemma finalizing_cs_2_twice :
  session_retrieve stripe "cs_2"
  = Some {| payment_status := "paid"; payment_intent := Some "pi_2"%string |}
  ∧ orders (run site (writes (checkout_success stripe site (Some "cs_2"%string))))
    = [ {| order_id := 2; order_ticket_type := 1; purchasing_user := 1; owning_user := 1;
           stripe_checkout_session_id := "cs_2";
           stripe_payment_intent_id := Some "pi_2"%string;
           order_state := OrderCompleted |};
        order1 ]
  ∧ run (run site (writes (checkout_success stripe site (Some "cs_2"%string))))
        (writes (checkout_success stripe
                   (run site (writes (checkout_success stripe site (Some "cs_2"%string))))
                   (Some "cs_2"%string)))
    = run site (writes (checkout_success stripe site (Some "cs_2"%string))).
Proof.
  split_and!; [reflexivity..|].
  apply (checkout_success_is_idempotent stripe stripe site "cs_2"
           {| payment_status := "paid"; payment_intent := Some "pi_2"%string |});
    done.
Defined.

Lemma carol_needs_a_ticket :
  get_active site = Some festival ∧ ¬ has_ticket site festival carol
  ∧ response_of (shift_signup site carol 99) = Redirect ShiftsPage TicketRequired.
Proof.
  assert (¬ has_ticket site festival carol) as Hno.
  { unfold has_ticket. vm_compute. intros Hx. by apply Hx. }
  split_and!; [reflexivity|done|].
  destruct (shift_signup_reports_first_failed_check site carol 99) as [_ Hev].
  destruct (Hev festival eq_refl) as (Hticket & _). by apply Hticket.
Defined.

(** C5 as stated fails: carol holds no ticket and asks for a shift that
    does not exist; the order of the specification answers not-found, the
    view answers that a ticket is required. *)
Lemma shift_signup_asks_for_ticket_before_shift :
  get_active site = Some festival
  ∧ event_shift site festival 99 = None
  ∧ response_of (signup_as_specified site carol 99) = Http404
  ∧ response_of (shift_signup site carol 99) = Redirect ShiftsPage TicketRequired
  ∧ response_of (shift_signup site carol 99)
    ≠ response_of (signup_as_specified site carol 99).
Proof. by vm_compute. Qed.

Lemma site_grid_rows :
  get_active site = Some festival
  ∧ ∃ ctx, Grid.shifts site alice = inr ctx
           ∧ Grid.hour <$> Grid.ctx_grid ctx = Grid.ctx_hours ctx
           ∧ ∀ h, h ∈ Grid.shift_hours morning →
                  ∃ row, row ∈ Grid.ctx_grid ctx ∧ Grid.hour row = h.
Proof.
  split; [reflexivity|].
  destruct shifts_grid_hours_and_rowspans as [Hgrid _].
  destruct (Hgrid site alice festival morning [noon]) as (ctx & Hctx & Hrest);
    [reflexivity|by vm_compute|reflexivity|].
  exists ctx. split; [done|]. destruct Hrest as (_ & _ & _ & _ & _ & Hrows & Hshift).
  split; [done|]. intros h Hh.
  destruct (Hshift [] morning [noon] eq_refl) as (_ & _ & Hcovered & _).
  by destruct (Hcovered h Hh).
Defined.

(** C6 as stated fails: of two shifts of one role that do not overlap in
    time, 10:00-10:30 and 10:30-11:00, only the later one has a cell. *)
Lemma shifts_grid_drops_a_shift_sharing_an_hour :
  (end_time early ≤ start_time late)%Z
  ∧ shift_role early = shift_role late
  ∧ Grid.shifts (with_shifts [early; late]) alice
    = inr {| Grid.ctx_roles := [kitchen];
             Grid.ctx_grid :=
               [ {| Grid.hour := 10 * Grid.HOUR;
                    Grid.cells := [Grid.ShiftStart late 1 false] |} ];
             Grid.ctx_hours := [(10 * Grid.HOUR)%Z];
             Grid.ctx_has_ticket := true;
             Grid.ctx_user_shift_count := 0;
             Grid.ctx_can_signup_more := true |}.
Proof. split_and!; by vm_compute. Qed.

Lemma morning_never_overbooked :
  well_keyed site ∧ morning ∈ Model.shifts site
  ∧ (0 ≤ spots_remaining site morning)%Z
  ∧ (0 ≤ spots_remaining
           (serve_all site [ShiftSignup alice 1; ShiftSignup bob 1; ShiftCancel alice 1])
           morning)%Z.
Proof.
  assert (morning ∈ Model.shifts site) as Hin by left.
  assert (0 ≤ spots_remaining site morning)%Z as Hcap by (by vm_compute).
  split_and!; [apply site_well_keyed|done..|].
  destruct (spots_remaining_never_negative site) as (_ & Hkept & _).
  apply Hkept; [apply site_well_keyed|done..].
Defined.

Lemma carol_offers_order4_to_bob :
  length (filter (λ o, order_ticket_type o = 1 ∧ owning_user o = user_id bob
                       ∧ (order_state o = OrderCompleted ∨ order_state o = OrderPending))
                 (orders busy_site)) = 1
  ∧ length (filter (λ t, to_email t = "bob@example.org"%string
                         ∧ transfer_state t = TransferPending
                         ∧ Exists (λ o, order_id o = transfer_order t
                                        ∧ order_ticket_type o = 1) (orders busy_site))
                   (transfers busy_site)) = 1
  ∧ max_per_user general = 2
  ∧ (response_of (transfer_ticket busy_site carol 4 (Some " Bob@Example.org "%string))
     = Redirect MyTickets RecipientAtLimit
     ∧ writes (transfer_ticket busy_site carol 4 (Some " Bob@Example.org "%string)) = []
     ∧ transfers (run busy_site
                    (writes (transfer_ticket busy_site carol 4
                               (Some " Bob@Example.org "%string))))
       = transfers busy_site)
  ∧ writes (transfer_ticket (serve busy_site (RejectTransfer bob 1)) carol 4
              (Some " Bob@Example.org "%string))
    = [TransferCreate 4 3 "bob@example.org" 2].
Proof.
  assert (∀ db, orders db = orders busy_site → NoDup (order_id <$> orders db)) as Hnd.
  { intros db ->. apply (bool_decide_unpack _). by vm_compute. }
  split_and!; [reflexivity..| |].
  - destruct (transfer_ticket_checks_recipient_first busy_site carol 4
                (Some " Bob@Example.org "%string) (Hnd _ eq_refl)) as [_ Hreach].
    destruct (Hreach order4 bob general) as [Hfull _];
      [reflexivity|reflexivity|done..|reflexivity|reflexivity|].
    apply Hfull. vm_compute. lia.
  - destruct (transfer_ticket_checks_recipient_first
                (serve busy_site (RejectTransfer bob 1)) carol 4
                (Some " Bob@Example.org "%string) (Hnd _ eq_refl)) as [_ Hreach].
    destruct (Hreach order4 bob general) as [_ Hfree];
      [reflexivity|reflexivity|done..|reflexivity|reflexivity|].
    apply Hfree. vm_compute. lia.
Defined.

Lemma marker_has_no_cell :
  Grid.rounded_up (end_time marker) = Grid.on_the_hour (start_time marker)
  ∧ Grid.shift_hours marker = []
  ∧ ∃ ctx, Grid.shifts (with_shifts [morning; instant]) alice = inr ctx
           ∧ ∃ row, row ∈ Grid.ctx_grid ctx
                    ∧ Grid.hour row = Grid.on_the_hour (start_time instant).
Proof.
  split; [reflexivity|].
  destruct shift_without_hours_has_no_cell as (Hnone & _ & Hone & _). split.
  - destruct (Hnone (with_shifts [morning; marker]) alice festival morning [marker] marker)
      as (ctx & _ & Hhours & _);
      [reflexivity|by vm_compute|reflexivity|by right; left|by vm_compute|].
    exact Hhours.
  - destruct (Hone (with_shifts [morning; instant]) alice festival morning [instant]
                [morning] instant [])
      as (ctx & Hctx & _ & Hrow & _);
      [reflexivity|by vm_compute|reflexivity|reflexivity|reflexivity|by vm_compute| |].
    + by intros other ?%elem_of_nil.
    + by exists ctx.
Defined.

(** C9 as stated fails: a shift 13:30-13:30 followed by a shift 13:45-14:00 of
    the same role has no cell; the row of 13:00 holds the later shift. *)
Lemma zero_duration_shift_hidden_by_a_later_shift :
  start_time instant = end_time instant
  ∧ (start_time instant mod Grid.HOUR ≠ 0)%Z
  ∧ (end_time instant ≤ start_time brief)%Z
  ∧ shift_role instant = shift_role brief
  ∧ Grid.shifts (with_shifts [instant; brief]) alice
    = inr {| Grid.ctx_roles := [kitchen];
             Grid.ctx_grid :=
               [ {| Grid.hour := 13 * Grid.HOUR;
                    Grid.cells := [Grid.ShiftStart brief 1 false] |} ];
             Grid.ctx_hours := [(13 * Grid.HOUR)%Z];
             Grid.ctx_has_ticket := true;
             Grid.ctx_user_shift_count := 0;
             Grid.ctx_can_signup_more := true |}.
Proof. split_and!; by vm_compute. Qed.

Lemma empty_form_is_sent_back :
  get_active site = Some festival
  ∧ response_of (create_checkout_session stripe site bob nothing)
    = Redirect TicketsPage SelectAtLeastOne.
Proof.
  split; [reflexivity|].
  destruct (create_checkout_session_reads_event_quantities stripe site bob nothing)
    as [_ Hnone].
  apply (Hnone festival eq_refl). intros t Ht. vm_compute in Ht.
  repeat (apply elem_of_cons in Ht as [->|Ht]).
  - right. exists 0%Z. by split.
  - by left.
  - by apply elem_of_nil in Ht.
Defined.
End OnTheExampleSite.

(** ** Activating an event *)

Section EventSave.
Import Events.

Lemma deactivate_others_ids self events :
  event_id <$> deactivate_others self events = event_id <$> events.
Proof.
  unfold deactivate_others. rewrite <- list_fmap_compose. apply list_fmap_ext.
  intros i e _. simpl. by case_decide.
Qed.

Lemma active_app l1 l2 : active (l1 ++ l2) = active l1 ++ active l2.
Proof. apply filter_app. Qed.

(** After the UPDATE of the others, only a row with the instance's key can
    still be active. *)
Lemma active_deactivate_others_absent self events :
  event_id self ∉ event_id <$> events → active (deactivate_others self events) = [].
Proof.
  induction events as [|x l IH]; intros Hid; [done|].
  rewrite fmap_cons in Hid. apply not_elem_of_cons in Hid as [Hx Hl].
  unfold deactivate_others, active in *. rewrite fmap_cons, filter_cons.
  rewrite IH by done.
  destruct (decide (event_is_active x = true ∧ event_id x ≠ event_id self)) as [Hd|Hd].
  - by rewrite decide_False.
  - rewrite decide_False; [done|]. intros Hact. apply Hd. split; [done|congruence].
Qed.

Lemma active_deactivate_others_le self events :
  NoDup (event_id <$> events) → length (active (deactivate_others self events)) ≤ 1.
Proof.
  induction events as [|x l IH]; intros Hnd; [simpl; lia|].
  rewrite fmap_cons in Hnd. apply NoDup_cons in Hnd as [Hx Hnd].
  change (deactivate_others self (x :: l))
    with ((if decide (event_is_active x = true ∧ event_id x ≠ event_id self)
           then deactivated x else x) :: deactivate_others self l).
  unfold active. rewrite filter_cons. fold (active (deactivate_others self l)).
  destruct (decide (event_id x = event_id self)) as [Hid|Hid].
  - rewrite active_deactivate_others_absent by (by rewrite <- Hid).
    repeat case_decide; simpl; lia.
  - specialize (IH Hnd).
    destruct (decide (event_is_active x = true ∧ event_id x ≠ event_id self)) as [Hd|Hd].
    + by rewrite decide_False.
    + rewrite decide_False; [done|]. intros Hact. by apply Hd.
Qed.

Lemma active_saved_absent self l :
  event_id self ∉ event_id <$> l → active l = [] →
  active (saved event_id self <$> l) = [].
Proof.
  intros Hid Hnone. rewrite saved_absent; [done|].
  intros x Hx Hk. apply Hid. rewrite <- Hk. apply list_elem_of_fmap. eauto.
Qed.

Lemma active_saved_present self l :
  event_is_active self = true → NoDup (event_id <$> l) →
  event_id self ∈ event_id <$> l →
  (∀ e, e ∈ active l → event_id e = event_id self) →
  active (saved event_id self <$> l) = [self].
Proof.
  intros Hact. induction l as [|x l IH]; intros Hnd Hin Honly.
  { by apply elem_of_nil in Hin. }
  rewrite fmap_cons in Hnd, Hin. apply NoDup_cons in Hnd as [Hx Hnd].
  rewrite fmap_cons. unfold active in *. rewrite filter_cons.
  destruct (decide (event_id x = event_id self)) as [Hid|Hid].
  - assert (saved event_id self x = self) as -> by (unfold saved; by rewrite decide_True).
    rewrite decide_True by done. f_equal.
    apply (active_saved_absent self l); [by rewrite <- Hid|].
    apply elem_of_nil_inv. intros e He.
    assert (event_id e = event_id self) as Hk.
    { apply Honly. rewrite filter_cons. case_decide; [by right|done]. }
    apply Hx. rewrite Hid, <- Hk. apply list_elem_of_fmap.
    apply list_elem_of_filter in He as [_ He]. eauto.
  - assert (saved event_id self x = x) as -> by (unfold saved; by rewrite decide_False).
    rewrite decide_False.
    + apply IH; [done| |].
      * apply elem_of_cons in Hin as [Hin|Hin]; [congruence|done].
      * intros e He. apply Honly. rewrite filter_cons. case_decide; [by right|done].
    + intros Hx'. apply Hid. apply Honly. rewrite filter_cons_True by done. by left.
Qed.

Lemma active_deactivate_others_only self events e :
  e ∈ active (deactivate_others self events) → event_id e = event_id self.
Proof.
  unfold active, deactivate_others.
  intros [Hact (x & -> & Hx)%list_elem_of_fmap]%list_elem_of_filter.
  destruct (decide (event_is_active x = true ∧ event_id x ≠ event_id self)) as [Hd|Hd];
    [done|].
  destruct (decide (event_id x = event_id self)); [done|]. exfalso. by apply Hd.
Qed.

Lemma active_inserted place self l :
  active (take place l ++ self :: drop place l)
  = active (take place l) ++ active [self] ++ active (drop place l).
Proof.
  change (self :: drop place l) with ([self] ++ drop place l).
  by rewrite !active_app.
Qed.

Lemma active_take_drop place l : active (take place l) ++ active (drop place l) = active l.
Proof. by rewrite <- active_app, take_drop. Qed.

(** X1.  [Event.save] on a table with unique keys: saving an event flagged
    active leaves it as the only active event, whatever was active before;
    at every statement of a save that activates, at most one event is
    active; a save that does not activate never raises the number of active
    events and leaves the saved event inactive; keys stay unique. *)
Theorem event_save_keeps_one_active place self events :
  NoDup (event_id <$> events) →
  (event_is_active self = true →
     active (save place self events) = [self]
     ∧ (∀ db, get_active (with_events db (save place self events)) = Some self)
     ∧ ∀ step, step ∈ save_steps place self events → length (active step) ≤ 1)
  ∧ (event_is_active self = false →
     save_steps place self events = [save place self events]
     ∧ length (active (save place self events)) ≤ length (active events)
     ∧ ∀ e, e ∈ active (save place self events) → event_id e ≠ event_id self)
  ∧ NoDup (event_id <$> save place self events).
Proof.
  intros Hnd.
  assert (Hnd' : NoDup (event_id <$> deactivate_others self events))
    by (by rewrite deactivate_others_ids).
  assert (Hon : event_is_active self = true →
                active (store_row place self (deactivate_others self events)) = [self]).
  { intros Hact. unfold store_row. case_decide as Hin.
    - apply active_saved_present; [done..|]. apply active_deactivate_others_only.
    - rewrite active_inserted. unfold active at 2. rewrite filter_cons_True by done.
      pose proof (active_take_drop place (deactivate_others self events)) as Htd.
      rewrite active_deactivate_others_absent in Htd
        by (by rewrite <- (deactivate_others_ids self)).
      apply app_eq_nil in Htd as [-> ->]. done. }
  split_and!.
  - intros Hact. unfold save, save_steps. rewrite Hact. split_and!.
    + by apply Hon.
    + intros db. unfold get_active. simpl. fold (active (store_row place self
        (deactivate_others self events))). by rewrite Hon.
    + intros step [->|[->|?%elem_of_nil]%elem_of_cons]%elem_of_cons; [|by rewrite Hon|done].
      by apply active_deactivate_others_le.
  - intros Hoff. unfold save, save_steps. rewrite Hoff. split_and!; [done| |].
    + unfold store_row. case_decide.
      * apply (count_saved_out event_id). by rewrite Hoff.
      * rewrite active_inserted. unfold active at 2. rewrite filter_cons_False
          by (by rewrite Hoff). rewrite filter_nil. simpl.
        by rewrite active_take_drop.
    + intros e [Hact He]%list_elem_of_filter Hid. unfold store_row in He.
      case_decide.
      * apply list_elem_of_fmap in He as (x & -> & _). unfold saved in *.
        case_decide; congruence.
      * apply elem_of_app in He as [He|[->|He]%elem_of_cons]; [|congruence|].
        -- apply subseteq_take in He.
           assert (event_id e ∈ event_id <$> events) by (apply list_elem_of_fmap; eauto).
           congruence.
        -- apply subseteq_drop in He.
           assert (event_id e ∈ event_id <$> events) by (apply list_elem_of_fmap; eauto).
           congruence.
  - assert (Hrow : ∀ l, NoDup (event_id <$> l) → NoDup (event_id <$> store_row place self l)).
    { intros l Hl. unfold store_row. case_decide as Hin.
      - rewrite <- list_fmap_compose. erewrite list_fmap_ext; [exact Hl|].
        intros i x _. simpl. apply saved_key.
      - rewrite fmap_app, fmap_cons, fmap_take, fmap_drop.
        rewrite <- Permutation_middle, take_drop. by apply NoDup_cons. }
    unfold save. destruct (event_is_active self); by apply Hrow.
Qed.
End EventSave.

(** ** Transfers over time *)

Section TransferLifecycle.
Import Tickets Transfers Shifts Site Lifecycle.

Lemma run_transfers db ws :
  Forall (λ w, writes_transfers w = false) ws →
  transfers (run db ws) = transfers db
  ∧ next_transfer_id (run db ws) = next_transfer_id db.
Proof.
  revert db. induction ws as [|w ws IH]; intros db Hws; [done|].
  apply Forall_cons in Hws as [Hw Hws]. rewrite run_cons.
  destruct (IH (apply_write db w) Hws) as [-> ->]. by destruct w.
Qed.

(** Every view saves a transfer only as accepted or rejected. *)
Lemma handle_saves_settled db r :
  Forall (λ w, match w with
               | TransferSave t => transfer_state t ≠ TransferPending
               | _ => True
               end) (writes (handle db r)).
Proof.
  destruct r as [gw u post|gw sid|u o e|u i|u i|u i|u i|u i]; cbn [handle].
  - unfold create_checkout_session. repeat (case_match; try done); try by constructor.
    simpl. apply Forall_fmap, Forall_forall. done.
  - unfold checkout_success. repeat (case_match; try done); by repeat constructor.
  - unfold transfer_ticket. repeat (case_match; try done); by repeat constructor.
  - unfold accept_transfer. repeat (case_match; try done); by repeat constructor.
  - unfold reject_transfer. repeat (case_match; try done); by repeat constructor.
  - unfold rescind_transfer. repeat (case_match; try done); by repeat constructor.
  - unfold shift_signup. repeat (case_match; try done); by repeat constructor.
  - unfold shift_cancel. repeat (case_match; try done); by repeat constructor.
Qed.

Lemma settled_apply_write db w i :
  settled db i →
  match w with
  | TransferSave t => transfer_state t ≠ TransferPending
  | _ => True
  end →
  settled (apply_write db w) i.
Proof.
  intros [Hlt Hnone] Hw. destruct w; try done; split; simpl; try lia.
  - intros t [->|Ht]%elem_of_cons; simpl; [lia|by apply Hnone].
  - intros x (y & -> & Hy)%list_elem_of_fmap. unfold saved.
    case_decide; [done|by apply Hnone].
  - intros x [_ Hx]%list_elem_of_filter. by apply Hnone.
Qed.

Lemma settled_run db ws i :
  settled db i →
  Forall (λ w, match w with
               | TransferSave t => transfer_state t ≠ TransferPending
               | _ => True
               end) ws →
  settled (run db ws) i.
Proof.
  revert db. induction ws as [|w ws IH]; intros db Hs Hws; [done|].
  apply Forall_cons in Hws as [Hw Hws]. rewrite run_cons.
  apply IH; [|done]. by apply settled_apply_write.
Qed.

Lemma settled_serve_all db rs i : settled db i → settled (serve_all db rs) i.
Proof.
  revert db. induction rs as [|r rs IH]; intros db Hs; [done|].
  apply IH. apply settled_run; [done|]. apply handle_saves_settled.
Qed.

Lemma settled_not_found db i :
  settled db i →
  ∀ u, incoming_transfer db u i = None ∧ outgoing_transfer db u i = None.
Proof.
  intros [_ Hnone] u. split.
  - destruct (incoming_transfer db u i) as [t|] eqn:Ht; [|done].
    apply first_Some in Ht as (Hin & Hid & _ & Hpending). by apply Hnone in Hin.
  - destruct (outgoing_transfer db u i) as [t|] eqn:Ht; [|done].
    apply first_Some in Ht as (Hin & Hid & _ & Hpending). by apply Hnone in Hin.
Qed.

(** X2.  Accepted, rejected and rescinded are final.  In a store whose
    transfer ids are below the sequence, once an accept, a reject or a rescind
    of transfer [i] has gone through, every later accept, reject or rescind
    of [i], by anyone and after any further requests, is answered 404 and
    writes nothing. *)
Theorem settled_transfer_is_never_found_again db r rs u i v :
  (∀ t, t ∈ transfers db → transfer_id t < next_transfer_id db) →
  r ∈ [AcceptTransfer u i; RejectTransfer u i; RescindTransfer u i] →
  writes (handle db r) ≠ [] →
  let db' := serve_all (serve db r) rs in
  accept_transfer db' v i = reply Http404
  ∧ reject_transfer db' v i = reply Http404
  ∧ rescind_transfer db' v i = reply Http404.
Proof.
  intros Hkeys Hr Hwrote db'.
  assert (settled (serve db r) i) as Hsettled.
  { unfold serve.
    apply elem_of_cons in Hr as [->|Hr]; [|apply elem_of_cons in Hr as [->|Hr]];
      [| |apply list_elem_of_singleton in Hr as ->]; cbn [handle] in *.
    - unfold accept_transfer in *.
      destruct (incoming_transfer db u i) as [t|] eqn:Ht; [|done].
      apply first_Some in Ht as (Hin & Hid & _).
      destruct (order_of db t) as [o|]; [|done].
      destruct (ticket_type_of db o) as [ty|]; [|done].
      case_decide; [done|]. split; simpl; [rewrite <- Hid; by apply Hkeys|].
      intros x (y & -> & Hy)%list_elem_of_fmap Hx. rewrite saved_key in Hx.
      unfold saved. rewrite decide_True by (simpl; congruence). done.
    - unfold reject_transfer in *.
      destruct (incoming_transfer db u i) as [t|] eqn:Ht; [|done].
      apply first_Some in Ht as (Hin & Hid & _).
      split; simpl; [rewrite <- Hid; by apply Hkeys|].
      intros x (y & -> & Hy)%list_elem_of_fmap Hx. rewrite saved_key in Hx.
      unfold saved. rewrite decide_True by (simpl; congruence). done.
    - unfold rescind_transfer in *.
      destruct (outgoing_transfer db u i) as [t|] eqn:Ht; [|done].
      apply first_Some in Ht as (Hin & Hid & _).
      split; simpl; [rewrite <- Hid; by apply Hkeys|].
      intros x [Hne _]%list_elem_of_filter Hx. congruence. }
  pose proof (settled_not_found db' i (settled_serve_all _ rs i Hsettled) v) as [Hi Ho].
  unfold accept_transfer, reject_transfer, rescind_transfer. by rewrite Hi, Ho.
Qed.

Lemma length_filter_and {A} (P Q : A → Prop)
    `{!∀ x, Decision (P x)} `{!∀ x, Decision (Q x)} (l : list A) :
  length (filter (λ x, P x ∧ Q x) l) ≤ length (filter P l).
Proof.
  induction l as [|x l IH]; [done|]. rewrite !filter_cons.
  destruct (decide (P x)) as [HP|HP].
  - destruct (decide (P x ∧ Q x)); simpl; lia.
  - rewrite decide_False by tauto. done.
Qed.

Lemma pending_for_apply_write db w o :
  length (pending_for db o) ≤ 1 →
  match w with
  | TransferSave t => transfer_state t ≠ TransferPending
  | TransferCreate order _ _ _ => pending_for db order = []
  | _ => True
  end →
  length (pending_for (apply_write db w) o) ≤ 1.
Proof.
  intros Hone Hw. unfold pending_for in *.
  destruct w as [| | |order ? ? ?|t|id| |]; try done; simpl.
  - rewrite filter_cons. simpl. case_decide as Hnew; [|done].
    destruct Hnew as [-> _]. by rewrite Hw.
  - etrans; [|exact Hone]. apply (count_saved_out transfer_id). by intros [_ ?].
  - rewrite list_filter_filter. etrans; [|exact Hone]. apply length_filter_and.
Qed.

Lemma pending_for_same db db' o :
  transfers db' = transfers db → pending_for db' o = pending_for db o.
Proof. unfold pending_for. by intros ->. Qed.

Lemma pending_serve db r o :
  length (pending_for db o) ≤ 1 → length (pending_for (serve db r) o) ≤ 1.
Proof.
  intros Hone. unfold serve.
  destruct r as [gw u post|gw sid|u ord e|u i|u i|u i|u i|u i]; cbn [handle].
  - rewrite (pending_for_same db); [done|]. apply run_transfers.
    unfold create_checkout_session. repeat (case_match; try done).
    simpl. apply Forall_fmap, Forall_forall. done.
  - rewrite (pending_for_same db); [done|]. apply run_transfers.
    unfold checkout_success. repeat (case_match; try done). by repeat constructor.
  - unfold transfer_ticket.
    destruct (head (filter _ (orders db))) as [order|]; [|done].
    case_decide as Hp; [done|]. repeat (case_match; try done). cbn [writes].
    change (run db [?w]) with (apply_write db w).
    apply pending_for_apply_write; [done|]. unfold pending_for.
    by destruct (filter _ (transfers db)).
  - unfold accept_transfer. repeat (case_match; try done). cbn [writes].
    change (run db [?w1; ?w2]) with (apply_write (apply_write db w1) w2).
    apply pending_for_apply_write; [|done].
    by apply pending_for_apply_write.
  - unfold reject_transfer. repeat (case_match; try done). cbn [writes].
    change (run db [?w]) with (apply_write db w).
    by apply pending_for_apply_write.
  - unfold rescind_transfer. repeat (case_match; try done). cbn [writes].
    change (run db [?w]) with (apply_write db w).
    by apply pending_for_apply_write.
  - rewrite (pending_for_same db); [done|]. apply run_transfers.
    unfold shift_signup. repeat (case_match; try done). by repeat constructor.
  - rewrite (pending_for_same db); [done|]. apply run_transfers.
    unfold shift_cancel. repeat (case_match; try done). by repeat constructor.
Qed.

(** X3.  An order has at most one pending transfer: if that holds for an
    order, it holds after any sequence of requests. *)
Theorem at_most_one_pending_transfer_per_order db rs o :
  length (pending_for db o) ≤ 1 → length (pending_for (serve_all db rs) o) ≤ 1.
Proof.
  revert db. induction rs as [|r rs IH]; intros db Hone; [done|].
  apply IH. by apply pending_serve.
Qed.
End TransferLifecycle.

(** ** Orders over time *)

Section OrderLifecycle.
Import Tickets Transfers Shifts Site Lifecycle.

Lemma later_refl o : later o o.
Proof. unfold later. tauto. Qed.

Lemma later_trans o1 o2 o3 : later o1 o2 → later o2 o3 → later o1 o3.
Proof.
  unfold later. intros (? & ? & ? & ? & H12) (? & ? & ? & ? & H23).
  split_and!; try congruence.
  destruct H12 as [H12|[Ha Hb]], H23 as [H23|[Hb' Hc]]; try (left; congruence);
    try (right; split; congruence).
Qed.

Lemma later_not_cancelled o o' :
  later o o' → order_state o ≠ OrderCancelled → order_state o' ≠ OrderCancelled.
Proof. intros (_ & _ & _ & _ & [Hs|[_ Hs]]) Hne; congruence. Qed.

Lemma moved_on_refl db : moved_on db db.
Proof.
  split_and!; [done|intros o Ho; exists o; split; [done|apply later_refl]|].
  intros x Hx. left. exists x. split; [done|apply later_refl].
Qed.

Lemma moved_on_trans db1 db2 db3 : moved_on db1 db2 → moved_on db2 db3 → moved_on db1 db3.
Proof.
  intros (Hn12 & Hk12 & Hf12) (Hn23 & Hk23 & Hf23). split_and!; [lia| |].
  - intros o Ho. destruct (Hk12 o Ho) as (o2 & Ho2 & Hl2).
    destruct (Hk23 o2 Ho2) as (o3 & Ho3 & Hl3).
    exists o3. split; [done|]. by eapply later_trans.
  - intros x Hx. destruct (Hf23 x Hx) as [(y & Hy & Hyx)|[Hnew Hstate]].
    + destruct (Hf12 y Hy) as [(o & Ho & Hoy)|[Hnew Hstate]].
      * left. exists o. split; [done|]. by eapply later_trans.
      * right. split; [|by eapply later_not_cancelled].
        destruct Hyx as (Hid & _). lia.
    + right. split; [lia|done].
Qed.

Lemma moved_on_same db db' :
  orders db' = orders db → next_order_id db' = next_order_id db → moved_on db db'.
Proof.
  intros Hos Hn. unfold moved_on. rewrite Hos, Hn. apply moved_on_refl.
Qed.

(** One write moves the Order table on, when a saved order is a row of the
    table at a later time. *)
Lemma moved_on_apply_write db w :
  NoDup (order_id <$> orders db) →
  match w with
  | OrderSave s => ∃ o, o ∈ orders db ∧ later o s
  | _ => True
  end →
  moved_on db (apply_write db w).
Proof.
  intros Hnd Hw.
  destruct w as [ty b ow se|se it|s| | | | |]; try by apply moved_on_same.
  - split_and!; simpl; [lia| |].
    + intros o Ho. exists o. split; [by right|apply later_refl].
    + intros x [->|Hx]%elem_of_cons; [by right|].
      left. exists x. split; [done|apply later_refl].
  - assert (Hl : ∀ o, later o (complete_order se it o)).
    { intros o. unfold complete_order. case_decide as Hc; [|apply later_refl].
      unfold later. simpl. destruct Hc as [_ ->]. tauto. }
    split_and!; simpl; [lia| |].
    + intros o Ho. exists (complete_order se it o). split; [|done].
      apply list_elem_of_fmap. eauto.
    + intros x (o & -> & Ho)%list_elem_of_fmap. left. eauto.
  - destruct Hw as (orig & Horig & Hlater).
    assert (Hl : ∀ o, o ∈ orders db → later o (saved order_id s o)).
    { intros o Ho. unfold saved. case_decide as Hk; [|apply later_refl].
      assert (o = orig) as ->; [|done].
      apply (key_inj order_id (orders db)); [done..|].
      destruct Hlater as (Hid & _). congruence. }
    split_and!; simpl; [lia| |].
    + intros o Ho. exists (saved order_id s o). split; [|by apply Hl].
      apply list_elem_of_fmap. eauto.
    + intros x (o & -> & Ho)%list_elem_of_fmap. left. eauto.
Qed.

Lemma moved_on_run db ws :
  well_keyed db →
  Forall (λ w, match w with OrderSave _ => False | _ => True end) ws →
  moved_on db (run db ws).
Proof.
  revert db. induction ws as [|w ws IH]; intros db Hk Hws; [apply moved_on_refl|].
  apply Forall_cons in Hws as [Hw Hws]. rewrite run_cons.
  eapply moved_on_trans.
  - apply (moved_on_apply_write db w); [apply Hk|by destruct w].
  - apply IH; [by apply well_keyed_apply_write|done].
Qed.

Lemma moved_on_serve db r : well_keyed db → moved_on db (serve db r).
Proof.
  intros Hk. unfold serve.
  destruct r as [gw u post|gw sid|u ord e|u i|u i|u i|u i|u i]; cbn [handle].
  - apply moved_on_run; [done|]. unfold create_checkout_session.
    repeat (case_match; try done). simpl. apply Forall_fmap, Forall_forall. done.
  - apply moved_on_run; [done|]. unfold checkout_success.
    repeat (case_match; try done). by repeat constructor.
  - apply moved_on_run; [done|]. unfold transfer_ticket.
    repeat (case_match; try done). by repeat constructor.
  - unfold accept_transfer.
    destruct (incoming_transfer db u i) as [t|]; [|apply moved_on_refl].
    destruct (order_of db t) as [o|] eqn:Ho; [|apply moved_on_refl].
    destruct (ticket_type_of db o) as [ty|]; [|apply moved_on_refl].
    case_decide; [apply moved_on_refl|]. cbn [writes].
    change (run db [?w1; ?w2]) with (apply_write (apply_write db w1) w2).
    eapply moved_on_trans.
    + apply (moved_on_apply_write db (OrderSave (reassigned o u))); [apply Hk|].
      apply first_Some in Ho as [Hin _]. exists o. split; [done|].
      unfold later. simpl. tauto.
    + apply (moved_on_apply_write _ (TransferSave (accepted t u))); [|done].
      apply (well_keyed_apply_write db (OrderSave (reassigned o u)) Hk).
  - apply moved_on_run; [done|]. unfold reject_transfer.
    repeat (case_match; try done). by repeat constructor.
  - apply moved_on_run; [done|]. unfold rescind_transfer.
    repeat (case_match; try done). by repeat constructor.
  - apply moved_on_run; [done|]. unfold shift_signup.
    repeat (case_match; try done). by repeat constructor.
  - apply moved_on_run; [done|]. unfold shift_cancel.
    repeat (case_match; try done). by repeat constructor.
Qed.

(** X4.  From a store with unique primary keys, through any sequence of
    requests: no order is ever deleted; the ticket type, the purchasing user
    and the checkout session of an order never change; its status stays as
    it is or goes from pending to completed; and an order created on the way
    is never cancelled.  (The owner is not part of this: see the next
    theorem.) *)
Theorem orders_are_kept_and_only_complete db rs :
  well_keyed db →
  (∀ o, o ∈ orders db →
        ∃ o', o' ∈ orders (serve_all db rs)
              ∧ order_id o' = order_id o
              ∧ order_ticket_type o' = order_ticket_type o
              ∧ purchasing_user o' = purchasing_user o
              ∧ stripe_checkout_session_id o' = stripe_checkout_session_id o
              ∧ (order_state o' = order_state o
                 ∨ (order_state o = OrderPending ∧ order_state o' = OrderCompleted)))
  ∧ (∀ x, x ∈ orders (serve_all db rs) → order_state x = OrderCancelled →
          ∃ o, o ∈ orders db ∧ order_id o = order_id x
               ∧ order_state o = OrderCancelled).
Proof.
  intros Hk.
  assert (moved_on db (serve_all db rs)) as (_ & Hkept & Hfrom).
  { revert db Hk. induction rs as [|r rs IH]; intros db Hk; [apply moved_on_refl|].
    eapply moved_on_trans; [by apply moved_on_serve|].
    apply IH. by apply well_keyed_serve. }
  split; [exact Hkept|].
  intros x Hx Hcancelled. destruct (Hfrom x Hx) as [(o & Ho & Hl)|[_ Hne]]; [|done].
  exists o. split; [done|]. destruct Hl as (Hid & _ & _ & _ & [Hs|[_ Hs]]); [|congruence].
  split; congruence.
Qed.

Lemma created_keys (tickets : list TicketType) db u session x :
  x ∈ orders (run db ((λ t, OrderCreate (tt_id t) (user_id u) (user_id u) session)
                      <$> tickets)) →
  x ∈ orders db ∨ next_order_id db ≤ order_id x.
Proof.
  revert db. induction tickets as [|t tickets IH]; intros db Hx; [by left|].
  rewrite fmap_cons, run_cons in Hx. apply IH in Hx as [Hx|Hx].
  - simpl in Hx. apply elem_of_cons in Hx as [->|Hx]; [right; simpl; lia|by left].
  - right. simpl in Hx. lia.
Qed.

(** X5.  Only an accepted transfer changes the owner of an order.  In a
    store with unique primary keys, if an order has another owner after a
    request than before, the request is an accept, by the new owner, of a
    pending transfer of that order addressed to the new owner's email. *)
Theorem only_accept_transfer_changes_the_owner db r o o' :
  well_keyed db →
  o ∈ orders db → o' ∈ orders (serve db r) → order_id o' = order_id o →
  owning_user o' ≠ owning_user o →
  ∃ u i transfer,
    r = AcceptTransfer u i
    ∧ incoming_transfer db u i = Some transfer
    ∧ transfer_order transfer = order_id o
    ∧ to_email transfer = user_email u
    ∧ owning_user o' = user_id u.
Proof.
  intros Hk Ho Ho' Hid Howner. pose proof Hk as (_ & Hnd & Hnext & _).
  assert (Hsame : o' ∈ orders db → False).
  { intros Hin. apply Howner. f_equal. by apply (key_inj order_id (orders db)). }
  unfold serve in Ho'.
  destruct r as [gw u post|gw sid|u ord e|u i|u i|u i|u i|u i]; cbn [handle] in Ho'.
  - exfalso. unfold create_checkout_session in Ho'.
    repeat (case_match; try by apply Hsame). simpl in Ho'.
    apply created_keys in Ho' as [Hin|Hnew]; [done|].
    apply Hnext in Ho. lia.
  - exfalso. unfold checkout_success in Ho'.
    destruct sid as [[|c sid]|]; [by apply Hsame| |by apply Hsame].
    destruct (session_retrieve gw (String c sid)) as [session|]; [|by apply Hsame].
    cbn [writes] in Ho'. case_decide; [|by apply Hsame].
    simpl in Ho'. apply list_elem_of_fmap in Ho' as (y & -> & Hy).
    assert (order_id (complete_order (String c sid) (payment_intent session) y)
            = order_id y
            ∧ owning_user (complete_order (String c sid) (payment_intent session) y)
              = owning_user y)
      as [Hi Hu] by (unfold complete_order; by case_decide).
    rewrite Hi in Hid. rewrite Hu in Howner.
    apply Howner. f_equal. by apply (key_inj order_id (orders db)).
  - exfalso. unfold transfer_ticket in Ho'. repeat (case_match; try by apply Hsame).
  - unfold accept_transfer in Ho'.
    destruct (incoming_transfer db u i) as [t|] eqn:Ht; [|by destruct Hsame].
    destruct (order_of db t) as [order|] eqn:Hor; [|by destruct Hsame].
    destruct (ticket_type_of db order) as [ty|]; [|by destruct Hsame].
    case_decide; [by destruct Hsame|]. simpl in Ho'.
    apply list_elem_of_fmap in Ho' as (y & -> & Hy). rewrite saved_key in Hid.
    assert (y = o) as -> by (by apply (key_inj order_id (orders db))).
    unfold saved in Howner |- *. case_decide as Hkey; [|done].
    apply first_Some in Hor as [_ Hto]. apply first_Some in Ht as Hfound.
    destruct Hfound as (_ & _ & Hemail & _).
    exists u, i, t. split_and!; try done. simpl in Hkey. congruence.
  - exfalso. unfold reject_transfer in Ho'. repeat (case_match; try by apply Hsame).
  - exfalso. unfold rescind_transfer in Ho'. repeat (case_match; try by apply Hsame).
  - exfalso. unfold shift_signup in Ho'. repeat (case_match; try by apply Hsame).
  - exfalso. unfold shift_cancel in Ho'. repeat (case_match; try by apply Hsame).
Qed.
End OrderLifecycle.

(** ** Signups over time *)

Section SignupLifecycle.
Import Tickets Transfers Shifts Site Lifecycle.

Lemma apply_write_static db w :
  events (apply_write db w) = events db
  ∧ roles (apply_write db w) = roles db
  ∧ Model.shifts (apply_write db w) = Model.shifts db
  ∧ users (apply_write db w) = users db.
Proof. by destruct w. Qed.

Lemma run_static db ws :
  events (run db ws) = events db
  ∧ roles (run db ws) = roles db
  ∧ Model.shifts (run db ws) = Model.shifts db
  ∧ users (run db ws) = users db.
Proof.
  revert db. induction ws as [|w ws IH]; intros db; [done|].
  rewrite run_cons. destruct (IH (apply_write db w)) as (-> & -> & -> & ->).
  apply apply_write_static.
Qed.

(** What the shift views read besides the assignments does not change. *)
Lemma shift_reads_static db db' :
  events db' = events db → roles db' = roles db → Model.shifts db' = Model.shifts db →
  get_active db' = get_active db
  ∧ (∀ ev i, event_shift db' ev i = event_shift db ev i)
  ∧ (∀ ev a, shift__role__event db' ev a ↔ shift__role__event db ev a).
Proof.
  intros He Hr Hs. split_and!.
  - unfold get_active. by rewrite He.
  - intros ev i. unfold event_shift. rewrite Hs. f_equal. apply filter_ext_in.
    intros s _. unfold role__event, role_of. by rewrite Hr.
  - intros ev a. unfold shift__role__event, shift_of, role_of. by rewrite Hs, Hr.
Qed.

Lemma filter_all {A} (P : A → Prop) `{!∀ x, Decision (P x)} (l : list A) :
  (∀ x, x ∈ l → P x) → filter P l = l.
Proof.
  induction l as [|x l IH]; intros HP; [done|].
  rewrite filter_cons_True by (apply HP; by left).
  f_equal. apply IH. intros y Hy. apply HP. by right.
Qed.

(** X6.  Signing up and then cancelling puts the assignments back.  In a
    store whose assignment ids are below the sequence, after a signup that
    went through, the same user's cancel for the same shift goes through and
    leaves the ShiftAssignment table, and so every shift's remaining spots,
    as before the signup. *)
Theorem signup_then_cancel_restores_assignments db u i :
  (∀ a, a ∈ assignments db → assignment_id a < next_assignment_id db) →
  writes (shift_signup db u i) ≠ [] →
  let signed := serve db (ShiftSignup u i) in
  response_of (shift_signup db u i) = Redirect ShiftsPage (SignedUp i)
  ∧ response_of (shift_cancel signed u i) = Redirect ShiftsPage (SignupCancelled i)
  ∧ assignments (serve signed (ShiftCancel u i)) = assignments db
  ∧ ∀ s, spots_remaining (serve signed (ShiftCancel u i)) s = spots_remaining db s.
Proof.
  intros Hkeys Hwrote signed. subst signed. unfold serve. cbn [handle].
  unfold shift_signup in *.
  destruct (get_active db) as [ev|] eqn:Hev; [|done].
  case_decide; [|done]. case_decide; [done|].
  destruct (event_shift db ev i) as [shift|] eqn:Hshift; [|done].
  destruct (decide (signup_of db shift u ≠ [])) as [Hdup|Hdup]; [done|].
  case_decide; [done|]. cbn [writes response_of].
  change (run db [?w]) with (apply_write db w).
  set (db1 := apply_write db (AssignmentCreate (shift_id shift) (user_id u))).
  apply first_Some in Hshift as Hid. destruct Hid as (_ & Hid & _).
  destruct (shift_reads_static db db1) as (Hev1 & Hshift1 & _); [done..|].
  assert (Hnone : signup_of db shift u = []).
  { destruct (signup_of db shift u); [done|]. exfalso. by apply Hdup. }
  assert (Hsigned : signup_of db1 shift u
                    = [{| assignment_id := next_assignment_id db;
                          assignment_shift := shift_id shift;
                          assignment_user := user_id u |}]).
  { unfold signup_of in *. simpl. rewrite filter_app, Hnone, filter_cons_True by done.
    done. }
  assert (Hback : assignments (run db1 (writes (shift_cancel db1 u i))) = assignments db).
  { unfold shift_cancel. rewrite Hev1, Hev, Hshift1, Hshift, Hsigned. simpl.
    rewrite filter_app, filter_cons_False, filter_nil, app_nil_r by (simpl; lia).
    apply filter_all. intros a Hin. apply Hkeys in Hin. lia. }
  split_and!.
  - by rewrite Hid.
  - unfold shift_cancel. rewrite Hev1, Hev, Hshift1, Hshift, Hsigned. simpl. by rewrite Hid.
  - done.
  - intros s. unfold spots_remaining, shift_assignments. by rewrite Hback.
Qed.
End SignupLifecycle.

Section SignupRules.
Import Tickets Transfers Shifts Site Lifecycle.

Lemma serve_static db r :
  events (serve db r) = events db
  ∧ roles (serve db r) = roles db
  ∧ Model.shifts (serve db r) = Model.shifts db
  ∧ users (serve db r) = users db.
Proof. apply run_static. Qed.

(** Requests other than the two shift views leave the assignments alone. *)
Lemma serve_assignments db r :
  match r with
  | ShiftSignup _ _ | ShiftCancel _ _ => True
  | _ => assignments (serve db r) = assignments db
  end.
Proof.
  destruct r as [gw u post|gw sid|u ord e|u i|u i|u i|u i|u i]; try done;
    unfold serve; cbn [handle]; apply run_assignments.
  - unfold create_checkout_session. repeat (case_match; try done).
    simpl. apply Forall_fmap, Forall_forall. done.
  - unfold checkout_success. repeat (case_match; try done). by repeat constructor.
  - unfold transfer_ticket. repeat (case_match; try done). by repeat constructor.
  - unfold accept_transfer. repeat (case_match; try done). by repeat constructor.
  - unfold reject_transfer. repeat (case_match; try done). by repeat constructor.
  - unfold rescind_transfer. repeat (case_match; try done). by repeat constructor.
Qed.

(** The assignments after a shift view: one row added, rows removed, or none. *)
Lemma assignments_after_signup db u i :
  assignments (serve db (ShiftSignup u i)) = assignments db
  ∨ ∃ ev shift,
      get_active db = Some ev ∧ event_shift db ev i = Some shift
      ∧ signup_of db shift u = []
      ∧ ¬ (0 < max_shifts_per_user ev ∧ max_shifts_per_user ev ≤ user_shift_count db ev u)
      ∧ assignments (serve db (ShiftSignup u i))
        = assignments db ++ [{| assignment_id := next_assignment_id db;
                                assignment_shift := shift_id shift;
                                assignment_user := user_id u |}].
Proof.
  unfold serve. cbn [handle]. unfold shift_signup.
  destruct (get_active db) as [ev|] eqn:Hev; [|by left].
  case_decide; [|by left]. case_decide as Hcap; [by left|].
  destruct (event_shift db ev i) as [shift|] eqn:Hshift; [|by left].
  destruct (decide (signup_of db shift u ≠ [])) as [Hdup|Hdup]; [by left|].
  case_decide; [by left|]. right. exists ev, shift. split_and!; try done.
  destruct (signup_of db shift u); [done|]. exfalso. by apply Hdup.
Qed.

Lemma assignments_after_cancel db u i :
  ∃ Q : ShiftAssignment → Prop, ∃ _ : ∀ a, Decision (Q a),
    assignments (serve db (ShiftCancel u i)) = filter Q (assignments db).
Proof.
  unfold serve. cbn [handle]. unfold shift_cancel.
  assert (∃ Q : ShiftAssignment → Prop, ∃ _ : ∀ a, Decision (Q a),
            assignments db = filter Q (assignments db)) as Hsame.
  { exists (λ _, True), _. symmetry. by apply filter_all. }
  destruct (get_active db) as [ev|]; [|done].
  destruct (event_shift db ev i) as [shift|]; [|done].
  destruct (head (signup_of db shift u)) as [a|]; [|done].
  simpl. eauto.
Qed.

Lemma length_filter_filter_le {A} (P Q : A → Prop)
    `{!∀ x, Decision (P x)} `{!∀ x, Decision (Q x)} (l : list A) :
  length (filter P (filter Q l)) ≤ length (filter P l).
Proof. rewrite list_filter_filter. apply length_filter_and. Qed.

Lemma signups_serve db r s v :
  length (signups db s v) ≤ 1 → length (signups (serve db r) s v) ≤ 1.
Proof.
  intros Hone. unfold signups in *. pose proof (serve_assignments db r) as Hsame.
  destruct r as [gw u post|gw sid|u ord e|u i|u i|u i|u i|u i];
    try (by rewrite Hsame).
  - destruct (assignments_after_signup db u i) as [->|(ev & shift & _ & _ & Hnone & _ & ->)];
      [done|].
    rewrite filter_app, length_app, filter_cons, filter_nil. simpl.
    case_decide as Hnew; simpl; [|lia]. destruct Hnew as [<- <-].
    unfold signup_of in Hnone. rewrite Hnone. simpl. lia.
  - destruct (assignments_after_cancel db u i) as (Q & HQ & ->).
    etrans; [apply length_filter_filter_le|done].
Qed.

(** X7.  A user is signed up for a shift at most once: if a shift and a user
    have at most one assignment between them, that stays so through any
    sequence of requests. *)
Theorem at_most_one_signup_per_shift_and_user db rs s v :
  length (signups db s v) ≤ 1 → length (signups (serve_all db rs) s v) ≤ 1.
Proof.
  revert db. induction rs as [|r rs IH]; intros db Hone; [done|].
  apply IH. by apply signups_serve.
Qed.

Lemma user_shift_count_static db db' ev v :
  roles db' = roles db → Model.shifts db' = Model.shifts db →
  user_shift_count db' ev v
  = length (filter (λ a, assignment_user a = user_id v ∧ shift__role__event db ev a)
                   (assignments db')).
Proof.
  intros Hr Hs. unfold user_shift_count. f_equal. apply filter_ext_in. intros a _.
  unfold shift__role__event, shift_of, role_of. by rewrite Hs, Hr.
Qed.

Lemma user_shift_count_serve db r ev v :
  get_active db = Some ev → 0 < max_shifts_per_user ev →
  user_shift_count db ev v ≤ max_shifts_per_user ev →
  user_shift_count (serve db r) ev v ≤ max_shifts_per_user ev.
Proof.
  intros Hev Hpos Hcap.
  destruct (serve_static db r) as (_ & Hr & Hs & _).
  rewrite (user_shift_count_static db) by done.
  pose proof (serve_assignments db r) as Hsame.
  destruct r as [gw u post|gw sid|u ord e|u i|u i|u i|u i|u i];
    try (by rewrite Hsame).
  - destruct (assignments_after_signup db u i)
      as [->|(ev' & shift & Hev' & _ & _ & Hfree & ->)]; [done|].
    assert (ev' = ev) as -> by congruence.
    rewrite filter_app, length_app, filter_cons, filter_nil.
    fold (user_shift_count db ev v). simpl.
    case_decide as Hnew; simpl; [|lia]. destruct Hnew as [Hu _].
    assert (user_shift_count db ev u = user_shift_count db ev v) as Hcount
      by (unfold user_shift_count; by rewrite Hu).
    lia.
  - destruct (assignments_after_cancel db u i) as (Q & HQ & ->).
    etrans; [apply length_filter_filter_le|done].
Qed.

(** X8.  The per-user shift cap holds over time: with an active event whose
    [max_shifts_per_user] is not zero, a user with at most that many
    assignments in the event's shifts has at most that many after any
    sequence of requests. *)
Theorem shift_cap_kept_by_every_sequence db rs ev v :
  get_active db = Some ev → 0 < max_shifts_per_user ev →
  user_shift_count db ev v ≤ max_shifts_per_user ev →
  user_shift_count (serve_all db rs) ev v ≤ max_shifts_per_user ev.
Proof.
  revert db. induction rs as [|r rs IH]; intros db Hev Hpos Hcap; [done|].
  apply IH; [|done|by apply user_shift_count_serve].
  destruct (serve_static db r) as (He & _). unfold get_active in *. by rewrite He.
Qed.
End SignupRules.

(** ** The shifts page *)

Section ShiftsPage.
Import Shifts Grid.
Local Open Scope Z_scope.

(** The three ways [shifts] renders its page. *)
Lemma shifts_context db u ctx :
  Grid.shifts db u = inr ctx →
  ∃ event,
    get_active db = Some event
    ∧ ctx_has_ticket ctx = bool_decide (has_ticket db event u)
    ∧ ctx_can_signup_more ctx
      = bool_decide (max_shifts_per_user event = 0%nat
                     ∨ (user_shift_count db event u < max_shifts_per_user event)%nat)
    ∧ ((ctx_grid ctx = [] ∧ ctx_hours ctx = []
        ∧ (ctx_roles ctx = []
           ∨ filter (λ s, role__event db event s) (Model.shifts db) = []))
       ∨ ∃ first others,
           filter (λ s, role__event db event s) (Model.shifts db) = first :: others
           ∧ ctx_roles ctx = filter (λ r, role_event r = event_id event) (roles db)
           ∧ ctx_hours ctx = hour_range (on_the_hour (min_time first others))
                                        (rounded_up (max_time first others))
           ∧ ctx_grid ctx
             = build_grid (ctx_roles ctx) (first :: others)
                 (list_to_set
                    (assignment_shift <$>
                     filter (λ a, assignment_user a = user_id u
                                  ∧ shift__role__event db event a) (assignments db)))
                 (ctx_hours ctx)).
Proof.
  unfold Grid.shifts. destruct (get_active db) as [event|]; [|done].
  intros Hctx. exists event. split; [done|].
  destruct (filter (λ r, role_event r = event_id event) (roles db)) as [|r rs] eqn:Hroles.
  { injection Hctx as <-. simpl. split_and!; try done. left. split_and!; try done. by left. }
  destruct (filter (λ s, role__event db event s) (Model.shifts db))
    as [|first others] eqn:Hall.
  { injection Hctx as <-. simpl. split_and!; try done. left. split_and!; try done. by right. }
  injection Hctx as <-. simpl. split_and!; try done. right. by exists first, others.
Qed.

(** X9.  The flags of the shifts page agree with what a signup then does.
    When the page says the user has no ticket, or cannot sign up for more
    shifts, no signup of that user writes anything; a signup that goes
    through was offered by both flags; and a shift shown as signed up cannot
    be signed up for again. *)
Theorem shifts_page_flags_agree_with_signup db u ctx :
  Grid.shifts db u = inr ctx →
  (ctx_has_ticket ctx = false → ∀ i, writes (shift_signup db u i) = [])
  ∧ (ctx_can_signup_more ctx = false → ∀ i, writes (shift_signup db u i) = [])
  ∧ (∀ i, writes (shift_signup db u i) ≠ [] →
          ctx_has_ticket ctx = true ∧ ctx_can_signup_more ctx = true)
  ∧ (∀ row s rowspan,
       row ∈ ctx_grid ctx → ShiftStart s rowspan true ∈ cells row →
       writes (shift_signup db u (shift_id s)) = []).
Proof.
  intros (event & Hev & Hticket & Hmore & Hgrid)%shifts_context.
  assert (Hno : ctx_has_ticket ctx = false → ∀ i, writes (shift_signup db u i) = []).
  { rewrite Hticket. intros Hnt%bool_decide_eq_false i. unfold shift_signup.
    by rewrite Hev, decide_False. }
  assert (Hfull : ctx_can_signup_more ctx = false →
                  ∀ i, writes (shift_signup db u i) = []).
  { rewrite Hmore. intros Hnm%bool_decide_eq_false i. unfold shift_signup.
    rewrite Hev. destruct (decide (has_ticket db event u)); [|done].
    rewrite decide_True; [done|]. lia. }
  split_and!; [done..| |].
  - intros i Hwrote. split.
    + destruct (ctx_has_ticket ctx); [done|]. exfalso. by apply Hwrote, Hno.
    + destruct (ctx_can_signup_more ctx); [done|]. exfalso. by apply Hwrote, Hfull.
  - intros row s rowspan Hrow Hcell.
    destruct Hgrid as [(Hnil & _)|(first & others & Hall & Hroles & Hhours & Hg)].
    { rewrite Hnil in Hrow. by apply elem_of_nil in Hrow. }
    rewrite Hg in Hrow. apply elem_of_build_grid in Hrow as [_ Hcells].
    rewrite Hcells in Hcell. apply list_elem_of_fmap in Hcell as (role & Hcell & _).
    unfold cell_at in Hcell.
    destruct (role_hour_shift (first :: others) !! (role_id role, hour row)) as [x|];
      [|done].
    case_decide; [|done]. injection Hcell as <- _ Hsigned. symmetry in Hsigned.
    apply bool_decide_eq_true in Hsigned.
    apply elem_of_list_to_set, list_elem_of_fmap in Hsigned as (a & Ha & Hin).
    apply list_elem_of_filter in Hin as [[Hu _] Hin].
    unfold shift_signup. rewrite Hev. repeat (case_match; try done).
    exfalso.
    match goal with H : event_shift db event (shift_id s) = Some ?x |- _ =>
      apply first_Some in H as (_ & Hid & _);
      assert (a ∈ signup_of db x u) as Hdup
        by (apply list_elem_of_filter; split; [split; congruence|done])
    end.
    match goal with H : ¬ (signup_of db _ u ≠ []) |- _ => apply H end.
    intros Hnil. rewrite Hnil in Hdup. by apply elem_of_nil in Hdup.
Qed.
End ShiftsPage.

Section GridShape.
Import Shifts Grid.
Local Open Scope Z_scope.

(** X10.  The grid [shifts] renders is a table: one row per hour, in the
    order of the hours, and in every row one cell per role.  A [shift_start]
    cell is in the row of its shift's start hour, carries a shift of the
    event, has the number of hours the shift covers as rowspan, which is at
    least 1, and the rows it spans are rows of the grid. *)
Theorem shifts_grid_is_a_table db u ctx :
  Grid.shifts db u = inr ctx →
  hour <$> ctx_grid ctx = ctx_hours ctx
  ∧ (∀ row, row ∈ ctx_grid ctx → length (cells row) = length (ctx_roles ctx))
  ∧ ∀ row s rowspan signed,
      row ∈ ctx_grid ctx → ShiftStart s rowspan signed ∈ cells row →
      hour row = on_the_hour (start_time s)
      ∧ s ∈ Model.shifts db
      ∧ rowspan = Z.of_nat (length (shift_hours s))
      ∧ 1 ≤ rowspan
      ∧ ∀ k : nat, Z.of_nat k < rowspan →
                   hour row + Z.of_nat k * HOUR ∈ ctx_hours ctx.
Proof.
  intros (event & Hev & _ & _ & Hgrid)%shifts_context.
  destruct Hgrid as [(Hnil & Hhours & _)|(first & others & Hall & Hroles & Hhours & Hg)].
  { rewrite Hnil, Hhours. split_and!; [done|by intros row ?%elem_of_nil|].
    by intros row s rowspan signed ?%elem_of_nil. }
  rewrite Hg. split_and!.
  - unfold build_grid. rewrite <- list_fmap_compose. apply list_fmap_id.
  - intros row [_ ->]%elem_of_build_grid. by rewrite length_fmap.
  - intros row s rowspan signed [_ Hcells]%elem_of_build_grid Hcell.
    rewrite Hcells in Hcell. apply list_elem_of_fmap in Hcell as (role & Hcell & _).
    unfold cell_at in Hcell.
    destruct (role_hour_shift (first :: others) !! (role_id role, hour row))
      as [x|] eqn:Hx; [|done].
    case_decide as Hstart; [|done]. injection Hcell as <- -> _.
    apply role_hour_shift_Some in Hx as (Hin & _ & Hh).
    assert (shift_hours s ≠ []) as Hne
      by (intros Hnone; rewrite Hnone in Hh; by apply elem_of_nil in Hh).
    rewrite rowspan_of_slots by done.
    split_and!; try done.
    + rewrite <- Hall in Hin. by apply list_elem_of_filter in Hin as [_ ?].
    + destruct (shift_hours s); [done|]. simpl. lia.
    + intros k Hk. rewrite Hhours. apply (shift_hours_in_range first others s); [done|].
      unfold shift_hours at 1. rewrite hour_range_seq. apply list_elem_of_fmap.
      exists k. split; [by rewrite Hstart|].
      apply elem_of_seq. split; [lia|].
      unfold shift_hours in Hk. rewrite hour_range_seq, length_fmap, length_seq in Hk. lia.
Qed.

Lemma foldl_cover_elsewhere (l : list Shift) (m : gmap (nat * Z) Shift) role h :
  (∀ other, other ∈ l → shift_role other = role → h ∉ shift_hours other) →
  foldl cover m l !! (role, h) = m !! (role, h).
Proof.
  revert m. induction l as [|x l IH]; intros m Hfree; [done|].
  simpl. rewrite IH by (intros other Ho; apply Hfree; by right).
  rewrite cover_lookup, decide_False; [done|].
  intros [-> Hh]. by apply (Hfree x); [left|..].
Qed.

(** X11.  When shifts of one role cover the same hour, the cell goes to the
    one that comes last in the queryset (ordered by start time): at each hour
    a shift covers that no later shift of its role covers, the cell map holds
    that shift, and the cell is its start or its continuation, whatever
    earlier shifts cover that hour. *)
Theorem last_shift_covering_an_hour_takes_the_cell before s after ua h role :
  h ∈ shift_hours s →
  (∀ other, other ∈ after → shift_role other = shift_role s → h ∉ shift_hours other) →
  role_id role = shift_role s →
  role_hour_shift (before ++ s :: after) !! (shift_role s, h) = Some s
  ∧ cell_at (role_hour_shift (before ++ s :: after)) ua h role
    = if decide (h = on_the_hour (start_time s))
      then ShiftStart s (Z.of_nat (length (shift_hours s)))
                      (bool_decide (shift_id s ∈ ua))
      else ShiftContinue.
Proof.
  intros Hh Hfree Hrole.
  assert (role_hour_shift (before ++ s :: after) !! (shift_role s, h) = Some s) as Hm.
  { unfold role_hour_shift. rewrite foldl_app. simpl.
    rewrite foldl_cover_elsewhere by done.
    by rewrite cover_lookup, decide_True. }
  split; [done|]. unfold cell_at. rewrite Hrole, Hm.
  rewrite rowspan_of_slots; [done|].
  intros Hnone. rewrite Hnone in Hh. by apply elem_of_nil in Hh.
Qed.
End GridShape.

(** ** The tickets pages and the actions behind them *)

Section TicketPages.
Import Tickets Transfers Pages.

(** X12.  What [my_tickets] lists, the actions find.  With unique transfer
    ids: a ticket listed as owned can be offered for transfer (the order
    lookup of [transfer_ticket] does not answer 404); a transfer listed as
    incoming is answered by accept with the limit message or with success,
    never with 404 or an exception, and reject marks that very row
    rejected; a transfer listed as outgoing is deleted by rescind. *)
Theorem my_tickets_lists_what_the_actions_find db u :
  NoDup (transfer_id <$> transfers db) →
  (∀ o posted_email, o ∈ owned_tickets (my_tickets db u) →
     response_of (transfer_ticket db u (order_id o) posted_email) ≠ Http404)
  ∧ (∀ t, t ∈ incoming_transfers (my_tickets db u) →
       (response_of (accept_transfer db u (transfer_id t)) = Redirect MyTickets YouAtLimit
        ∨ response_of (accept_transfer db u (transfer_id t))
          = Redirect MyTickets TransferAccepted_)
       ∧ reject_transfer db u (transfer_id t)
         = {| response_of := Redirect MyTickets TransferRejected_;
              gateway_calls := []; writes := [TransferSave (rejected t)] |})
  ∧ (∀ t, t ∈ outgoing_transfers (my_tickets db u) →
       rescind_transfer db u (transfer_id t)
       = {| response_of := Redirect MyTickets TransferRescinded;
            gateway_calls := []; writes := [TransferDelete (transfer_id t)] |}).
Proof.
  intros Hnd. unfold my_tickets.
  destruct (get_active db) as [event|]; simpl;
    [|split_and!; intros; by match goal with H : _ ∈ [] |- _ => apply elem_of_nil in H end].
  assert (Hfound : ∀ t (P : Transfer → Prop) `{!∀ x, Decision (P x)},
            t ∈ transfers db → P t →
            head (filter (λ x, transfer_id x = transfer_id t ∧ P x) (transfers db))
            = Some t).
  { intros t P HP Hin Ht.
    destruct (head (filter (λ x, transfer_id x = transfer_id t ∧ P x) (transfers db)))
      as [x|] eqn:Hx.
    - apply first_Some in Hx as (Hxin & Hid & _). f_equal.
      by apply (key_inj transfer_id (transfers db)).
    - exfalso. apply (first_None _ _ t) in Hx; [|done]. apply Hx. by split. }
  split_and!.
  - intros o posted_email [(Hev & Hu & Hc) Hin]%list_elem_of_filter.
    unfold transfer_ticket.
    destruct (head (filter (λ x, order_id x = order_id o ∧ owning_user x = user_id u
                                 ∧ order_state x = OrderCompleted) (orders db)))
      as [order|] eqn:Hor.
    + repeat (case_match; try done).
    + exfalso. apply (first_None _ _ o) in Hor; [|done]. apply Hor. by split_and!.
  - intros t [(Hev & Hto & Hpending) Hin]%list_elem_of_filter.
    assert (incoming_transfer db u (transfer_id t) = Some t) as Hi.
    { unfold incoming_transfer. by apply (Hfound t (λ x, to_email x = user_email u
                                          ∧ transfer_state x = TransferPending) _). }
    split.
    + unfold accept_transfer. rewrite Hi.
      unfold order__ticket_type__event in Hev.
      destruct (order_of db t) as [o|]; [|done]. simpl in Hev.
      destruct (ticket_type_of db o) as [ty|]; [|done].
      case_decide; [by left|by right].
    + unfold reject_transfer. by rewrite Hi.
  - intros t [(Hev & Hfrom & Hpending) Hin]%list_elem_of_filter.
    unfold rescind_transfer.
    assert (outgoing_transfer db u (transfer_id t) = Some t) as ->; [|done].
    unfold outgoing_transfer. by apply (Hfound t (λ x, from_user x = user_id u
                                         ∧ transfer_state x = TransferPending) _).
Qed.

(** On ASCII text [strip] and [lower] give ASCII text, and [lower] leaves no
    capital letter. *)
Lemma lstrip_Forall (P : ascii → Prop) s :
  Forall P (list_ascii_of_string s) → Forall P (list_ascii_of_string (lstrip s)).
Proof.
  induction s as [|c s IH]; [done|]. simpl. intros [Hc Hs]%Forall_cons.
  destruct (is_space c); [by apply IH|]. simpl. by constructor.
Qed.

Lemma rstrip_Forall (P : ascii → Prop) s :
  Forall P (list_ascii_of_string s) → Forall P (list_ascii_of_string (rstrip s)).
Proof.
  induction s as [|c s IH]; [done|]. simpl. intros [Hc Hs]%Forall_cons.
  specialize (IH Hs). destruct (rstrip s) as [|c' r].
  - destruct (is_space c); simpl; [done|]. by repeat constructor.
  - simpl in *. by constructor.
Qed.

Lemma lower_char_small c :
  nat_of_ascii c < 128 →
  nat_of_ascii (lower_char c) < 128
  ∧ ¬ (65 ≤ nat_of_ascii (lower_char c) ≤ 90).
Proof.
  intros Hc. unfold lower_char.
  destruct ((65 <=? nat_of_ascii c) && (nat_of_ascii c <=? 90)) eqn:Hcap.
  - apply andb_true_iff in Hcap as [Hlo%Nat.leb_le Hhi%Nat.leb_le].
    rewrite nat_ascii_embedding by lia. lia.
  - split; [done|]. intros [Hlo%Nat.leb_le Hhi%Nat.leb_le].
    rewrite Hlo, Hhi in Hcap. done.
Qed.

Lemma lower_small s :
  ascii_text s →
  Forall (λ c, nat_of_ascii c < 128 ∧ ¬ (65 ≤ nat_of_ascii c ≤ 90))
         (list_ascii_of_string (lower s)).
Proof.
  unfold ascii_text. induction s as [|c s IH]; [done|]. simpl.
  intros [Hc Hs]%Forall_cons. constructor; [by apply lower_char_small|by apply IH].
Qed.

(** X13.  For a posted email that is ASCII text, every transfer
    [transfer_ticket] creates is for the order asked for, from the
    requesting user, and addressed to an email that is not empty, is not the
    requesting user's, and is the stored email of the account recorded as
    recipient; that stored email is ASCII text without a capital letter.  So
    an account whose stored email has a capital letter is never made the
    recipient of a transfer. *)
Theorem transfer_ticket_addresses_a_lower_case_account db u id posted_email w :
  ascii_text (default EmptyString posted_email) →
  w ∈ writes (transfer_ticket db u id posted_email) →
  ∃ email recipient,
    w = TransferCreate id (user_id u) email (user_id recipient)
    ∧ email = lower (strip (default EmptyString posted_email))
    ∧ email ≠ EmptyString
    ∧ email ≠ user_email u
    ∧ recipient ∈ users db
    ∧ user_email recipient = email
    ∧ Forall (λ c, nat_of_ascii c < 128 ∧ ¬ (65 ≤ nat_of_ascii c ≤ 90))
             (list_ascii_of_string (user_email recipient)).
Proof.
  intros Hascii. unfold transfer_ticket.
  destruct (head (filter _ (orders db))) as [order|] eqn:Hor;
    [|by (simpl; intros ?%elem_of_nil)].
  destruct (decide (filter _ (transfers db) ≠ [])); [by (simpl; intros ?%elem_of_nil)|].
  destruct (decide (lower (strip (default EmptyString posted_email)) = EmptyString))
    as [|Hne]; [by (simpl; intros ?%elem_of_nil)|].
  destruct (decide (lower (strip (default EmptyString posted_email)) = user_email u))
    as [|Hself]; [by (simpl; intros ?%elem_of_nil)|].
  destruct (head (filter _ (users db))) as [recipient|] eqn:Hre;
    [|by (simpl; intros ?%elem_of_nil)].
  destruct (ticket_type_of db order) as [ty|]; [|by (simpl; intros ?%elem_of_nil)].
  destruct (decide (max_per_user ty ≤ _)); [by (simpl; intros ?%elem_of_nil)|].
  simpl. intros ->%list_elem_of_singleton.
  apply first_Some in Hor as (_ & Hid & _). apply first_Some in Hre as [Hin Hemail].
  exists (lower (strip (default EmptyString posted_email))), recipient.
  split_and!; try done.
  - by rewrite Hid.
  - rewrite Hemail. apply lower_small. unfold ascii_text, strip.
    by apply rstrip_Forall, lstrip_Forall.
Qed.

End TicketPages.

Section Remaining.
Import Tickets Transfers Pages Site.
Local Open Scope Z_scope.

Lemma selection_parses tts post items tickets t :
  selection tts post = Some (items, tickets) → t ∈ tts →
  ∃ q, int_of_field (post (tt_id t)) = Some q.
Proof.
  revert items tickets. induction tts as [|x tts IH]; intros items tickets Hsel Ht.
  { by apply elem_of_nil in Ht. }
  simpl in Hsel. destruct (int_of_field (post (tt_id x))) as [q|] eqn:Hq; [|done].
  destruct (selection tts post) as [[items' tickets']|] eqn:Hrest; [|done].
  apply elem_of_cons in Ht as [->|Ht]; [eauto|]. by eapply IH.
Qed.

Lemma event_ticket_types_NoDup db ev :
  NoDup (tt_id <$> ticket_types db) → NoDup (tt_id <$> event_ticket_types db ev).
Proof.
  unfold event_ticket_types. intros Hnd.
  induction (ticket_types db) as [|x l IH]; [constructor|].
  rewrite fmap_cons in Hnd. apply NoDup_cons in Hnd as [Hx Hnd].
  rewrite filter_cons. case_decide; [|by apply IH].
  rewrite fmap_cons. apply NoDup_cons. split; [|by apply IH].
  intros (y & Hy & [_ Hin]%list_elem_of_filter)%list_elem_of_fmap.
  apply Hx. rewrite Hy. apply list_elem_of_fmap. eauto.
Qed.

Lemma elem_of_ticket_data db ev u t r :
  (t, r) ∈ ticket_data db ev u
  ↔ t ∈ event_ticket_types db ev ∧ r = remaining t (existing_counts db ev u (tt_id t)).
Proof.
  unfold ticket_data. rewrite list_elem_of_fmap. split.
  - intros (x & [= -> ->] & Hx). done.
  - intros [Ht ->]. by exists t.
Qed.

(** X14.  The remaining numbers [tickets] shows are what checkout enforces.
    For a form with at least one positive quantity, whose fields parse, in a
    store with unique ticket type ids: [create_checkout_session] calls the
    gateway exactly when, for every row of the tickets page, the quantity
    asked for (nothing, when not positive) is at most the remaining number
    shown and the user is not already above that type's limit. *)
Theorem checkout_goes_through_within_the_remaining_shown gw db u post ev data items tickets :
  NoDup (tt_id <$> ticket_types db) →
  Pages.tickets db u = inr (ev, data) →
  selection (event_ticket_types db ev) post = Some (items, tickets) →
  items ≠ [] →
  gateway_calls (create_checkout_session gw db u post) ≠ []
  ↔ ∀ t r q, (t, r) ∈ data → int_of_field (post (tt_id t)) = Some q →
             Z.max 0 q ≤ r
             ∧ (existing_counts db ev u (tt_id t) ≤ max_per_user t)%nat.
Proof.
  intros Hnd Hpage Hsel Hitems. unfold Pages.tickets in Hpage.
  destruct (get_active db) as [ev'|] eqn:Hev; [|done]. injection Hpage as -> <-.
  pose proof (event_ticket_types_NoDup db ev Hnd) as Hnd'.
  unfold create_checkout_session. rewrite Hev, Hsel.
  destruct items as [|item items]; [done|].
  destruct (over_limit db ev u tickets) as [over|] eqn:Hover.
  - split; [done|]. intros Hfit. exfalso.
    apply first_Some in Hover as [Hin Hexceeds].
    destruct (selection_parses _ _ _ _ over Hsel Hin) as [q Hq].
    destruct (Hfit over _ q (proj2 (elem_of_ticket_data db ev u over _) (conj Hin eq_refl)) Hq)
      as [Hrem Hle].
    rewrite (selection_requested _ _ _ _ over q Hnd' Hsel Hin Hq) in Hexceeds.
    unfold remaining in Hrem. lia.
  - split.
    + intros _ t r q [Hin ->]%elem_of_ticket_data Hq.
      apply (first_None _ _ t) in Hover; [|done]. simpl in Hover.
      rewrite (selection_requested _ _ _ _ t q Hnd' Hsel Hin Hq) in Hover.
      unfold remaining. lia.
    + intros _. by destruct (session_create gw (item :: items)).
Qed.

Lemma created_pending (tickets : list TicketType) db u session :
  ∃ created,
    orders (run db ((λ t, OrderCreate (tt_id t) (user_id u) (user_id u) session)
                    <$> tickets)) = created ++ orders db
    ∧ length created = length tickets
    ∧ Forall (λ o, order_state o = OrderPending ∧ stripe_payment_intent_id o = None
                   ∧ owning_user o = user_id u) created.
Proof.
  revert db. induction tickets as [|t tickets IH]; intros db.
  - exists []. by split_and!.
  - rewrite fmap_cons, run_cons.
    destruct (IH (apply_write db (OrderCreate (tt_id t) (user_id u) (user_id u) session)))
      as (created & Hos & Hlen & Hall).
    eexists (created ++ [_]). split_and!.
    + rewrite Hos. simpl. by rewrite <- app_assoc.
    + rewrite length_app. simpl. lia.
    + apply Forall_app. split; [done|]. by apply Forall_singleton.
Qed.

(** X15.  Orders that are not paid yet take from the limit.  After a
    checkout session has been created, in a store with unique primary keys,
    the remaining number [tickets] shows for each ticket type of the event is
    the number shown before less the quantity asked for, though the orders
    the checkout has added to the Order table, at least one, are all pending,
    without a payment intent. *)
Theorem unpaid_checkout_takes_from_the_remaining gw db u post ev data :
  well_keyed db →
  Pages.tickets db u = inr (ev, data) →
  writes (create_checkout_session gw db u post) ≠ [] →
  let db' := serve db (CreateCheckoutSession gw u post) in
  ∃ data' created,
    Pages.tickets db' u = inr (ev, data')
    ∧ data'.*1 = data.*1
    ∧ (∀ t r q, (t, r) ∈ data → int_of_field (post (tt_id t)) = Some q →
                (t, r - Z.max 0 q) ∈ data' ∧ 0 ≤ r - Z.max 0 q)
    ∧ created ≠ []
    ∧ orders db' = created ++ orders db
    ∧ Forall (λ o, order_state o = OrderPending ∧ stripe_payment_intent_id o = None
                   ∧ owning_user o = user_id u) created.
Proof.
  intros Hk Hpage Hwrote db'. pose proof Hk as (Hnd & _).
  unfold Pages.tickets in Hpage.
  destruct (get_active db) as [ev'|] eqn:Hev; [|done]. injection Hpage as -> <-.
  pose proof (event_ticket_types_NoDup db ev Hnd) as Hnd'.
  subst db'. unfold serve. cbn [handle].
  unfold create_checkout_session in *. rewrite Hev in *.
  destruct (selection (event_ticket_types db ev) post) as [[items tickets]|] eqn:Hsel;
    [|done].
  destruct items as [|item items]; [done|].
  destruct (over_limit db ev u tickets) as [over|] eqn:Hover; [done|].
  destruct (session_create gw (item :: items)) as [session|]; [|done].
  cbn [writes] in *.
  set (ws := (λ t, OrderCreate (tt_id t) (user_id u) (user_id u) (session_id session))
             <$> tickets).
  destruct (run_static db ws) as (Hevents & _).
  assert (Htypes : event_ticket_types (run db ws) ev = event_ticket_types db ev)
    by (unfold event_ticket_types; by rewrite run_ticket_types).
  assert (Hcount : ∀ t, t ∈ event_ticket_types db ev →
            existing_counts (run db ws) ev u (tt_id t)
            = (requested_counts tickets (tt_id t)
               + existing_counts db ev u (tt_id t))%nat).
  { intros t [Hte Hin]%list_elem_of_filter.
    rewrite !existing_counts_held by (by rewrite ?run_ticket_types).
    unfold ws. rewrite held_create_all. by rewrite decide_True. }
  destruct (created_pending tickets db u (session_id session))
    as (created & Hos & Hlen & Hall).
  exists (ticket_data (run db ws) ev u), created. split_and!.
  - unfold Pages.tickets, get_active. rewrite Hevents.
    fold (get_active db). by rewrite Hev.
  - unfold ticket_data. rewrite Htypes, <- !list_fmap_compose. by apply list_fmap_ext.
  - intros t r q [Hin ->]%elem_of_ticket_data Hq.
    apply (first_None _ _ t) in Hover as Hfits; [|done]. simpl in Hfits.
    rewrite (selection_requested _ _ _ _ t q Hnd' Hsel Hin Hq) in Hfits.
    split; [|unfold remaining; lia].
    apply elem_of_ticket_data. rewrite Htypes. split; [done|].
    rewrite Hcount by done.
    rewrite (selection_requested _ _ _ _ t q Hnd' Hsel Hin Hq).
    unfold remaining. lia.
  - intros ->. destruct tickets; [done|]. simpl in Hlen. lia.
  - done.
  - done.
Qed.

(** X16.  The gateway is asked to charge for exactly the orders that get
    created.  Whatever [selection] returns, every line item has a positive
    quantity and the quantities add up to the number of tickets to create;
    so when [create_checkout_session] creates orders, their number is the
    sum of the quantities of the line items sent to the gateway. *)
Theorem line_items_add_up_to_the_orders gw db u post :
  (∀ tts items tickets,
     selection tts post = Some (items, tickets) →
     Forall (λ item, 0 < quantity item) items
     ∧ foldr Z.add 0 (quantity <$> items) = Z.of_nat (length tickets))
  ∧ (writes (create_checkout_session gw db u post) ≠ [] →
     ∃ items,
       gateway_calls (create_checkout_session gw db u post)
       = [SessionCreate items (user_email u) (user_id u)]
       ∧ foldr Z.add 0 (quantity <$> items)
         = Z.of_nat (length (writes (create_checkout_session gw db u post)))).
Proof.
  assert (Hsum : ∀ tts items tickets,
     selection tts post = Some (items, tickets) →
     Forall (λ item, 0 < quantity item) items
     ∧ foldr Z.add 0 (quantity <$> items) = Z.of_nat (length tickets)).
  { induction tts as [|x tts IH]; intros items tickets Hsel.
    - injection Hsel as <- <-. by split.
    - simpl in Hsel. destruct (int_of_field (post (tt_id x))) as [q|]; [|done].
      destruct (selection tts post) as [[items' tickets']|]; [|done].
      destruct (IH _ _ eq_refl) as [Hpos Htotal].
      destruct (decide (0 < q)) as [Hq|Hq]; injection Hsel as <- <-; [|done].
      split; [by constructor|].
      rewrite fmap_cons, length_app, length_replicate. simpl. lia. }
  split; [done|]. unfold create_checkout_session.
  destruct (get_active db) as [ev|]; [|done].
  destruct (selection (event_ticket_types db ev) post) as [[items tickets]|] eqn:Hsel;
    [|done].
  destruct items as [|item items]; [done|].
  destruct (over_limit db ev u tickets); [done|].
  destruct (session_create gw (item :: items)); [|done].
  intros _. eexists. split; [done|]. cbn [writes]. rewrite length_fmap.
  by apply (Hsum _ _ _ Hsel).
Qed.
End Remaining.

(** ** The admin *)

Section AdminPermissions.
Import Admin.

Lemma leads_role_some leads who role :
  leads_role leads who role = true → leads_some_role leads who = true.
Proof.
  unfold leads_role, leads_some_role. rewrite !bool_decide_eq_true.
  intros Hrole Hnone. apply Hrole. apply elem_of_nil_inv.
  intros l [[_ Hu] Hl]%list_elem_of_filter.
  assert (l ∈ filter (λ l, l.2 = user_id (account who)) leads) as Hin
    by (by apply list_elem_of_filter).
  rewrite Hnone in Hin. by apply elem_of_nil in Hin.
Qed.

Lemma leads_none leads who role :
  leads_some_role leads who = false → leads_role leads who role = false.
Proof.
  intros Hnone. destruct (leads_role leads who role) eqn:Hrole; [|done].
  apply leads_role_some in Hrole. congruence.
Qed.

(** X17.  In the admin of shifts and of assignments, the list a user gets
    holds exactly the rows the user may change, delete and view one by one;
    whoever has a row in a list may open the module and add; the roles
    offered when editing a shift are those under which a shift is listed
    for the user afterwards; and a user who is not a superuser and leads no
    role gets empty lists, no choices and no permission. *)
Theorem admin_lists_what_the_user_may_change leads db who :
  (∀ s, s ∈ shift_queryset leads db who
        ↔ s ∈ Model.shifts db ∧ shift_object_permission leads who (Some s) = true)
  ∧ (∀ a, a ∈ assignment_queryset leads db who
          ↔ a ∈ assignments db
            ∧ assignment_object_permission leads db who (Some a) = Some true)
  ∧ (shift_queryset leads db who ≠ [] ∨ assignment_queryset leads db who ≠ [] →
     module_permission leads who = true
     ∧ shift_object_permission leads who None = true
     ∧ assignment_object_permission leads db who None = Some true)
  ∧ (∀ r s, r ∈ role_choices leads db who → s ∈ Model.shifts db →
            shift_role s = role_id r → s ∈ shift_queryset leads db who)
  ∧ (∀ s a, s ∈ shift_choices leads db who → a ∈ assignments db →
            shift_of db a = Some s → a ∈ assignment_queryset leads db who)
  ∧ (is_superuser who = false → leads_some_role leads who = false →
     shift_queryset leads db who = [] ∧ assignment_queryset leads db who = []
     ∧ role_choices leads db who = [] ∧ shift_choices leads db who = []
     ∧ module_permission leads who = false
     ∧ ∀ obj, shift_object_permission leads who obj = false).
Proof.
  unfold shift_queryset, assignment_queryset, shift_object_permission,
    assignment_object_permission, module_permission, role_choices, shift_choices.
  destruct (is_superuser who) eqn:Hsuper.
  - split_and!; try done; try tauto.
  - split_and!.
    + intros s. rewrite list_elem_of_filter. tauto.
    + intros a. rewrite list_elem_of_filter. tauto.
    + intros [Hs|Ha].
      * destruct (filter _ (Model.shifts db)) as [|s l] eqn:Hl; [done|].
        assert (s ∈ s :: l) as Hin by left. rewrite <- Hl in Hin.
        apply list_elem_of_filter in Hin as [Hrole%leads_role_some _].
        by rewrite Hrole.
      * destruct (filter _ (assignments db)) as [|a l] eqn:Hl; [done|].
        assert (a ∈ a :: l) as Hin by left. rewrite <- Hl in Hin.
        apply list_elem_of_filter in Hin as [Hrole _].
        destruct (shift_of db a) as [s|]; [|done]. injection Hrole as Hrole.
        apply leads_role_some in Hrole. by rewrite Hrole.
    + intros r s [Hr _]%list_elem_of_filter Hs Hrole.
      apply list_elem_of_filter. by rewrite Hrole.
    + intros s a [Hs _]%list_elem_of_filter Ha Hshift.
      apply list_elem_of_filter. rewrite Hshift. simpl. by rewrite Hs.
    + intros _ Hnone.
      assert (∀ role, leads_role leads who role = true → False) as Hno
        by (intros role Hrole; rewrite (leads_none _ _ _ Hnone) in Hrole; done).
      split_and!; try done.
      * apply elem_of_nil_inv. intros s [Hs _]%list_elem_of_filter. by apply Hno in Hs.
      * apply elem_of_nil_inv. intros a [Ha _]%list_elem_of_filter.
        destruct (shift_of db a) as [s|]; [|done]. injection Ha as Ha. by apply Hno in Ha.
      * apply elem_of_nil_inv. intros r [Hr _]%list_elem_of_filter. by apply Hno in Hr.
      * apply elem_of_nil_inv. intros s [Hs _]%list_elem_of_filter. by apply Hno in Hs.
      * intros [s|]; [by apply leads_none|done].
Qed.
End AdminPermissions.

(** ** More properties on the example site *)

Section MoreOnTheExampleSite.
Import Example Fixtures Tickets Transfers Shifts Site Lifecycle.

Lemma activating_social :
  NoDup (event_id <$> [festival])
  ∧ Events.active (Events.save 0 social [festival]) = [social].
Proof.
  assert (NoDup (event_id <$> [festival])) as Hnd
    by (apply (bool_decide_unpack _); by vm_compute).
  split; [done|].
  destruct (event_save_keeps_one_active 0 social [festival] Hnd) as (Hon & _).
  by apply Hon.
Defined.

Lemma rejected_transfer1_is_gone :
  (∀ t, t ∈ transfers site → transfer_id t < next_transfer_id site)
  ∧ writes (handle site (RejectTransfer bob 1)) ≠ []
  ∧ accept_transfer
      (serve_all (serve site (RejectTransfer bob 1))
                 [TransferTicket alice 1 (Some "carol@example.org"%string)])
      bob 1
    = reply Http404.
Proof.
  assert (∀ t, t ∈ transfers site → transfer_id t < next_transfer_id site) as Hkeys.
  { intros t Ht. apply list_elem_of_singleton in Ht as ->. simpl. lia. }
  assert (writes (handle site (RejectTransfer bob 1)) ≠ []) as Hwrote by done.
  split_and!; [done..|].
  apply (settled_transfer_is_never_found_again site (RejectTransfer bob 1)
           [TransferTicket alice 1 (Some "carol@example.org"%string)] bob 1 bob Hkeys);
    [|done].
  right. by left.
Defined.

Lemma order1_keeps_one_pending_transfer :
  length (pending_for site 1) ≤ 1
  ∧ length (pending_for
              (serve_all site [TransferTicket alice 1 (Some "carol@example.org"%string);
                               RejectTransfer bob 1]) 1) ≤ 1.
Proof.
  assert (length (pending_for site 1) ≤ 1) as Hone by (vm_compute; lia).
  split; [done|]. by apply at_most_one_pending_transfer_per_order.
Defined.

Lemma order2_is_kept :
  well_keyed site ∧ order2 ∈ orders site
  ∧ ∃ o', o' ∈ orders (serve_all site [CheckoutSuccessVisit stripe (Some "cs_2"%string);
                                       AcceptTransfer bob 1])
          ∧ order_id o' = 2.
Proof.
  assert (order2 ∈ orders site) as Hin by left.
  split_and!; [apply site_well_keyed|done|].
  destruct (orders_are_kept_and_only_complete site
              [CheckoutSuccessVisit stripe (Some "cs_2"%string); AcceptTransfer bob 1]
              site_well_keyed) as [Hkept _].
  destruct (Hkept order2 Hin) as (o' & Ho' & Hid & _). by exists o'.
Defined.

Lemma order1_moves_to_bob_by_accept :
  Transfers.reassigned order1 bob ∈ orders (serve site (AcceptTransfer bob 1))
  ∧ ∃ u i transfer,
      AcceptTransfer bob 1 = AcceptTransfer u i
      ∧ incoming_transfer site u i = Some transfer
      ∧ owning_user (Transfers.reassigned order1 bob) = user_id u.
Proof.
  assert (order1 ∈ orders site) as Hin by (right; left).
  assert (Transfers.reassigned order1 bob ∈ orders (serve site (AcceptTransfer bob 1)))
    as Hin' by (vm_compute; right; left).
  split; [done|].
  destruct (only_accept_transfer_changes_the_owner site (AcceptTransfer bob 1) order1
              (Transfers.reassigned order1 bob) site_well_keyed Hin Hin' eq_refl)
    as (u & i & transfer & Hr & Hfound & _ & _ & Hu); [by vm_compute|].
  by exists u, i, transfer.
Defined.

Lemma alice_signs_up_and_cancels :
  (∀ a, a ∈ assignments site → assignment_id a < next_assignment_id site)
  ∧ writes (shift_signup site alice 1) ≠ []
  ∧ assignments (serve (serve site (ShiftSignup alice 1)) (ShiftCancel alice 1))
    = assignments site.
Proof.
  assert (∀ a, a ∈ assignments site → assignment_id a < next_assignment_id site) as Hkeys
    by (by intros a ?%elem_of_nil).
  assert (writes (shift_signup site alice 1) ≠ []) as Hwrote by (by vm_compute).
  split_and!; [done..|].
  by destruct (signup_then_cancel_restores_assignments site alice 1 Hkeys Hwrote)
    as (_ & _ & Hback & _).
Defined.

Lemma alice_is_signed_up_once :
  length (signups site 1 1) ≤ 1
  ∧ length (signups (serve_all site [ShiftSignup alice 1; ShiftSignup alice 1]) 1 1) ≤ 1.
Proof.
  assert (length (signups site 1 1) ≤ 1) as Hone by (vm_compute; lia).
  split; [done|]. by apply at_most_one_signup_per_shift_and_user.
Defined.

Lemma alice_stays_within_the_cap :
  get_active site = Some festival ∧ 0 < max_shifts_per_user festival
  ∧ user_shift_count site festival alice ≤ max_shifts_per_user festival
  ∧ user_shift_count (serve_all site [ShiftSignup alice 1; ShiftSignup alice 2])
                     festival alice ≤ max_shifts_per_user festival.
Proof.
  assert (0 < max_shifts_per_user festival) as Hpos by (simpl; lia).
  assert (user_shift_count site festival alice ≤ max_shifts_per_user festival) as Hcap
    by (vm_compute; lia).
  split_and!; [done..|]. by apply shift_cap_kept_by_every_sequence.
Defined.

Lemma carol_sees_no_ticket_and_cannot_sign_up :
  ∃ ctx, Grid.shifts site carol = inr ctx ∧ Grid.ctx_has_ticket ctx = false
         ∧ writes (shift_signup site carol 1) = [].
Proof.
  destruct (Grid.shifts site carol) as [|ctx] eqn:Hctx; [by vm_compute in Hctx|].
  assert (Grid.ctx_has_ticket ctx = false) as Hno.
  { vm_compute in Hctx. by injection Hctx as <-. }
  exists ctx. split_and!; [done..|].
  destruct (shifts_page_flags_agree_with_signup site carol ctx Hctx) as (Hticket & _).
  by apply Hticket.
Defined.

Lemma site_grid_is_a_table :
  ∃ ctx, Grid.shifts site alice = inr ctx
         ∧ Grid.hour <$> Grid.ctx_grid ctx = Grid.ctx_hours ctx.
Proof.
  destruct (Grid.shifts site alice) as [|ctx] eqn:Hctx; [by vm_compute in Hctx|].
  exists ctx. split; [done|].
  by destruct (shifts_grid_is_a_table site alice ctx Hctx) as (Hrows & _).
Defined.

Lemma noon_after_morning_takes_noon :
  (12 * Grid.HOUR)%Z ∈ Grid.shift_hours noon
  ∧ Grid.role_hour_shift ([morning] ++ noon :: []) !! (shift_role noon, 12 * Grid.HOUR)%Z
    = Some noon.
Proof.
  assert ((12 * Grid.HOUR)%Z ∈ Grid.shift_hours noon) as Hh by (vm_compute; left).
  split; [done|].
  destruct (last_shift_covering_an_hour_takes_the_cell [morning] noon [] ∅
              (12 * Grid.HOUR)%Z kitchen Hh) as [Hm _]; [|done..].
  by intros other ?%elem_of_nil.
Defined.

Lemma bob_can_act_on_transfer1 :
  NoDup (transfer_id <$> transfers site)
  ∧ transfer1 ∈ Pages.incoming_transfers (Pages.my_tickets site bob)
  ∧ reject_transfer site bob 1
    = {| response_of := Redirect MyTickets TransferRejected_; gateway_calls := [];
         writes := [TransferSave (rejected transfer1)] |}.
Proof.
  assert (NoDup (transfer_id <$> transfers site)) as Hnd
    by (apply (bool_decide_unpack _); by vm_compute).
  assert (transfer1 ∈ Pages.incoming_transfers (Pages.my_tickets site bob)) as Hin
    by (vm_compute; left).
  split_and!; [done..|].
  destruct (my_tickets_lists_what_the_actions_find site bob Hnd) as (_ & Hincoming & _).
  by destruct (Hincoming transfer1 Hin) as [_ Hreject].
Defined.

Lemma carol_is_addressed_in_lower_case :
  ascii_text "  Carol@Example.org "
  ∧ TransferCreate 1 1 "carol@example.org" 3
    ∈ writes (transfer_ticket site_after_rescind alice 1
                (Some "  Carol@Example.org "%string))
  ∧ ∃ email recipient,
      TransferCreate 1 1 "carol@example.org" 3
      = TransferCreate 1 (user_id alice) email (user_id recipient)
      ∧ user_email recipient = email
      ∧ Forall (λ c, nat_of_ascii c < 128 ∧ ¬ (65 ≤ nat_of_ascii c ≤ 90))
               (list_ascii_of_string (user_email recipient)).
Proof.
  assert (ascii_text "  Carol@Example.org ") as Hascii
    by (apply (bool_decide_unpack _); by vm_compute).
  assert (TransferCreate 1 1 "carol@example.org" 3
            ∈ writes (transfer_ticket site_after_rescind alice 1
                        (Some "  Carol@Example.org "%string))) as Hw
    by (vm_compute; left).
  split_and!; [done..|].
  destruct (transfer_ticket_addresses_a_lower_case_account site_after_rescind alice 1
              (Some "  Carol@Example.org "%string) _ Hascii Hw)
    as (email & recipient & Hcreate & _ & _ & _ & _ & Hstored & Hlower).
  by exists email, recipient.
Defined.

Lemma bob_buys_within_the_remaining_shown :
  Pages.tickets site bob = inr (festival, [(general, 2%Z); (parking, 1%Z)])
  ∧ selection (event_ticket_types site festival) two_general
    = Some ([{| price := "price_ga"; quantity := 2 |}], [general; general])
  ∧ gateway_calls (create_checkout_session stripe site bob two_general) ≠ [].
Proof.
  assert (Pages.tickets site bob = inr (festival, [(general, 2%Z); (parking, 1%Z)]))
    as Hpage by reflexivity.
  assert (selection (event_ticket_types site festival) two_general
          = Some ([{| price := "price_ga"; quantity := 2 |}], [general; general]))
    as Hsel by reflexivity.
  split_and!; [done..|].
  destruct site_well_keyed as (Hnd & _).
  apply (checkout_goes_through_within_the_remaining_shown stripe site bob two_general
           festival _ _ _ Hnd Hpage Hsel); [done|].
  intros t r q Ht Hq. repeat (apply elem_of_cons in Ht as [[= -> ->]|Ht]).
  - injection Hq as <-. vm_compute. split; [by intros ?|lia].
  - injection Hq as <-. vm_compute. split; [by intros ?|lia].
  - by apply elem_of_nil in Ht.
Defined.

Lemma bob_has_nothing_left_after_checkout :
  Pages.tickets site bob = inr (festival, [(general, 2%Z); (parking, 1%Z)])
  ∧ writes (create_checkout_session stripe site bob two_general) ≠ []
  ∧ ∃ data' created,
      Pages.tickets (serve site (CreateCheckoutSession stripe bob two_general)) bob
      = inr (festival, data')
      ∧ (general, 0%Z) ∈ data'
      ∧ orders (serve site (CreateCheckoutSession stripe bob two_general))
        = created ++ orders site
      ∧ Forall (λ o, order_state o = OrderPending ∧ stripe_payment_intent_id o = None
                     ∧ owning_user o = user_id bob) created.
Proof.
  assert (Pages.tickets site bob = inr (festival, [(general, 2%Z); (parking, 1%Z)]))
    as Hpage by reflexivity.
  assert (writes (create_checkout_session stripe site bob two_general) ≠ []) as Hwrote
    by (by vm_compute).
  split_and!; [done..|].
  destruct (unpaid_checkout_takes_from_the_remaining stripe site bob two_general festival
              _ site_well_keyed Hpage Hwrote)
    as (data' & created & Hpage' & _ & Hless & _ & Horders & Hpending).
  exists data', created. split_and!; [done| |done..].
  destruct (Hless general 2%Z 2%Z) as [Hin _]; [by left|done|]. exact Hin.
Defined.

Lemma two_general_are_charged_and_created :
  writes (create_checkout_session stripe site bob two_general) ≠ []
  ∧ ∃ items,
      gateway_calls (create_checkout_session stripe site bob two_general)
      = [SessionCreate items (user_email bob) (user_id bob)]
      ∧ foldr Z.add 0%Z (quantity <$> items) = 2%Z.
Proof.
  assert (writes (create_checkout_session stripe site bob two_general) ≠ []) as Hwrote
    by (by vm_compute).
  split; [done|].
  destruct (line_items_add_up_to_the_orders stripe site bob two_general) as [_ Hsum].
  destruct (Hsum Hwrote) as (items & Hcall & Htotal). by exists items.
Defined.

Lemma bob_lists_the_kitchen_shifts :
  Admin.shift_queryset kitchen_leads site bob_staff ≠ []
  ∧ Admin.module_permission kitchen_leads bob_staff = true
  ∧ (morning ∈ Admin.shift_queryset kitchen_leads site bob_staff
     ↔ morning ∈ Model.shifts site
       ∧ Admin.shift_object_permission kitchen_leads bob_staff (Some morning) = true).
Proof.
  assert (Admin.shift_queryset kitchen_leads site bob_staff ≠ []) as Hlist
    by (by vm_compute).
  destruct (admin_lists_what_the_user_may_change kitchen_leads site bob_staff)
    as (Hshifts & _ & Hmodule & _).
  split_and!; [done| |apply Hshifts].
  by destruct (Hmodule (or_introl Hlist)) as [Hm _].
Defined.
End MoreOnTheExampleSite.

(** ** A transfer from offer to answer *)

Section TransferRoundTrip.
Import Example Fixtures Tickets Transfers Site.

(** What a [transfer_ticket] that goes through has found and written. *)
Lemma transfer_ticket_success db u id posted_email :
  writes (transfer_ticket db u id posted_email) ≠ [] →
  ∃ order recipient ticket_type,
    order ∈ orders db ∧ order_id order = id ∧ owning_user order = user_id u
    ∧ head (filter (λ x, user_email x = lower (strip (default EmptyString posted_email)))
                   (users db)) = Some recipient
    ∧ ticket_type_of db order = Some ticket_type
    ∧ length (held db (order_ticket_type order) (user_id recipient))
      < max_per_user ticket_type
    ∧ writes (transfer_ticket db u id posted_email)
      = [TransferCreate id (user_id u) (lower (strip (default EmptyString posted_email)))
                        (user_id recipient)].
Proof.
  unfold transfer_ticket.
  destruct (head (filter _ (orders db))) as [order|] eqn:Hor; [|done].
  destruct (decide (filter _ (transfers db) ≠ [])); [done|].
  destruct (decide (lower (strip (default EmptyString posted_email)) = EmptyString));
    [done|].
  destruct (decide (lower (strip (default EmptyString posted_email)) = user_email u));
    [done|].
  destruct (head (filter _ (users db))) as [recipient|] eqn:Hre; [|done].
  destruct (ticket_type_of db order) as [ty|] eqn:Hty; [|done].
  destruct (decide (max_per_user ty ≤ _)) as [|Hfits]; [done|].
  intros _. apply first_Some in Hor as (Hin & Hid & Hown & _).
  exists order, recipient, ty. split_and!; try done; [lia|]. simpl. by rewrite Hid.
Qed.

(** X18.  A transfer that has just been offered can be accepted.  In a
    store with unique order ids, after a [transfer_ticket] that went through,
    the accept of the new transfer by the account it was addressed to goes
    through (the limit check of the offer covers that of the accept), and
    afterwards the order is saved with that account as owner. *)
Theorem offered_transfer_can_be_accepted db u id posted_email v :
  NoDup (order_id <$> orders db) →
  writes (transfer_ticket db u id posted_email) ≠ [] →
  head (filter (λ x, user_email x = lower (strip (default EmptyString posted_email)))
               (users db)) = Some v →
  let offered := serve db (TransferTicket u id posted_email) in
  let accepted := serve offered (AcceptTransfer v (next_transfer_id db)) in
  response_of (accept_transfer offered v (next_transfer_id db))
  = Redirect MyTickets TransferAccepted_
  ∧ (∃ order, order ∈ orders db ∧ order_id order = id ∧ owning_user order = user_id u
              ∧ reassigned order v ∈ orders accepted)
  ∧ (∀ o, o ∈ orders accepted → order_id o = id → owning_user o = user_id v)
  ∧ ∀ t, t ∈ transfers accepted → transfer_id t = next_transfer_id db →
         transfer_state t = TransferAccepted ∧ to_user t = Some (user_id v).
Proof.
  intros Hnd Hwrote Hv offered accepted.
  destruct (transfer_ticket_success db u id posted_email Hwrote)
    as (order & recipient & ty & Hin & Hid & Hown & Hre & Hty & Hfits & Hw).
  assert (recipient = v) as -> by congruence.
  apply first_Some in Hv as [_ Hemail].
  subst accepted offered. unfold serve. cbn [handle]. rewrite Hw.
  change (run db [?w]) with (apply_write db w).
  set (new := {| transfer_id := next_transfer_id db; transfer_order := id;
                 from_user := user_id u;
                 to_email := lower (strip (default EmptyString posted_email));
                 to_user := Some (user_id v); transfer_state := TransferPending |}).
  set (db1 := apply_write db (TransferCreate id (user_id u)
                (lower (strip (default EmptyString posted_email))) (user_id v))).
  assert (Hfound : incoming_transfer db1 v (next_transfer_id db) = Some new).
  { unfold incoming_transfer. simpl. by rewrite filter_cons_True. }
  assert (Horder : order_of db1 new = Some order).
  { unfold order_of. simpl. rewrite <- Hid. by apply first_by_key. }
  assert (Haccept : accept_transfer db1 v (next_transfer_id db)
                    = {| response_of := Redirect MyTickets TransferAccepted_;
                         gateway_calls := [];
                         writes := [OrderSave (reassigned order v);
                                    TransferSave (Transfers.accepted new v)] |}).
  { unfold accept_transfer. rewrite Hfound, Horder.
    change (ticket_type_of db1 order) with (ticket_type_of db order). rewrite Hty.
    change (held db1 (order_ticket_type order) (user_id v))
      with (held db (order_ticket_type order) (user_id v)).
    by rewrite decide_False by lia. }
  rewrite Haccept. cbn [response_of writes]. split_and!.
  - done.
  - exists order. split_and!; try done. simpl. apply list_elem_of_fmap.
    exists order. split; [|done]. unfold saved. by rewrite decide_True.
  - simpl. intros o (y & -> & Hy)%list_elem_of_fmap Ho. rewrite saved_key in Ho.
    unfold saved. rewrite decide_True; [done|]. simpl. congruence.
  - simpl. intros t [->|(y & -> & Hy)%list_elem_of_fmap]%elem_of_cons Ht.
    + unfold saved. by rewrite decide_True.
    + rewrite saved_key in Ht. unfold saved. by rewrite decide_True.
Qed.

(** X19.  Offering a ticket and taking the offer back puts the transfers
    back.  In a store whose transfer ids are below the sequence, after a
    [transfer_ticket] that went through, the sender's rescind of the new
    transfer goes through and leaves the Transfer table as before the
    offer. *)
Theorem offer_then_rescind_restores_transfers db u id posted_email :
  (∀ t, t ∈ transfers db → transfer_id t < next_transfer_id db) →
  writes (transfer_ticket db u id posted_email) ≠ [] →
  let offered := serve db (TransferTicket u id posted_email) in
  rescind_transfer offered u (next_transfer_id db)
  = {| response_of := Redirect MyTickets TransferRescinded; gateway_calls := [];
       writes := [TransferDelete (next_transfer_id db)] |}
  ∧ transfers (serve offered (RescindTransfer u (next_transfer_id db))) = transfers db.
Proof.
  intros Hkeys Hwrote offered.
  destruct (transfer_ticket_success db u id posted_email Hwrote)
    as (order & recipient & ty & _ & _ & _ & _ & _ & _ & Hw).
  subst offered. unfold serve. cbn [handle]. rewrite Hw.
  change (run db [?w]) with (apply_write db w).
  assert (Hrescind : rescind_transfer
            (apply_write db (TransferCreate id (user_id u)
               (lower (strip (default EmptyString posted_email))) (user_id recipient)))
            u (next_transfer_id db)
          = {| response_of := Redirect MyTickets TransferRescinded; gateway_calls := [];
               writes := [TransferDelete (next_transfer_id db)] |}).
  { unfold rescind_transfer, outgoing_transfer. simpl. by rewrite filter_cons_True. }
  rewrite Hrescind. split; [done|]. simpl.
  rewrite filter_cons_False by (simpl; intros Hne; by apply Hne).
  apply filter_all. intros t Ht. apply Hkeys in Ht. lia.
Qed.

Lemma carol_accepts_what_alice_offers :
  NoDup (order_id <$> orders site_after_rescind)
  ∧ writes (transfer_ticket site_after_rescind alice 1 (Some "carol@example.org"%string))
    ≠ []
  ∧ response_of
      (accept_transfer
         (serve site_after_rescind
                (TransferTicket alice 1 (Some "carol@example.org"%string)))
         carol (next_transfer_id site_after_rescind))
    = Redirect MyTickets TransferAccepted_.
Proof.
  assert (NoDup (order_id <$> orders site_after_rescind)) as Hnd
    by (apply (bool_decide_unpack _); by vm_compute).
  assert (writes (transfer_ticket site_after_rescind alice 1
                    (Some "carol@example.org"%string)) ≠ []) as Hwrote
    by (by vm_compute).
  split_and!; [done..|].
  by destruct (offered_transfer_can_be_accepted site_after_rescind alice 1
                 (Some "carol@example.org"%string) carol Hnd Hwrote eq_refl)
    as (Hok & _).
Defined.

Lemma alice_takes_her_offer_back :
  (∀ t, t ∈ transfers site_after_rescind →
        transfer_id t < next_transfer_id site_after_rescind)
  ∧ writes (transfer_ticket site_after_rescind alice 1 (Some "carol@example.org"%string))
    ≠ []
  ∧ transfers
      (serve (serve site_after_rescind
                    (TransferTicket alice 1 (Some "carol@example.org"%string)))
             (RescindTransfer alice (next_transfer_id site_after_rescind)))
    = transfers site_after_rescind.
Proof.
  assert (∀ t, t ∈ transfers site_after_rescind →
               transfer_id t < next_transfer_id site_after_rescind) as Hkeys
    by (by intros t ?%elem_of_nil).
  assert (writes (transfer_ticket site_after_rescind alice 1
                    (Some "carol@example.org"%string)) ≠ []) as Hwrote
    by (by vm_compute).
  split_and!; [done..|].
  by destruct (offer_then_rescind_restores_transfers site_after_rescind alice 1
                 (Some "carol@example.org"%string) Hkeys Hwrote) as [_ Hback].
Defined.
End TransferRoundTrip.
